(** * Historical data job engine: chunk planner, merge stage, executor and
      job registry

    A shallow embedding of [job_manager.py] (class
    [HistoricalDataJobManager]) and of the chunking decision of
    [managers.py] (class [HistoricalDataManager]), together with the
    properties of the engine's specification that were checked against it.
    The second half of the development covers the code around the engine:
    the sequential fetch path and the request parameters of
    [HistoricalDataManager], the historical-data facade of [core.py], the
    job endpoint of [server.py] and the order validation of [managers.py].

    Modelling conventions.
    - A [datetime] is the reading of its own clock, in microseconds since
      the start of year 1, together with its offset from UTC when it is
      aware; a [timedelta] is a signed number of microseconds.  Adding to a
      [datetime] raises [OverflowError] past [datetime.max], comparing or
      subtracting an aware and a naive [datetime] raises [TypeError], as in
      Python.
    - A candle is a Python dict with string keys and string values
      (the upstream API answers JSON objects whose fields are strings).
      The extra keyword parameters of a job are a dict of which the order
      of the keys matters, and are kept as an association list: the
      [TypeError] of a call that binds a parameter twice names the first
      key that collides.
    - Python floats are IEEE binary64 numbers: the estimator of
      [managers.py] is modelled with Rocq's primitive floats.  The
      progress percentage is only compared with other percentages; every
      operation that computes it is monotone under IEEE rounding and the
      bounds 5 and 95 are met exactly, so it is kept as an exact rational.
    - The executor coroutine is a list of primitive actions; the places
      where it gives control back to the event loop are marked in that
      list, and the registry interleaves whole segments between two such
      places with the calls of its public methods.  Cancellation is that of
      [asyncio] since Python 3.8, where [CancelledError] is not an
      [Exception]. *)

From Stdlib Require Import ZArith QArith Lia Lra Bool Floats Uint63.
From Stdlib Require Import Sorting.Sorted Sorting.Permutation.
From Equations Require Import Equations.
From stdpp Require Import gmap strings list fin_maps sorting.

Local Open Scope Z_scope.

(** ** Time *)

Abbreviation timedelta := Z (only parsing).

Definition microseconds_per_second : Z := 1000000.
Definition seconds_per_day : Z := 86400.
Definition microseconds_per_day : Z := seconds_per_day * microseconds_per_second.

(** [timedelta(seconds=s)] and [timedelta(days=d)]. *)
Definition timedelta_of_seconds (s : Z) : timedelta := s * microseconds_per_second.
Definition timedelta_of_days (d : Z) : timedelta := d * microseconds_per_day.

(** The [days] and [seconds] attributes of a normalised [timedelta]:
    [days] is the floor, [0 <= seconds < 86400]. *)
Definition td_days (td : timedelta) : Z := td / microseconds_per_day.
Definition td_seconds (td : timedelta) : Z :=
  (td mod microseconds_per_day) / microseconds_per_second.

(** A [datetime]: what its own clock reads, in microseconds since
    0001-01-01T00:00:00 (the reading of [datetime.min]), and its offset from
    UTC; the offset is [None] for a naive datetime.
    [datetime.fromisoformat] makes an aware datetime of a text that ends in
    an offset (also of one that ended in [Z], after the replacement by
    [+00:00]) and a naive one of a text without. *)
Record datetime := { clock : Z; utcoffset : option timedelta }.

#[global] Instance datetime_eq_dec : EqDecision datetime.
Proof. solve_decision. Defined.

Definition naive (clock : Z) : datetime := {| clock := clock; utcoffset := None |}.

Definition aware (dt : datetime) : bool := bool_decide (is_Some (utcoffset dt)).

(** The point in time, on the clock of UTC for an aware datetime and on its
    own clock for a naive one. *)
Definition instant (dt : datetime) : Z := clock dt - default 0 (utcoffset dt).

(** The reading of [datetime.max], 9999-12-31T23:59:59.999999: the last
    microsecond of day 3652059 ([date.max.toordinal()]). *)
Definition datetime_max : Z := 3652059 * microseconds_per_day - 1.

(** The exceptions of the built-in operations that the code can meet. *)
Inductive py_exception :=
| UnboundLocalError (name : string)
| ValueError
| OverflowError
| TypeError.

(** [a < b]: an aware and a naive datetime cannot be compared; two aware
    ones are compared as points in time. *)
Definition dt_lt (a b : datetime) : py_exception + bool :=
  if bool_decide (aware a = aware b) then inr (instant a <? instant b) else inl TypeError.

(** The datetime whose clock reads [d] more than that of [a], at the same
    offset. *)
Definition shifted (a : datetime) (d : timedelta) : datetime :=
  {| clock := clock a + d; utcoffset := utcoffset a |}.

(** [a + d]: the result keeps the offset of [a]; its clock has to read
    between [datetime.min] and [datetime.max]. *)
Definition dt_add (a : datetime) (d : timedelta) : py_exception + datetime :=
  if bool_decide (0 <= clock a + d <= datetime_max)
  then inr (shifted a d)
  else inl OverflowError.

(** [a - b] *)
Definition dt_sub (a b : datetime) : py_exception + timedelta :=
  if bool_decide (aware a = aware b) then inr (instant a - instant b) else inl TypeError.

(** [min(a, b)], which is [b if b < a else a]. *)
Definition dt_min (a b : datetime) : py_exception + datetime :=
  match dt_lt b a with
  | inl e => inl e
  | inr true => inr b
  | inr false => inr a
  end.

(** What [min(a, b)] is for two datetimes that can be compared. *)
Definition earlier (a b : datetime) : datetime := if instant b <? instant a then b else a.

(** A value together with the equation that says where it comes from. *)
Definition inspect {A : Type} (x : A) : {y : A | x = y} := exist _ x eq_refl.

(** ** Chunk planner ([job_manager.py], lines 284-312) *)

Abbreviation chunk := (datetime * datetime)%type (only parsing).

Definition _calculate_chunk_duration (interval : string) : timedelta :=
  let safe_candles := 950 in
  if String.eqb interval "1second" then timedelta_of_seconds safe_candles
  else if String.eqb interval "1minute" then timedelta_of_days 3
  else if String.eqb interval "5minute" then timedelta_of_days 15
  else if String.eqb interval "30minute" then timedelta_of_days 90
  else if String.eqb interval "1day" then timedelta_of_days 950
  else timedelta_of_days 30.

(** [ceil(a / b)] for a positive divisor. *)
Definition ceil_div (a b : Z) : Z := (a + b - 1) / b.

(** [chunks.append(c)] before the rest of the loop: the chunk comes first in
    the list that the loop returns, when it returns one. *)
Definition chunks_append (c : chunk) (rest : option (py_exception + list chunk))
  : option (py_exception + list chunk) :=
  match rest with
  | Some (inr chunks) => Some (inr (c :: chunks))
  | _ => rest
  end.

(** The [while current_start < end_dt] loop, entered at [current_start]: it
    returns the chunks that it appends from there on, or it raises.  [None]
    stands for a chunk duration that is not positive, which no caller passes
    and which is left out: with it the Python loop makes no progress towards
    [end_dt].  The recursion is justified by the number of chunks that are
    still to come. *)
Equations? generate_chunks_from (chunk_duration : timedelta) (end_dt current_start : datetime)
  : option (py_exception + list chunk)
  by wf (Z.to_nat (ceil_div (instant end_dt - instant current_start) chunk_duration)) lt :=
  generate_chunks_from chunk_duration end_dt current_start
    with inspect (dt_lt current_start end_dt) := {
    | exist _ (inl exn) _ := Some (inl exn);
    | exist _ (inr false) _ := Some (inr []);
    | exist _ (inr true) Hlt with Z_lt_dec 0 chunk_duration := {
        | right _ := None;
        | left _ with inspect (dt_add current_start chunk_duration) := {
            | exist _ (inl exn) _ := Some (inl exn);
            | exist _ (inr next) Hadd with inspect (dt_min next end_dt) := {
                | exist _ (inl exn) _ := Some (inl exn);
                | exist _ (inr current_end) Hmin :=
                    chunks_append (current_start, current_end)
                      (generate_chunks_from chunk_duration end_dt current_end) } } } }.
Proof.
  cbv beta in Hlt, Hadd, Hmin. unfold dt_min, dt_lt in Hmin. unfold dt_lt in Hlt.
  unfold dt_add in Hadd.
  destruct (bool_decide (aware current_start = aware end_dt)); [| discriminate].
  injection Hlt as Hlt. apply Z.ltb_lt in Hlt.
  destruct (bool_decide (0 <= clock current_start + chunk_duration <= datetime_max));
    [| discriminate].
  injection Hadd as <-.
  destruct (bool_decide _); [| discriminate].
  assert (Hnext : instant (shifted current_start chunk_duration)
                  = instant current_start + chunk_duration) by (unfold instant; simpl; lia).
  rewrite Hnext in Hmin.
  assert (Hi : instant current_end
               = Z.min (instant current_start + chunk_duration) (instant end_dt)).
  { destruct (Z.ltb_spec (instant end_dt) (instant current_start + chunk_duration));
      injection Hmin as <-; [| rewrite Hnext]; lia. }
  rewrite Hi. unfold ceil_div.
  set (a := instant end_dt - instant current_start) in *.
  replace (instant end_dt - Z.min (instant current_start + chunk_duration) (instant end_dt))
    with (a - Z.min chunk_duration a) by lia.
  assert (Hstep : (a + chunk_duration - 1) / chunk_duration
                  = 1 + (a - Z.min chunk_duration a + chunk_duration - 1) / chunk_duration).
  { destruct (Z.le_gt_cases chunk_duration a).
    - rewrite Z.min_l by lia.
      replace (a + chunk_duration - 1)
        with ((a - chunk_duration + chunk_duration - 1) + 1 * chunk_duration) by lia.
      rewrite Z.div_add by lia. lia.
    - rewrite Z.min_r by lia.
      replace (a - a + chunk_duration - 1) with (chunk_duration - 1) by lia.
      rewrite (Z.div_small (chunk_duration - 1)) by lia.
      replace (a + chunk_duration - 1) with ((a - 1) + 1 * chunk_duration) by lia.
      rewrite Z.div_add by lia. rewrite Z.div_small by lia. lia. }
  assert (0 <= (a - Z.min chunk_duration a + chunk_duration - 1) / chunk_duration)
    by (apply Z.div_pos; lia).
  lia.
Qed.

Definition _generate_chunks (start_dt end_dt : datetime) (chunk_duration : timedelta)
  : option (py_exception + list chunk) :=
  generate_chunks_from chunk_duration end_dt start_dt.

(** [a == b] for two datetimes that can be compared: the same point in
    time. *)
Definition same_time (a b : datetime) : Prop := aware a = aware b /\ instant a = instant b.

(** A list of chunks that starts at [s], ends at the time of [e], in which
    every chunk is a non-empty range and ends where the next one starts. *)
Fixpoint chained (s : datetime) (cs : list chunk) (e : datetime) : Prop :=
  match cs with
  | [] => same_time s e
  | c :: cs' => c.1 = s /\ instant c.1 < instant c.2 /\ chained c.2 cs' e
  end.

(** What the planner promises for the range [[start_dt, end_dt)] cut with
    chunk duration [d]: the first chunk starts at [start_dt], the last one
    ends at the time of [end_dt] (it is [end_dt] itself when the two dates
    have the same offset, and equal to it in the sense of [==] when their
    offsets differ), every chunk ends where the next one starts, no two
    chunks overlap, no chunk is empty, longer than [d] or goes past [end_dt],
    and the number of chunks is the rounded-up quotient. *)
Definition partitions (chunks : list chunk) (start_dt end_dt : datetime) (d : timedelta) : Prop :=
  fst <$> head chunks = Some start_dt /\
  (exists c, last chunks = Some c /\ same_time c.2 end_dt) /\
  (utcoffset start_dt = utcoffset end_dt -> snd <$> last chunks = Some end_dt) /\
  (forall (i : nat) c c', chunks !! i = Some c -> chunks !! S i = Some c' -> c.2 = c'.1) /\
  (forall (i j : nat) c c', (i < j)%nat ->
     chunks !! i = Some c -> chunks !! j = Some c' ->
     instant c.1 < instant c.2 /\ instant c.2 <= instant c'.1) /\
  Forall (fun c : chunk =>
            instant c.1 < instant c.2 /\ instant c.2 - instant c.1 <= d /\
            instant c.2 <= instant end_dt) chunks /\
  Z.of_nat (length chunks) = ceil_div (instant end_dt - instant start_dt) d.

(** ** Candles and the merge stage ([job_manager.py], lines 314-332) *)

(** A candle is a dict; [candle.get('datetime')] is the lookup of the key
    ["datetime"], [None] when the key is absent. *)
Abbreviation Candle := (gmap string string) (only parsing).

(** Truthiness of [candle.get('datetime')]: [None] and the empty string are
    falsy. *)
Definition truthy (v : option string) : bool :=
  match v with
  | Some s => negb (String.eqb s "")
  | None => false
  end.

(** One iteration of the [for candle in all_data] loop on the pair
    [(seen_times, unique_data)]. *)
Definition dedupe_step (st : gset string * list Candle) (candle : Candle)
  : gset string * list Candle :=
  let '(seen_times, unique_data) := st in
  match candle !! "datetime" with
  | Some dt =>
      if negb (String.eqb dt "") && bool_decide (dt ∉ seen_times)
      then ({[dt]} ∪ seen_times, unique_data ++ [candle])
      else st
  | None => st
  end.

(** The sort key [x.get('datetime', '')]. *)
Definition sort_key (x : Candle) : string := default "" (x !! "datetime").

(** [list.sort] is a stable sort that compares keys with [<] only; for
    strings that is the lexicographic order on code points.  A stable sort of
    a list is unique, and insertion from the right computes it: an element is
    put in front of the first one whose key is not smaller than its own. *)
Fixpoint insert_by_key (x : Candle) (l : list Candle) : list Candle :=
  match l with
  | [] => [x]
  | y :: l' =>
      if String.ltb (sort_key y) (sort_key x) then y :: insert_by_key x l'
      else x :: y :: l'
  end.

Definition sort_by_key (l : list Candle) : list Candle := foldr insert_by_key [] l.

Definition _process_data (all_data : list Candle) : list Candle :=
  match all_data with
  | [] => []
  | _ =>
      let '(_, unique_data) := foldl dedupe_step (∅, []) all_data in
      sort_by_key unique_data
  end.

(** [candle] is the first candle of [all_data] that carries the non-empty
    timestamp [dt]. *)
Definition first_with_datetime (all_data : list Candle) (dt : string) (candle : Candle) : Prop :=
  exists i : nat,
    all_data !! i = Some candle /\ candle !! "datetime" = Some dt /\ dt <> "" /\
    forall (j : nat) c, (j < i)%nat -> all_data !! j = Some c -> c !! "datetime" <> Some dt.

(** Strictly ascending timestamps. *)
Definition datetime_lt (a b : Candle) : Prop :=
  exists ta tb, a !! "datetime" = Some ta /\ b !! "datetime" = Some tb /\
                String.ltb ta tb = true.

(** The candles that the loop appends to [unique_data] when it is entered
    with the set [seen_times]. *)
Definition kept (seen_times : gset string) (all_data : list Candle) : list Candle :=
  (foldl dedupe_step (seen_times, []) all_data).2.

(** Ascending, possibly with ties: no candle has a smaller key than one
    before it. *)
Definition key_sorted (l : list Candle) : Prop :=
  StronglySorted (fun a b => String.ltb (sort_key b) (sort_key a) = false) l.

(** A candle has a timestamp when its [datetime] is there and truthy. *)
Definition has_datetime (candle : Candle) : Prop := truthy (candle !! "datetime") = true.

#[global] Instance has_datetime_dec (candle : Candle) : Decision (has_datetime candle).
Proof. unfold has_datetime. apply _. Defined.

(** ** Jobs ([job_manager.py], lines 18-66) *)

Inductive JobStatus := PENDING | RUNNING | COMPLETED | FAILED | CANCELLED.

#[global] Instance JobStatus_eq_dec : EqDecision JobStatus.
Proof. solve_decision. Defined.

Definition terminal (s : JobStatus) : Prop := s = COMPLETED \/ s = FAILED \/ s = CANCELLED.

(** An exception that reaches an [except Exception] clause of the engine:
    [datetime.fromisoformat] rejects a date ([ValueError]), the arithmetic
    of the dates raises ([TypeError] for an aware and a naive date,
    [OverflowError] past [datetime.max]), or a call binds one of its
    parameters twice because the extra parameters carry that name
    ([TypeError], which names the parameter). *)
Inductive job_error :=
| InvalidIsoformat
| DateArithmetic (e : py_exception)
| MultipleValuesForArgument (name : string).

(** The message and details of a progress update, by the values that the
    f-strings of the source interpolate. *)
Inductive progress_message :=
| MsgInitializing
| MsgProcessingChunks (n : nat)
| MsgChunkCompleted (k n : nat) (candles_so_far : nat)
| MsgProcessingData
| MsgStoringData
| MsgComplete (candles : nat)
| MsgFailed (e : job_error).

Record JobProgress := {
  current_chunk : nat;
  total_chunks : nat;
  candles_fetched : nat;
  percentage : Q;
  message : option progress_message   (* [None] is the initial empty text *)
}.

(** The dates of a job are kept as what [datetime.fromisoformat] makes of the
    text: [None] when it raises.  The extra parameters are a Python dict in
    the order of its keys, which are distinct.  The three time stamps of the
    record ([created_at], [started_at], [completed_at]) are read by no method
    that is modelled here and are left out. *)
Record HistoricalDataJob := {
  job_id : nat;
  symbol : string;
  exchange : string;
  interval : string;
  from_date : option datetime;
  to_date : option datetime;
  status : JobStatus;
  progress : JobProgress;
  error_message : option job_error;
  result_data : option (list Candle);
  kwargs : list (string * string)
}.

Definition initial_progress : JobProgress :=
  {| current_chunk := 0; total_chunks := 0; candles_fetched := 0;
     percentage := 0; message := None |}.

Definition set_status (s : JobStatus) (job : HistoricalDataJob) : HistoricalDataJob :=
  {| job_id := job_id job; symbol := symbol job; exchange := exchange job;
     interval := interval job; from_date := from_date job; to_date := to_date job;
     status := s; progress := progress job; error_message := error_message job;
     result_data := result_data job; kwargs := kwargs job |}.

Definition set_progress (p : JobProgress) (job : HistoricalDataJob) : HistoricalDataJob :=
  {| job_id := job_id job; symbol := symbol job; exchange := exchange job;
     interval := interval job; from_date := from_date job; to_date := to_date job;
     status := status job; progress := p; error_message := error_message job;
     result_data := result_data job; kwargs := kwargs job |}.

Definition set_error_message (e : job_error) (job : HistoricalDataJob) : HistoricalDataJob :=
  {| job_id := job_id job; symbol := symbol job; exchange := exchange job;
     interval := interval job; from_date := from_date job; to_date := to_date job;
     status := status job; progress := progress job; error_message := Some e;
     result_data := result_data job; kwargs := kwargs job |}.

Definition set_result_data (data : list Candle) (job : HistoricalDataJob) : HistoricalDataJob :=
  {| job_id := job_id job; symbol := symbol job; exchange := exchange job;
     interval := interval job; from_date := from_date job; to_date := to_date job;
     status := status job; progress := progress job; error_message := error_message job;
     result_data := Some data; kwargs := kwargs job |}.

(** [len(job.result_data) if job.result_data else 0] *)
Definition result_count (job : HistoricalDataJob) : nat :=
  match result_data job with
  | Some data => length data
  | None => 0%nat
  end.

(** ** The persistence collaborator, as the log of the calls it receives *)

Inductive db_call :=
| DbStoreJobMetadata (id : nat)
| DbUpdateJobStatus (id : nat) (s : JobStatus) (total_candles : option nat)
| DbStoreJobData (id : nat) (data : list Candle) (chunks_fetched : Z).

(** ** Fetching one chunk ([job_manager.py], lines 271-282) *)

(** A field of the answer of the fetch client: absent, [None], or a value. *)
Inductive field (A : Type) := Missing | Null | Value (a : A).
Arguments Missing {A}.
Arguments Null {A}.
Arguments Value {A} a.

(** The dict that [_get_single_data] returns, by the two keys that are read. *)
Record response := {
  Success : field (list Candle);
  Error : field string
}.

(** What the collaborator [self.trading_system.historical._get_single_data]
    does for one chunk: it raises, or it returns [None] or a response.  The
    trading system is the argument of the constructor of the manager. *)
Inductive fetch_outcome :=
| FetchRaises
| FetchReturns (r : option response).

(** [_fetch_single_chunk]: every exception is turned into [None], also the
    [TypeError] of [len(None)] in the log line when the response carries
    ['Success': None]. *)
Definition _fetch_single_chunk (o : fetch_outcome) : option response :=
  match o with
  | FetchRaises => None
  | FetchReturns None => None
  | FetchReturns (Some r) =>
      match Success r with
      | Null => None
      | _ => Some r
      end
  end.

(** One entry of the list that [asyncio.gather(..., return_exceptions=True)]
    returns. *)
Inductive gather_result :=
| GatherException
| GatherValue (r : option response).

(** What a gathered result adds to [all_data]:
    [if result and 'Success' in result and result['Success']]. *)
Definition chunk_data_of (r : option response) : list Candle :=
  match r with
  | Some resp =>
      match Success resp with
      | Value chunk_data => chunk_data
      | _ => []
      end
  | None => []
  end.

(** The collaborators during one run of the executor: what the fetch client
    does for the chunk with a given index, and whether a progress observer
    suspends the executor when it is notified of an update. *)
Record run_env := {
  fetch : nat -> fetch_outcome;
  callbacks_suspend : progress_message -> bool
}.

(** ** The executor coroutine ([job_manager.py], lines 143-269) *)

(** The executor is a sequence of primitive actions: the statements of
    [_execute_job] that touch the job, the persistence collaborator or the
    event loop. *)
Inductive action :=
| AProgress (pct : Q) (msg : progress_message)
    (* [await self._update_progress(job, pct, message, details)] *)
| ASetTotalChunks (n : nat)
    (* [job.progress.total_chunks = len(chunks)] *)
| AGather
    (* [await asyncio.gather( *tasks, return_exceptions=True)] *)
| ASleep
    (* [await asyncio.sleep(0.1)] *)
| AStore (data : list Candle) (chunks_fetched : Z)
    (* [get_historical_db().store_job_data(..., data=unique_data, ...)] *)
| AComplete (data : list Candle)
    (* [job.result_data = unique_data], [job.status = COMPLETED], ... *)
| AFail (e : job_error).
    (* [job.status = FAILED], [job.error_message = str(e)], ... *)

(** The body of the [try] block emits actions and ends with a value or with
    the exception that left it. *)
Definition exec (A : Type) : Type := (list action * (job_error + A))%type.

#[global] Instance exec_ret : MRet exec := fun A a => ([], inr a).

#[global] Instance exec_bind : MBind exec := fun A B f m =>
  match m with
  | (acts, inl e) => (acts, inl e)
  | (acts, inr a) => let '(acts', r) := f a in (acts ++ acts', r)
  end.

Definition emit (a : action) : exec unit := ([a], inr tt).
Definition raise {A : Type} (e : job_error) : exec A := ([], inl e).

(** [self.max_parallel_chunks = 10] *)
Definition max_parallel_chunks : nat := 10.

(** [(i + idx + 1) / len(chunks) * 90 + 5] *)
Definition progress_pct (k n : nat) : Q :=
  (inject_Z (Z.of_nat k) / inject_Z (Z.of_nat n) * 90 + 5)%Q.

(** [range(0, stop, step)] *)
Definition range_step (stop step : nat) : list nat :=
  (fun k => (k * step)%nat) <$> seq 0 ((stop + step - 1) / step)%nat.

(** [dt.fromisoformat(...)], on the parse result that the job carries. *)
Definition fromisoformat (date : option datetime) : exec datetime :=
  match date with
  | Some dt => mret dt
  | None => raise InvalidIsoformat
  end.

(** A call [f(a, ..., **kw)] that fills the parameters [parameters] by
    position raises [TypeError] when a key of [kw] is the name of one of
    them; the message names the first such key in the order of the dict. *)
Definition multiple_values (parameters : list string) (kw : list (string * string))
  : option string :=
  head (filter (fun name => name ∈ parameters) kw.*1).

(** The parameters of [_fetch_single_chunk] that the executor passes by
    position.  A keyword argument of one of these names makes the call raise
    [TypeError] before the coroutine object exists. *)
Definition fetch_parameters : list string :=
  ["self"; "symbol"; "exchange"; "interval"; "from_date"; "to_date"; "chunk_num"].

Definition duplicated_argument (kw : list (string * string)) : option string :=
  multiple_values fetch_parameters kw.

(** The call [self._fetch_single_chunk(job.symbol, ..., chunk_num + 1,
    **job.kwargs)] for the chunk with index [chunk_num]; the coroutine object
    is represented by what the fetch client will do for that chunk. *)
Definition call_fetch_single_chunk (job : HistoricalDataJob) (env : run_env) (chunk_num : nat)
  : exec fetch_outcome :=
  match duplicated_argument (kwargs job) with
  | Some name => raise (MultipleValuesForArgument name)
  | None => mret (fetch env chunk_num)
  end.

(** [for chunk_start, chunk_end in batch: ... tasks.append(task); chunk_num += 1] *)
Fixpoint create_tasks (job : HistoricalDataJob) (env : run_env)
    (batch : list chunk) (chunk_num : nat) : exec (list fetch_outcome * nat) :=
  match batch with
  | [] => mret ([], chunk_num)
  | _ :: rest =>
      task ← call_fetch_single_chunk job env chunk_num;
      '(tasks, chunk_num') ← create_tasks job env rest (S chunk_num);
      mret (task :: tasks, chunk_num')
  end.

(** [for idx, result in enumerate(batch_results)], entered at index [idx]. *)
Fixpoint process_batch_results (i idx n : nat) (batch_results : list gather_result)
    (all_data : list Candle) : exec (list Candle) :=
  match batch_results with
  | [] => mret all_data
  | GatherException :: rest =>
      (* logged; [continue] *)
      process_batch_results i (S idx) n rest all_data
  | GatherValue result :: rest =>
      let all_data := all_data ++ chunk_data_of result in
      _ ← emit (AProgress (progress_pct (i + idx + 1) n)
                  (MsgChunkCompleted (i + idx + 1) n (length all_data)));
      process_batch_results i (S idx) n rest all_data
  end.

(** [for i in range(0, len(chunks), self.max_parallel_chunks)], over the
    start indices that are still to come. *)
Fixpoint batches_loop (job : HistoricalDataJob) (env : run_env) (chunks : list chunk)
    (starts : list nat) (all_data : list Candle) (chunk_num : nat)
  : exec (list Candle * nat) :=
  match starts with
  | [] => mret (all_data, chunk_num)
  | i :: starts' =>
      let batch := take max_parallel_chunks (drop i chunks) in
      '(tasks, chunk_num) ← create_tasks job env batch chunk_num;
      _ ← emit AGather;
      let batch_results := (fun o => GatherValue (_fetch_single_chunk o)) <$> tasks in
      all_data ← process_batch_results i 0 (length chunks) batch_results all_data;
      _ ← emit ASleep;
      batches_loop job env chunks starts' all_data chunk_num
  end.

(** The call [self._generate_chunks(start_dt, end_dt, chunk_duration)] in the
    [try] block: an exception of the planner leaves the block.  The chunk
    duration of every interval is positive, so that the planner returns or
    raises; the last case only makes the definition total. *)
Definition call_generate_chunks (start_dt end_dt : datetime) (chunk_duration : timedelta)
  : exec (list chunk) :=
  match _generate_chunks start_dt end_dt chunk_duration with
  | Some (inr chunks) => mret chunks
  | Some (inl e) => raise (DateArithmetic e)
  | None => mret []
  end.

(** The [try] block. *)
Definition try_block (job : HistoricalDataJob) (env : run_env) : exec unit :=
  _ ← emit (AProgress 0 MsgInitializing);
  start_dt ← fromisoformat (from_date job);
  end_dt ← fromisoformat (to_date job);
  let chunk_duration := _calculate_chunk_duration (interval job) in
  chunks ← call_generate_chunks start_dt end_dt chunk_duration;
  _ ← emit (ASetTotalChunks (length chunks));
  _ ← emit (AProgress 5 (MsgProcessingChunks (length chunks)));
  '(all_data, chunk_num) ←
    batches_loop job env chunks (range_step (length chunks) max_parallel_chunks) [] 0;
  _ ← emit (AProgress 95 MsgProcessingData);
  let unique_data := _process_data all_data in
  _ ← emit (AProgress 98 MsgStoringData);
  _ ← emit (AStore unique_data (Z.of_nat chunk_num - 1));
  _ ← emit (AComplete unique_data);
  emit (AProgress 100 (MsgComplete (length unique_data))).

(** [_execute_job]: the [try] block, and the [except Exception] clause when
    an exception left it.  The [finally] clause, which removes the job from
    [active_jobs], belongs to the scheduler below: it also runs when the
    coroutine is cancelled. *)
Definition _execute_job (job : HistoricalDataJob) (env : run_env) : list action :=
  match try_block job env with
  | (acts, inr _) => acts
  | (acts, inl e) => acts ++ [AFail e; AProgress 0 (MsgFailed e)]
  end.

(** [_update_progress] ([job_manager.py], lines 334-348), without the
    notification of the observers. *)
Definition _update_progress (pct : Q) (msg : progress_message) (job : HistoricalDataJob)
  : HistoricalDataJob :=
  set_progress
    {| current_chunk := current_chunk (progress job);
       total_chunks := total_chunks (progress job);
       candles_fetched := result_count job;
       percentage := pct;
       message := Some msg |} job.

(** The effect of an action on the job record and on the persistence log. *)
Definition apply_action (a : action) (st : HistoricalDataJob * list db_call)
  : HistoricalDataJob * list db_call :=
  let '(job, db) := st in
  match a with
  | AProgress pct msg => (_update_progress pct msg job, db)
  | ASetTotalChunks n =>
      (set_progress
         {| current_chunk := current_chunk (progress job);
            total_chunks := n;
            candles_fetched := candles_fetched (progress job);
            percentage := percentage (progress job);
            message := message (progress job) |} job, db)
  | AGather | ASleep => (job, db)
  | AStore data n => (job, db ++ [DbStoreJobData (job_id job) data n])
  | AComplete data =>
      let job := set_status COMPLETED (set_result_data data job) in
      (set_progress
         {| current_chunk := current_chunk (progress job);
            total_chunks := total_chunks (progress job);
            candles_fetched := length data;
            percentage := percentage (progress job);
            message := message (progress job) |} job,
       db ++ [DbUpdateJobStatus (job_id job) COMPLETED (Some (length data))])
  | AFail e =>
      (set_error_message e (set_status FAILED job),
       db ++ [DbUpdateJobStatus (job_id job) FAILED None])
  end.

(** The executor gives control back to the event loop at [gather], at
    [sleep], and in a progress update when an observer awaits. *)
Definition suspends (env : run_env) (a : action) : bool :=
  match a with
  | AGather | ASleep => true
  | AProgress _ msg => callbacks_suspend env msg
  | _ => false
  end.

(** The percentages of the progress updates of a sequence of actions. *)
Definition percentages (acts : list action) : list Q :=
  omap (fun a => match a with AProgress pct _ => Some pct | _ => None end) acts.

(** A whole run of the executor when nothing interferes. *)
Definition run_to_end (job : HistoricalDataJob) (env : run_env)
  : HistoricalDataJob * list db_call :=
  foldl (fun st a => apply_action a st) (job, []) (_execute_job job env).

(** Actions that touch neither the status, nor the result, nor the
    persistence collaborator. *)
Definition quiet (a : action) : Prop :=
  match a with
  | AProgress _ _ | ASetTotalChunks _ | AGather | ASleep => True
  | _ => False
  end.

(** What a gathered result contributes to [all_data]. *)
Definition contribution (r : gather_result) : list Candle :=
  match r with
  | GatherException => []
  | GatherValue r => chunk_data_of r
  end.

(** A chunk fails when its fetch raises, returns [None], or returns a
    response without ['Success'] data; it succeeds with [data] when the
    response carries that list. *)
Definition chunk_failed (o : fetch_outcome) : Prop :=
  match o with
  | FetchRaises => True
  | FetchReturns None => True
  | FetchReturns (Some resp) => Success resp = Missing \/ Success resp = Null
  end.

Definition chunk_succeeded (o : fetch_outcome) (data : list Candle) : Prop :=
  exists resp, o = FetchReturns (Some resp) /\ Success resp = Value data.

(** Non-decreasing percentages. *)
Definition nondecreasing (qs : list Q) : Prop := StronglySorted Qle qs.

Definition in_percent_range (q : Q) : Prop := (0 <= q /\ q <= 100)%Q.

(** What the chunk with index [i] adds to [all_data] during a run. *)
Definition chunk_contribution (env : run_env) (i : nat) : list Candle :=
  chunk_data_of (_fetch_single_chunk (fetch env i)).

(** The chunks that the executor plans for a job: those that the planner
    returns for its dates; none when a date does not parse or the planner
    raises. *)
Definition planned_chunks (job : HistoricalDataJob) : list chunk :=
  match from_date job, to_date job with
  | Some start_dt, Some end_dt =>
      match _generate_chunks start_dt end_dt (_calculate_chunk_duration (interval job)) with
      | Some (inr chunks) => chunks
      | _ => []
      end
  | _, _ => []
  end.

(** A job whose dates parse and can be planned: they are both aware or both
    naive, and the last chunk boundary that the planner computes for a
    non-empty range, [start_dt + n * d] for the [n] chunks of duration [d],
    is not past [datetime.max] on the clock of [start_dt]. *)
Definition range_fits (start_dt end_dt : datetime) (d : timedelta) : Prop :=
  aware start_dt = aware end_dt /\
  (instant start_dt < instant end_dt ->
   0 <= clock start_dt /\
   clock start_dt + ceil_div (instant end_dt - instant start_dt) d * d <= datetime_max).

Definition plannable (job : HistoricalDataJob) : Prop :=
  exists start_dt end_dt,
    from_date job = Some start_dt /\ to_date job = Some end_dt /\
    range_fits start_dt end_dt (_calculate_chunk_duration (interval job)).

(** The planner returns [chunks] for the dates of the job. *)
Definition plans (job : HistoricalDataJob) (chunks : list chunk) : Prop :=
  exists start_dt end_dt,
    from_date job = Some start_dt /\ to_date job = Some end_dt /\
    _generate_chunks start_dt end_dt (_calculate_chunk_duration (interval job))
    = Some (inr chunks).

(** *** Sample jobs and collaborators *)

Definition sample_candle (dt close : string) : Candle :=
  {[ "datetime" := dt; "close" := close ]}.

Definition sample_job (interval : string) (from_date to_date : option datetime)
    (kwargs : list (string * string)) : HistoricalDataJob :=
  {| job_id := 0; symbol := "RELIND"; exchange := "NSE"; interval := interval;
     from_date := from_date; to_date := to_date;
     status := RUNNING; progress := initial_progress;
     error_message := None; result_data := None; kwargs := kwargs |}.

(** The candles of the five chunks of a fifteen-day one-minute job. *)
Definition five_chunks_data (i : nat) : list Candle :=
  match i with
  | 0%nat => [sample_candle "2024-01-01T09:15" "100"]
  | 1%nat => [sample_candle "2024-01-04T09:15" "101"]
  | 2%nat => [sample_candle "2024-01-07T09:15" "102"]
  | 3%nat => [sample_candle "2024-01-10T09:15" "103"]
  | _ => [sample_candle "2024-01-13T09:15" "104"]
  end.

(** The fetch client raises for the third chunk and answers the others. *)
Definition third_chunk_raises : run_env :=
  {| fetch := fun i =>
       match i with
       | 2%nat => FetchRaises
       | _ => FetchReturns (Some {| Success := Value (five_chunks_data i); Error := Null |})
       end;
     callbacks_suspend := fun _ => false |}.

(** Every chunk is answered with one candle; no observer suspends. *)
Definition all_chunks_answer : run_env :=
  {| fetch := fun i =>
       FetchReturns (Some {| Success := Value (five_chunks_data i); Error := Null |});
     callbacks_suspend := fun _ => false |}.

(** ** The job registry and the event loop ([job_manager.py], lines 68-141
       and 350-376) *)

(** The coroutine of an executor task: created and not yet run, suspended
    at an [await] with the actions that follow it, or finished while its
    entry is still in [active_jobs]. *)
Inductive coroutine :=
| CoCreated (env : run_env)
| CoSuspended (env : run_env) (rest : list action)
| CoDone.

(** An [asyncio.Task]: its coroutine and the pending request of cancellation
    that [Task.cancel()] leaves. *)
Record Task := {
  coro : coroutine;
  must_cancel : bool
}.

(** The manager: [self.jobs], [self.active_jobs], the calls received by the
    persistence collaborator, and the supply of fresh job ids that stands for
    [uuid.uuid4()]. *)
Record Manager := {
  jobs : gmap nat HistoricalDataJob;
  active_jobs : gmap nat Task;
  database : list db_call;
  next_uuid : nat
}.

Definition new_manager : Manager :=
  {| jobs := ∅; active_jobs := ∅; database := []; next_uuid := 0 |}.

(** [create_job], for the [kwargs] that its body receives.  (A call that
    passes the name of one of the five named parameters among the extra
    parameters raises [TypeError] before the body runs.) *)
Definition create_job (m : Manager) (symbol exchange interval : string)
    (from_date to_date : option datetime) (kwargs : list (string * string)) : Manager * nat :=
  let job_id := next_uuid m in
  let job :=
    {| job_id := job_id; symbol := symbol; exchange := exchange; interval := interval;
       from_date := from_date; to_date := to_date;
       status := PENDING; progress := initial_progress;
       error_message := None; result_data := None; kwargs := kwargs |} in
  ({| jobs := <[job_id := job]> (jobs m);
      active_jobs := active_jobs m;
      database := database m ++ [DbStoreJobMetadata job_id];
      next_uuid := S (next_uuid m) |},
   job_id).

(** [start_job].  [env] is what the collaborators will do during the run that
    is started; [start_job] itself does not look at it. *)
Definition start_job (m : Manager) (job_id : nat) (env : run_env) : Manager * bool :=
  match jobs m !! job_id with
  | None => (m, false)
  | Some job =>
      match active_jobs m !! job_id with
      | Some _ => (m, false)
      | None =>
          ({| jobs := <[job_id := set_status RUNNING job]> (jobs m);
              active_jobs :=
                <[job_id := {| coro := CoCreated env; must_cancel := false |}]> (active_jobs m);
              database := database m ++ [DbUpdateJobStatus job_id RUNNING None];
              next_uuid := next_uuid m |},
           true)
      end
  end.

(** [Task.cancel()]: a task that is not finished will receive
    [CancelledError] the next time the event loop runs it. *)
Definition task_cancel (t : Task) : Task :=
  match coro t with
  | CoDone => t
  | _ => {| coro := coro t; must_cancel := true |}
  end.

Definition cancel_job (m : Manager) (job_id : nat) : Manager * bool :=
  match active_jobs m !! job_id with
  | Some task =>
      let active := <[job_id := task_cancel task]> (active_jobs m) in
      match jobs m !! job_id with
      | Some job =>
          ({| jobs := <[job_id := set_status CANCELLED job]> (jobs m);
              active_jobs := active;
              database := database m ++ [DbUpdateJobStatus job_id CANCELLED None];
              next_uuid := next_uuid m |},
           true)
      | None =>
          ({| jobs := jobs m; active_jobs := active;
              database := database m; next_uuid := next_uuid m |},
           true)
      end
  | None => (m, false)
  end.

(** [get_job] *)
Definition get_job (m : Manager) (job_id : nat) : option HistoricalDataJob :=
  jobs m !! job_id.

Definition job_status (m : Manager) (job_id : nat) : option JobStatus :=
  status <$> jobs m !! job_id.

(** The executor runs from one suspension to the next: the actions are
    applied in order up to and including the first one that suspends. *)
Fixpoint run_segment (env : run_env) (acts : list action)
    (st : HistoricalDataJob * list db_call)
  : HistoricalDataJob * list db_call * option (list action) :=
  match acts with
  | [] => (st, None)
  | a :: rest =>
      let st := apply_action a st in
      if suspends env a then (st, Some rest) else run_segment env rest st
  end.

(** The event loop runs the task of [job_id] once.
    - A task with a pending cancellation receives [CancelledError].  When its
      coroutine is suspended inside the [try] statement the exception passes
      the [except Exception] clause ([CancelledError] is no [Exception]) and
      the [finally] clause removes the job from [active_jobs].  When the
      coroutine was never run, the exception is raised before the [try]
      statement is entered: nothing of the body runs and the entry stays.
    - Otherwise the coroutine runs to its next suspension, or to its end,
      where the [finally] clause removes the job from [active_jobs]. *)
Definition resume (m : Manager) (job_id : nat) : Manager :=
  match active_jobs m !! job_id, jobs m !! job_id with
  | Some task, Some job =>
      let continue (env : run_env) (acts : list action) : Manager :=
        let '(job', db', rest) := run_segment env acts (job, database m) in
        {| jobs := <[job_id := job']> (jobs m);
           active_jobs :=
             match rest with
             | Some rest => <[job_id := {| coro := CoSuspended env rest; must_cancel := false |}]>
                              (active_jobs m)
             | None => delete job_id (active_jobs m)
             end;
           database := db';
           next_uuid := next_uuid m |} in
      match coro task with
      | CoDone => m
      | CoCreated env =>
          if must_cancel task
          then {| jobs := jobs m;
                  active_jobs := <[job_id := {| coro := CoDone; must_cancel := false |}]>
                                   (active_jobs m);
                  database := database m; next_uuid := next_uuid m |}
          else continue env (_execute_job job env)
      | CoSuspended env rest =>
          if must_cancel task
          then {| jobs := jobs m; active_jobs := delete job_id (active_jobs m);
                  database := database m; next_uuid := next_uuid m |}
          else continue env rest
      end
  | _, _ => m
  end.

(** The four ways in which the event loop can run a task. *)
Inductive resume_case (m : Manager) (id : nat) : Manager -> Prop :=
| resume_nothing :
    (active_jobs m !! id = None \/ jobs m !! id = None \/
     exists t, active_jobs m !! id = Some t /\ coro t = CoDone) ->
    resume_case m id m
| resume_cancelled_before_start t env :
    active_jobs m !! id = Some t -> is_Some (jobs m !! id) ->
    coro t = CoCreated env -> must_cancel t = true ->
    resume_case m id
      {| jobs := jobs m;
         active_jobs := <[id := {| coro := CoDone; must_cancel := false |}]> (active_jobs m);
         database := database m; next_uuid := next_uuid m |}
| resume_cancelled t env rest :
    active_jobs m !! id = Some t -> is_Some (jobs m !! id) ->
    coro t = CoSuspended env rest -> must_cancel t = true ->
    resume_case m id
      {| jobs := jobs m; active_jobs := delete id (active_jobs m);
         database := database m; next_uuid := next_uuid m |}
| resume_runs t job env acts job' extra rest :
    active_jobs m !! id = Some t -> jobs m !! id = Some job ->
    must_cancel t = false ->
    (coro t = CoCreated env /\ acts = _execute_job job env \/ coro t = CoSuspended env acts) ->
    run_segment env acts (job, database m) = (job', database m ++ extra, rest) ->
    resume_case m id
      {| jobs := <[id := job']> (jobs m);
         active_jobs :=
           match rest with
           | Some rest => <[id := {| coro := CoSuspended env rest; must_cancel := false |}]>
                            (active_jobs m)
           | None => delete id (active_jobs m)
           end;
         database := database m ++ extra; next_uuid := next_uuid m |}.

(** What happens to a manager: the calls of its public methods and the steps
    of the event loop. *)
Inductive event :=
| EvCreateJob (symbol exchange interval : string) (from_date to_date : option datetime)
              (kwargs : list (string * string))
| EvStartJob (job_id : nat) (env : run_env)
| EvCancelJob (job_id : nat)
| EvResume (job_id : nat).

Definition step (m : Manager) (ev : event) : Manager :=
  match ev with
  | EvCreateJob symbol exchange interval from_date to_date kwargs =>
      (create_job m symbol exchange interval from_date to_date kwargs).1
  | EvStartJob job_id env => (start_job m job_id env).1
  | EvCancelJob job_id => (cancel_job m job_id).1
  | EvResume job_id => resume m job_id
  end.

Definition run (m : Manager) (evs : list event) : Manager := foldl step m evs.

(** The states that a fresh manager can reach. *)
Definition reachable (m : Manager) : Prop := exists evs, m = run new_manager evs.

(** The calls that hand a result series of [job_id] to the persistence
    collaborator. *)
Definition stored_results (db : list db_call) (job_id : nat) : list (list Candle) :=
  omap (fun c => match c with
                 | DbStoreJobData id data _ => if decide (id = job_id) then Some data else None
                 | _ => None
                 end) db.

(** The actions that set a final status. *)
Definition is_terminal_action (a : action) : bool :=
  match a with
  | AComplete _ | AFail _ => true
  | _ => false
  end.

Definition terminal_count (acts : list action) : nat :=
  length (filter (fun a => is_terminal_action a = true) acts).

(** The job that a call of the persistence collaborator is about. *)
Definition db_call_id (c : db_call) : nat :=
  match c with
  | DbStoreJobMetadata id | DbUpdateJobStatus id _ _ | DbStoreJobData id _ _ => id
  end.

(** What holds of a task and of the status of its job: a job with a task was
    started; a task that has not been asked to cancel has its job RUNNING
    until its coroutine sets the final status, which it does at most once. *)
Definition task_ok (s : JobStatus) (t : Task) : Prop :=
  s <> PENDING /\
  (must_cancel t = false ->
   match coro t with
   | CoCreated _ => s = RUNNING
   | CoSuspended _ rest =>
       (terminal_count rest <= 1)%nat /\ (terminal_count rest = 1%nat -> s = RUNNING)
   | CoDone => True
   end).

Record manager_inv (m : Manager) : Prop := {
  inv_fresh : forall id, is_Some (jobs m !! id) -> (id < next_uuid m)%nat;
  inv_active : forall id, is_Some (active_jobs m !! id) -> is_Some (jobs m !! id);
  inv_job_id : forall id job, jobs m !! id = Some job -> job_id job = id;
  inv_task : forall id t job,
      active_jobs m !! id = Some t -> jobs m !! id = Some job -> task_ok (status job) t
}.

(** The status changes that one event can make to the job [id]. *)
Definition transition_allowed (m : Manager) (ev : event) (id : nat) (s s' : JobStatus) : Prop :=
  s' = s \/
  (exists env, ev = EvStartJob id env /\ (start_job m id env).2 = true /\ s' = RUNNING) \/
  (ev = EvCancelJob id /\ (cancel_job m id).2 = true /\ s <> PENDING /\ s' = CANCELLED) \/
  (ev = EvResume id /\ s = RUNNING /\ (s' = COMPLETED \/ s' = FAILED)).

(** The claim that terminal states are final. *)
Definition terminal_states_final : Prop :=
  forall evs ev id s,
    job_status (run new_manager evs) id = Some s -> terminal s ->
    job_status (run new_manager (evs ++ [ev])) id = Some s.

(** No call of [start_job] for the job [id]. *)
Definition not_start_of (id : nat) (ev : event) : Prop :=
  match ev with
  | EvStartJob j _ => j <> id
  | _ => True
  end.

(** The claim that a job whose cancellation succeeded is never COMPLETED
    and never stored afterwards. *)
Definition cancelled_never_completes : Prop :=
  forall evs id evs',
    (cancel_job (run new_manager evs) id).2 = true ->
    let m' := run (cancel_job (run new_manager evs) id).1 evs' in
    job_status m' id <> Some COMPLETED /\
    stored_results (database m') id = stored_results (database (run new_manager evs)) id.

(** *** Sample runs *)

Definition one_day_job : event :=
  EvCreateJob "RELIND" "NSE" "1minute" (Some (naive 0)) (Some (naive microseconds_per_day)) [].

(** A job is created, started and run to its end: the executor suspends at
    [gather] and at [sleep]. *)
Definition completed_run : list event :=
  [one_day_job; EvStartJob 0 all_chunks_answer; EvResume 0; EvResume 0; EvResume 0].

(** A job is created, started and run up to its [gather]. *)
Definition fetching_run : list event :=
  [one_day_job; EvStartJob 0 all_chunks_answer; EvResume 0].

(** After the cancellation the task ends, the job is started again and runs
    to its end. *)
Definition restart_after_cancel : list event :=
  [EvResume 0; EvStartJob 0 all_chunks_answer; EvResume 0; EvResume 0; EvResume 0].

(** The state of a job whose cancellation succeeded, for as long as it is
    not started again: it is CANCELLED, its task (if it is still registered)
    will not run the executor any further, and neither its result nor what
    the persistence collaborator received of it changes. *)
Record cancelled_inv (id : nat) (result : option (option (list Candle)))
    (stored : list (list Candle)) (m : Manager) : Prop := {
  cinv_manager : manager_inv m;
  cinv_status : job_status m id = Some CANCELLED;
  cinv_task : forall t, active_jobs m !! id = Some t -> must_cancel t = true \/ coro t = CoDone;
  cinv_result : result_data <$> jobs m !! id = result;
  cinv_stored : stored_results (database m) id = stored
}.

(** ** The chunking decision of [HistoricalDataManager.get_data]
       ([managers.py], lines 265-320) *)

(** A Python [int] as a [float], for integers below [2^53] in magnitude,
    which are converted exactly; every constant and every day count of the
    estimator is that small. *)
Definition float_of_int (n : Z) : float :=
  if n <? 0 then PrimFloat.opp (PrimFloat.of_uint63 (Uint63.of_Z (- n)))
  else PrimFloat.of_uint63 (Uint63.of_Z n).

(** [int(x)] for a float: truncation towards zero; [ValueError] for a NaN,
    [OverflowError] for an infinity. *)
Definition int_of_float (x : float) : py_exception + Z :=
  match Prim2SF x with
  | S754_zero _ => inr 0
  | S754_finite s m e =>
      let magnitude := if 0 <=? e then Z.pos m * 2 ^ e else Z.pos m / 2 ^ (- e) in
      inr (if s then - magnitude else magnitude)
  | S754_infinity _ => inl OverflowError
  | S754_nan => inl ValueError
  end.

Definition market_seconds_per_day : Z := 22500.

(** [interval_seconds.get(interval, 86400)] *)
Definition interval_seconds (interval : string) : Z :=
  if String.eqb interval "1second" then 1
  else if String.eqb interval "1minute" then 60
  else if String.eqb interval "5minute" then 300
  else if String.eqb interval "30minute" then 1800
  else if String.eqb interval "1day" then market_seconds_per_day
  else 86400.

Definition _estimate_candles (interval : string) (total_duration : timedelta)
  : py_exception + Z :=
  if String.eqb interval "1day" then
    let total_days := td_days total_duration in
    let trading_days := PrimFloat.div (float_of_int (total_days * 5)) (float_of_int 7) in
    int_of_float trading_days
  else
    let total_days :=
      PrimFloat.add (float_of_int (td_days total_duration))
        (PrimFloat.div (float_of_int (td_seconds total_duration)) (float_of_int 86400)) in
    let trading_days :=
      PrimFloat.div (PrimFloat.mul total_days (float_of_int 5)) (float_of_int 7) in
    let total_market_seconds :=
      PrimFloat.mul trading_days (float_of_int market_seconds_per_day) in
    int_of_float
      (PrimFloat.div total_market_seconds (float_of_int (interval_seconds interval))).

(** A date argument of [get_data]: [None] or an empty text, which are falsy,
    or a text, kept as what [datetime.fromisoformat] makes of it ([None]
    when it raises [ValueError]). *)
Inductive date_argument :=
| NoDate
| DateText (parsed : option datetime).

(** The local names of [get_data].  The statement [from datetime import
    datetime] in the body of the function makes [datetime] a local name of
    the whole function: it is unbound when the function is entered and bound
    by that statement. *)
Record frame := { local_datetime : bool }.

Definition entry_frame : frame := {| local_datetime := false |}.
Definition import_datetime (f : frame) : frame := {| local_datetime := true |}.

(** Reading the local name [datetime]. *)
Definition load_datetime (f : frame) : py_exception + unit :=
  if local_datetime f then inr tt else inl (UnboundLocalError "datetime").

(** What [get_data] does with a request: it hands the range to
    [_get_chunked_data], it hands it to [_get_single_data], or it returns
    [None] from its [except Exception] clause. *)
Inductive get_data_result :=
| Chunked (start_dt end_dt : datetime)
| SingleRequest (from_date to_date : option datetime)
| ReturnsNone (e : py_exception).

(** The text that [strftime("%Y-%m-%dT%H:%M:%S.000Z")] makes of a naive
    datetime, as what [datetime.fromisoformat] reads in it after the
    replacement of [Z]: the same reading of the clock without its
    microseconds, at offset zero. *)
Definition strftime_utc (dt : datetime) : datetime :=
  {| clock := clock dt / microseconds_per_second * microseconds_per_second;
     utcoffset := Some 0 |}.

Definition get_data (interval : string) (days : Z) (from_date to_date : date_argument)
    (now : datetime) : get_data_result :=
  let f := entry_frame in
  (* [if not from_date or not to_date:] *)
  let dates : py_exception + (option datetime * option datetime) :=
    match from_date, to_date with
    | DateText from_text, DateText to_text => inr (from_text, to_text)
    | _, _ =>
        (* [end_date = datetime.now()] reads the local name [datetime] *)
        match load_datetime f with
        | inl e => inl e
        | inr _ =>
            let end_date := now in
            match dt_add end_date (- timedelta_of_days days) with
            | inl e => inl e
            | inr start_date =>
                inr (Some (strftime_utc start_date), Some (strftime_utc end_date))
            end
        end
    end in
  match dates with
  | inl e => ReturnsNone e
  | inr (from_text, to_text) =>
      (* [from datetime import datetime] *)
      let f := import_datetime f in
      match from_text, to_text with
      | Some start_dt, Some end_dt =>
          match dt_sub end_dt start_dt with
          | inl e => ReturnsNone e
          | inr total_duration =>
              match _estimate_candles interval total_duration with
              | inr estimated_candles =>
                  if 950 <? estimated_candles then Chunked start_dt end_dt
                  else SingleRequest from_text to_text
              | inl e => ReturnsNone e
              end
          end
      | _, _ => ReturnsNone ValueError
      end
  end.

(** ** Further notions for the merge stage *)

(** The timestamp that the dedupe loop reads off a candle: its [datetime]
    when that is there and truthy. *)
Definition timestamp_of (candle : Candle) : option string :=
  match candle !! "datetime" with
  | Some dt => if String.eqb dt "" then None else Some dt
  | None => None
  end.

(** The non-empty timestamps that occur in a list of candles. *)
Definition timestamps (all_data : list Candle) : gset string :=
  list_to_set (omap timestamp_of all_data).

(** ** Further notions for the registry *)

(** The job that an event addresses; [create_job] addresses none of the
    jobs that exist. *)
Definition event_job (ev : event) : option nat :=
  match ev with
  | EvCreateJob _ _ _ _ _ _ => None
  | EvStartJob job_id _ | EvCancelJob job_id | EvResume job_id => Some job_id
  end.

(** The calls that the persistence collaborator received about a job. *)
Definition calls_about (job_id : nat) (db : list db_call) : list db_call :=
  filter (fun c => db_call_id c = job_id) db.

(** A task that will never run its executor: it was cancelled before its
    first step, or it has ended that way. *)
Definition never_runs (t : Task) : Prop :=
  coro t = CoDone \/ exists env, coro t = CoCreated env /\ must_cancel t = true.

(** A job whose executor was cancelled before its first step: the entry of
    the task stays in [active_jobs]. *)
Record stuck_inv (id : nat) (m : Manager) : Prop := {
  stuck_manager : manager_inv m;
  stuck_task : exists t, active_jobs m !! id = Some t /\ never_runs t;
  stuck_status : job_status m id = Some CANCELLED
}.

(** A job has an active executor when [active_jobs] holds a task for it
    that has not finished. *)
Definition active_executor (m : Manager) (job_id : nat) : Prop :=
  exists t, active_jobs m !! job_id = Some t /\ coro t <> CoDone.

(** A job is created, started and cancelled at once; then the event loop
    runs its task, which ends without a step of the executor. *)
Definition cancelled_before_first_step : list event :=
  [one_day_job; EvStartJob 0 all_chunks_answer; EvCancelJob 0; EvResume 0].

(** A task that has not been asked to cancel and has its final status
    update still before it. *)
Definition live_task (t : Task) : Prop :=
  must_cancel t = false /\
  ((exists env, coro t = CoCreated env) \/
   (exists env rest, coro t = CoSuspended env rest /\ terminal_count rest = 1%nat)).

(** Every RUNNING job has such a task. *)
Definition running_inv (m : Manager) : Prop :=
  forall id job, jobs m !! id = Some job -> status job = RUNNING ->
    exists t, active_jobs m !! id = Some t /\ live_task t.

(** What the record of a job satisfies at all times. *)
Record job_consistent (job : HistoricalDataJob) : Prop := {
  completed_has_result : status job = COMPLETED -> is_Some (result_data job);
  failed_has_error : status job = FAILED -> is_Some (error_message job);
  current_chunk_unused : current_chunk (progress job) = 0%nat;
  candles_fetched_is_result_count : candles_fetched (progress job) = result_count job
}.

(** ** Further notions for the executor *)

(** Actions that leave everything but the percentage, the message and the
    candle count of the progress as it is. *)
Definition progress_only (a : action) : Prop :=
  match a with
  | AProgress _ _ | AGather | ASleep => True
  | _ => False
  end.

(** ** The sequential path of [HistoricalDataManager] ([managers.py],
       lines 322-474) *)

Module HistoricalDataManager.

(** [_calculate_chunk_duration] of [managers.py] (lines 322-344). *)
Definition _calculate_chunk_duration (interval : string) : timedelta :=
  let safe_candles := 950 in
  if String.eqb interval "1second" then timedelta_of_seconds safe_candles
  else if String.eqb interval "1minute" then timedelta_of_days 3
  else if String.eqb interval "5minute" then timedelta_of_days 15
  else if String.eqb interval "30minute" then timedelta_of_days 90
  else if String.eqb interval "1day" then timedelta_of_days 950
  else timedelta_of_days 30.

(** The parameters of [_get_single_data] that [_get_chunked_data] passes by
    position. *)
Definition single_data_parameters : list string :=
  ["self"; "symbol"; "exchange"; "interval"; "from_date"; "to_date"].

(** How the [while] loop of [_get_chunked_data] is left: at its end, with
    [all_data] and [chunk_num], or by an exception.  [requested] lists the
    ranges that were requested, in order. *)
Inductive loop_end :=
| LoopEnds (all_data : list Candle) (chunk_num : nat) (requested : list chunk)
| LoopRaises (e : job_error) (requested : list chunk).

(** The loop, entered at [current_start].  [client k] is what the awaited
    [_get_single_data] returns for the request number [k], counted from 0:
    a response or [None]; it raises nothing, since its body is one [try]
    statement that turns every exception into [None].  What can raise here
    is the arithmetic of the dates and the call itself, when the extra
    parameters [kwargs] carry the name of one of its parameters.
    [chunk_num] counts from 1 as in the source.  The chunk duration is
    computed once before the loop and is a function of the interval [ivl];
    it is positive, which is why the loop ends. *)
Equations? chunked_loop (client : nat -> option response) (ivl : string)
    (kwargs : list (string * string))
    (end_dt current_start : datetime) (all_data : list Candle) (chunk_num : nat)
    (requested : list chunk) : loop_end
  by wf (Z.to_nat (ceil_div (instant end_dt - instant current_start)
                     (_calculate_chunk_duration ivl))) lt :=
  chunked_loop client ivl kwargs end_dt current_start all_data chunk_num requested
    with inspect (dt_lt current_start end_dt) := {
    | exist _ (inl exn) _ := LoopRaises (DateArithmetic exn) requested;
    | exist _ (inr false) _ := LoopEnds all_data chunk_num requested;
    | exist _ (inr true) Hlt
        with inspect (dt_add current_start (_calculate_chunk_duration ivl)) := {
        | exist _ (inl exn) _ := LoopRaises (DateArithmetic exn) requested;
        | exist _ (inr next) Hadd with inspect (dt_min next end_dt) := {
            | exist _ (inl exn) _ := LoopRaises (DateArithmetic exn) requested;
            | exist _ (inr current_end) Hmin
                with multiple_values single_data_parameters kwargs := {
                | Some name := LoopRaises (MultipleValuesForArgument name) requested;
                | None :=
                    let chunk_response := client (chunk_num - 1)%nat in
                    chunked_loop client ivl kwargs end_dt current_end
                      (all_data ++ chunk_data_of chunk_response) (S chunk_num)
                      (requested ++ [(current_start, current_end)]) } } } }.
Proof.
  assert (Hd : 0 < _calculate_chunk_duration ivl).
  { unfold _calculate_chunk_duration, timedelta_of_seconds, timedelta_of_days.
    repeat (case (String.eqb ivl _)); reflexivity. }
  set (chunk_duration := _calculate_chunk_duration ivl) in *.
  cbv beta in Hlt, Hadd, Hmin. unfold dt_min, dt_lt in Hmin. unfold dt_lt in Hlt.
  unfold dt_add in Hadd.
  destruct (bool_decide (aware current_start = aware end_dt)); [| discriminate].
  injection Hlt as Hlt. apply Z.ltb_lt in Hlt.
  destruct (bool_decide (0 <= clock current_start + chunk_duration <= datetime_max));
    [| discriminate].
  injection Hadd as <-.
  destruct (bool_decide _); [| discriminate].
  assert (Hnext : instant (shifted current_start chunk_duration)
                  = instant current_start + chunk_duration) by (unfold instant; simpl; lia).
  rewrite Hnext in Hmin.
  assert (Hi : instant current_end
               = Z.min (instant current_start + chunk_duration) (instant end_dt)).
  { destruct (Z.ltb_spec (instant end_dt) (instant current_start + chunk_duration));
      injection Hmin as <-; [| rewrite Hnext]; lia. }
  rewrite Hi. unfold ceil_div.
  set (a := instant end_dt - instant current_start) in *.
  replace (instant end_dt - Z.min (instant current_start + chunk_duration) (instant end_dt))
    with (a - Z.min chunk_duration a) by lia.
  assert (Hstep : (a + chunk_duration - 1) / chunk_duration
                  = 1 + (a - Z.min chunk_duration a + chunk_duration - 1) / chunk_duration).
  { destruct (Z.le_gt_cases chunk_duration a).
    - rewrite Z.min_l by lia.
      replace (a + chunk_duration - 1)
        with ((a - chunk_duration + chunk_duration - 1) + 1 * chunk_duration) by lia.
      rewrite Z.div_add by lia. lia.
    - rewrite Z.min_r by lia.
      replace (a - a + chunk_duration - 1) with (chunk_duration - 1) by lia.
      rewrite (Z.div_small (chunk_duration - 1)) by lia.
      replace (a + chunk_duration - 1) with ((a - 1) + 1 * chunk_duration) by lia.
      rewrite Z.div_add by lia. rewrite Z.div_small by lia. lia. }
  assert (0 <= (a - Z.min chunk_duration a + chunk_duration - 1) / chunk_duration)
    by (apply Z.div_pos; lia).
  lia.
Qed.

(** The text of the ['Error'] entry of the answer,
    [f"Chunked fetch failed: {str(e)}"]. *)
Inductive error_text := ChunkedFetchFailed (e : job_error).

(** The dict that [_get_chunked_data] returns; the answer of the [except]
    clause has no ['chunks_fetched']. *)
Record chunked_response := {
  Success : list Candle;
  Status : Z;
  Error : option error_text;
  chunked : bool;
  chunks_fetched : option Z
}.

(** What [_get_chunked_data] answers after the loop: the statement
    [if all_data: ... else: ...] with the dedupe loop and the sort. *)
Definition answer_after_loop (all_data : list Candle) (chunk_num : nat) : chunked_response :=
  match all_data with
  | [] =>
      {| Success := []; Status := 200; Error := None; chunked := true;
         chunks_fetched := Some (Z.of_nat chunk_num - 1) |}
  | _ =>
      let '(_, unique_data) := foldl dedupe_step (∅, []) all_data in
      {| Success := sort_by_key unique_data; Status := 200; Error := None;
         chunked := true; chunks_fetched := Some (Z.of_nat chunk_num - 1) |}
  end.

(** [_get_chunked_data], together with the ranges that it requested. *)
Definition _get_chunked_data (client : nat -> option response) (interval : string)
    (start_dt end_dt : datetime) (kwargs : list (string * string))
  : chunked_response * list chunk :=
  match chunked_loop client interval kwargs end_dt start_dt [] 1 [] with
  | LoopEnds all_data chunk_num requested => (answer_after_loop all_data chunk_num, requested)
  | LoopRaises e requested =>
      ({| Success := []; Status := 500; Error := Some (ChunkedFetchFailed e); chunked := true;
          chunks_fetched := None |}, requested)
  end.

(** Membership of a text in a list of texts, [x in [...]]. *)
Definition is_in (x : string) (l : list string) : bool := bool_decide (x ∈ l).

(** The parameters that [_get_single_data] (lines 428-474) hands to the API
    client.  A value of the dict is a text or [None]; the extra parameters of
    the callers of this code are texts. *)
Definition _get_single_data_params (symbol : option string) (exchange interval : string)
    (from_date to_date : option string) (kwargs : gmap string string)
  : gmap string (option string) :=
  let params : gmap string (option string) :=
    {[ "interval" := Some interval; "from_date" := from_date; "to_date" := to_date;
       "stock_code" := symbol; "exchange_code" := Some exchange ]} in
  if is_in exchange ["NFO"; "BFO"] then
    let params :=
      match kwargs !! "product_type" with
      | Some product_type =>
          if is_in product_type ["options"; "futures"]
          then <["product_type" := Some product_type]> params
          else
            match kwargs !! "right" with
            | Some right_ =>
                if is_in right_ ["CE"; "PE"; "call"; "put"]
                then <["product_type" := Some "options"]> params
                else <["product_type" := Some "futures"]> params
            | None => <["product_type" := Some "futures"]> params
            end
      | None =>
          match kwargs !! "right" with
          | Some right_ =>
              if is_in right_ ["CE"; "PE"; "call"; "put"]
              then <["product_type" := Some "options"]> params
              else <["product_type" := Some "futures"]> params
          | None => <["product_type" := Some "futures"]> params
          end
      end in
    let params :=
      match kwargs !! "expiry_date" with
      | Some expiry_date => <["expiry_date" := Some expiry_date]> params
      | None => params
      end in
    let params :=
      match kwargs !! "strike_price" with
      | Some strike_price => <["strike_price" := Some strike_price]> params
      | None => params
      end in
    match kwargs !! "right" with
    | Some right_ =>
        if is_in right_ ["CE"; "call"] then <["right" := Some "call"]> params
        else if is_in right_ ["PE"; "put"] then <["right" := Some "put"]> params
        else <["right" := Some "others"]> params
    | None => params
    end
  else params.

End HistoricalDataManager.

(** ** [TradingSystem.get_historical_data] ([core.py], lines 275-336) *)

Module TradingSystem.

(** Truthiness of a text or [None]. *)
Definition truthy_text (v : option string) : bool :=
  match v with
  | Some s => negb (String.eqb s "")
  | None => false
  end.

(** The keyword arguments with which [get_historical_data] calls
    [self.historical.get_data].  [days_range] is the pair of texts that the
    [days] branch makes of the clock and of the value of [days]; of the
    entry [days] itself only the presence is read here. *)
Definition get_historical_data_params (kwargs : gmap string string)
    (days_range : string * string) : gmap string (option string) :=
  let symbol := kwargs !! "stock_code" in
  let exchange := default "NSE" (kwargs !! "exchange_code") in
  let interval := default "1day" (kwargs !! "interval") in
  let from_date := kwargs !! "from_date" in
  let to_date := kwargs !! "to_date" in
  let '(from_date, to_date) :=
    if bool_decide (is_Some (kwargs !! "days")) && negb (truthy_text from_date)
    then (Some days_range.1, Some days_range.2)
    else (from_date, to_date) in
  let params : gmap string (option string) :=
    {[ "symbol" := symbol; "exchange" := Some exchange; "interval" := Some interval;
       "from_date" := from_date; "to_date" := to_date ]} in
  if HistoricalDataManager.is_in exchange ["NFO"; "BFO"] then
    let params :=
      match kwargs !! "product_type" with
      | Some product_type =>
          if HistoricalDataManager.is_in product_type ["options"; "futures"]
          then <["product_type" := Some product_type]> params
          else
            match kwargs !! "right" with
            | Some right_ =>
                if HistoricalDataManager.is_in right_ ["CE"; "PE"; "call"; "put"]
                then <["product_type" := Some "options"]> params
                else <["product_type" := Some "futures"]> params
            | None => <["product_type" := Some "futures"]> params
            end
      | None =>
          match kwargs !! "right" with
          | Some right_ =>
              if HistoricalDataManager.is_in right_ ["CE"; "PE"; "call"; "put"]
              then <["product_type" := Some "options"]> params
              else <["product_type" := Some "futures"]> params
          | None => <["product_type" := Some "futures"]> params
          end
      end in
    let params :=
      match kwargs !! "expiry_date" with
      | Some expiry_date => <["expiry_date" := Some expiry_date]> params
      | None => params
      end in
    let params :=
      match kwargs !! "strike_price" with
      | Some strike_price => <["strike_price" := Some strike_price]> params
      | None => params
      end in
    match kwargs !! "right" with
    | Some right_ =>
        if HistoricalDataManager.is_in right_ ["CE"; "call"] then <["right" := Some "call"]> params
        else if HistoricalDataManager.is_in right_ ["PE"; "put"]
             then <["right" := Some "put"]> params
             else <["right" := Some "others"]> params
    | None => params
    end
  else params.

(** The call [self.historical.get_data( **params)]: the five named
    parameters of [get_data] are bound from the dict, what is left of it
    becomes the [kwargs] of [get_data], which hands them on to
    [_get_single_data].  A value [None] among them does not occur: the
    derivative parameters are texts. *)
Definition get_data_kwargs (params : gmap string (option string)) : gmap string string :=
  omap id (delete "symbol" (delete "exchange" (delete "interval"
             (delete "from_date" (delete "to_date" params))))).

(** The parameters that reach the API client when a request goes through
    [get_historical_data], [get_data] and [_get_single_data], for the range
    that [get_data] asks for: the whole range of the request when it does not
    chunk, one chunk of it when it does. *)
Definition api_params (kwargs : gmap string string) (days_range : string * string)
    (from_date to_date : option string) : gmap string (option string) :=
  let params := get_historical_data_params kwargs days_range in
  HistoricalDataManager._get_single_data_params
    (default None (params !! "symbol"))
    (default "" (default None (params !! "exchange")))
    (default "" (default None (params !! "interval")))
    from_date to_date
    (get_data_kwargs params).

(** A date text as [get_data] receives it: [None] and the empty text are
    falsy; [parse] stands for [datetime.fromisoformat] after the replacement
    of the suffix [Z]. *)
Definition date_argument_of (parse : string -> option datetime) (text : option string)
  : date_argument :=
  match text with
  | Some s => if String.eqb s "" then NoDate else DateText (parse s)
  | None => NoDate
  end.

(** What [get_data] decides for a request that comes through
    [get_historical_data].  The dict that is handed on has no entry [days],
    so that [get_data] sees its default of 30. *)
Definition get_historical_data (parse : string -> option datetime)
    (kwargs : gmap string string) (days_range : string * string) (now : datetime)
  : get_data_result :=
  let params := get_historical_data_params kwargs days_range in
  get_data (default "" (default None (params !! "interval"))) 30
    (date_argument_of parse (default None (params !! "from_date")))
    (date_argument_of parse (default None (params !! "to_date")))
    now.

End TradingSystem.

(** ** The job endpoint of the server ([server.py], lines 1458-1506) *)

Record HistoricalJobRequest := {
  req_product_type : option string;
  req_expiry_date : option string;
  req_strike_price : option string;
  req_right : option string
}.

(** The [kwargs] that [create_historical_job] builds for [create_job]: a
    field of the request is handed on when it is truthy.  The dict starts
    empty and every key is set at most once, so that each assignment puts its
    entry behind the others. *)
Definition create_historical_job_kwargs (request : HistoricalJobRequest)
  : list (string * string) :=
  let kwargs : list (string * string) := [] in
  let kwargs :=
    match req_product_type request with
    | Some v => if negb (String.eqb v "") then kwargs ++ [("product_type", v)] else kwargs
    | None => kwargs
    end in
  let kwargs :=
    match req_expiry_date request with
    | Some v => if negb (String.eqb v "") then kwargs ++ [("expiry_date", v)] else kwargs
    | None => kwargs
    end in
  let kwargs :=
    match req_strike_price request with
    | Some v => if negb (String.eqb v "") then kwargs ++ [("strike_price", v)] else kwargs
    | None => kwargs
    end in
  match req_right request with
  | Some v => if negb (String.eqb v "") then kwargs ++ [("right", v)] else kwargs
  | None => kwargs
  end.

(** ** Notions for the request parameters *)

(** The block [if exchange in ['NFO', 'BFO']: ...], which
    [_get_single_data] and [get_historical_data] share word for word, as a
    function of the four extra parameters that it reads. *)
Definition derivative_block (product_type right_ expiry_date strike_price : option string)
    (params : gmap string (option string)) : gmap string (option string) :=
  let params :=
    match product_type with
    | Some product_type =>
        if HistoricalDataManager.is_in product_type ["options"; "futures"]
        then <["product_type" := Some product_type]> params
        else
          match right_ with
          | Some right_ =>
              if HistoricalDataManager.is_in right_ ["CE"; "PE"; "call"; "put"]
              then <["product_type" := Some "options"]> params
              else <["product_type" := Some "futures"]> params
          | None => <["product_type" := Some "futures"]> params
          end
    | None =>
        match right_ with
        | Some right_ =>
            if HistoricalDataManager.is_in right_ ["CE"; "PE"; "call"; "put"]
            then <["product_type" := Some "options"]> params
            else <["product_type" := Some "futures"]> params
        | None => <["product_type" := Some "futures"]> params
        end
    end in
  let params :=
    match expiry_date with
    | Some expiry_date => <["expiry_date" := Some expiry_date]> params
    | None => params
    end in
  let params :=
    match strike_price with
    | Some strike_price => <["strike_price" := Some strike_price]> params
    | None => params
    end in
  match right_ with
  | Some right_ =>
      if HistoricalDataManager.is_in right_ ["CE"; "call"] then <["right" := Some "call"]> params
      else if HistoricalDataManager.is_in right_ ["PE"; "put"]
           then <["right" := Some "put"]> params
           else <["right" := Some "others"]> params
  | None => params
  end.

(** The product type that the block chooses, and the text that it sends
    for a right. *)
Definition chosen_product_type (product_type right_ : option string) : string :=
  match product_type, right_ with
  | Some product_type, _ =>
      if HistoricalDataManager.is_in product_type ["options"; "futures"] then product_type
      else match right_ with
           | Some right_ =>
               if HistoricalDataManager.is_in right_ ["CE"; "PE"; "call"; "put"]
               then "options" else "futures"
           | None => "futures"
           end
  | None, Some right_ =>
      if HistoricalDataManager.is_in right_ ["CE"; "PE"; "call"; "put"]
      then "options" else "futures"
  | None, None => "futures"
  end.

Definition api_right (right_ : string) : string :=
  if HistoricalDataManager.is_in right_ ["CE"; "call"] then "call"
  else if HistoricalDataManager.is_in right_ ["PE"; "put"] then "put"
  else "others".

(** The dates with which [get_historical_data] goes on. *)
Definition core_dates (kwargs : gmap string string) (days_range : string * string)
  : option string * option string :=
  if bool_decide (is_Some (kwargs !! "days")) && negb (TradingSystem.truthy_text (kwargs !! "from_date"))
  then (Some days_range.1, Some days_range.2)
  else (kwargs !! "from_date", kwargs !! "to_date").

(** ** Order validation ([managers.py], lines 18-66) *)

Module OrderManager.

(** The values of an order: [None], a text, an integer or a float. *)
Inductive pyvalue :=
| PNone
| PStr (s : string)
| PInt (n : Z)
| PFloat (x : float).

(** [v in [...]] for a list of texts. *)
Definition is_in (v : pyvalue) (l : list string) : bool :=
  match v with
  | PStr s => bool_decide (s ∈ l)
  | _ => false
  end.

(** [v == 'text'] *)
Definition is_text (v : pyvalue) (text : string) : bool :=
  match v with
  | PStr s => String.eqb s text
  | _ => false
  end.

(** [not v]: [None], the empty text and the numbers that equal zero are
    falsy; a float NaN is not. *)
Definition py_not (v : pyvalue) : bool :=
  match v with
  | PNone => true
  | PStr s => String.eqb s ""
  | PInt n => n =? 0
  | PFloat x => PrimFloat.eqb x PrimFloat.zero
  end.

(** [v <= 0]; [None] when the comparison raises [TypeError]. *)
Definition le_zero (v : pyvalue) : option bool :=
  match v with
  | PInt n => Some (n <=? 0)
  | PFloat x => Some (PrimFloat.leb x PrimFloat.zero)
  | PNone | PStr _ => None
  end.

(** How [validate_order] is left. *)
Inductive result :=
| ReturnsNone
| ReturnsParams
| RaisesTypeError.

Definition required_fields : list string :=
  ["stock_code"; "exchange_code"; "action"; "order_type"; "quantity"].

Definition valid_products : list string := ["cash"; "margin"; "futures"; "options"].

(** [order_params[key]] for a key that is there. *)
Definition item (order_params : gmap string pyvalue) (key : string) : pyvalue :=
  default PNone (order_params !! key).

(** [validate_order] works on the dict of its caller: the first component
    is that dict when the function is left, the second one says how it is
    left.  When it returns the parameters, it returns that same dict. *)
Definition validate_order (order_params : gmap string pyvalue)
  : gmap string pyvalue * result :=
  if negb (forallb (fun field => bool_decide (is_Some (order_params !! field))) required_fields)
  then (order_params, ReturnsNone)
  else
    let checked : option (gmap string pyvalue) :=
      match order_params !! "product" with
      | None =>
          if is_in (item order_params "exchange_code") ["NFO"; "BFO"]
          then Some (<["product" := PStr "futures"]> order_params)
          else Some (<["product" := PStr "cash"]> order_params)
      | Some product =>
          if negb (is_in product valid_products) then None else Some order_params
      end in
    match checked with
    | None => (order_params, ReturnsNone)
    | Some order_params =>
        if negb (is_in (item order_params "order_type") ["limit"; "market"])
        then (order_params, ReturnsNone)
        else if negb (is_in (item order_params "action") ["buy"; "sell"])
        then (order_params, ReturnsNone)
        else if is_text (item order_params "order_type") "market"
        then (<["price" := PInt 0]> order_params, ReturnsParams)
        else if is_text (item order_params "order_type") "limit"
        then
          let price := default (PInt 0) (order_params !! "price") in
          if py_not price then (order_params, ReturnsNone)
          else
            match le_zero price with
            | None => (order_params, RaisesTypeError)
            | Some true => (order_params, ReturnsNone)
            | Some false => (order_params, ReturnsParams)
            end
        else (order_params, ReturnsParams)
    end.

(** The prices with which a limit order passes: a number above zero, and
    also a float NaN, which is neither falsy nor [<= 0]. *)
Definition limit_price_passes (price : pyvalue) : Prop :=
  match price with
  | PInt n => 0 < n
  | PFloat x => PrimFloat.ltb PrimFloat.zero x = true \/ PrimFloat.is_nan x = true
  | PNone | PStr _ => False
  end.

(** What an order satisfies when it has passed. *)
Record validated (order_params : gmap string pyvalue) : Prop := {
  has_required_fields : forall field, field ∈ required_fields -> is_Some (order_params !! field);
  has_valid_product :
    exists product, order_params !! "product" = Some (PStr product) /\ product ∈ valid_products;
  has_valid_action :
    order_params !! "action" = Some (PStr "buy") \/ order_params !! "action" = Some (PStr "sell");
  has_valid_price :
    (order_params !! "order_type" = Some (PStr "market") /\
     order_params !! "price" = Some (PInt 0)) \/
    (order_params !! "order_type" = Some (PStr "limit") /\
     exists price, order_params !! "price" = Some price /\ limit_price_passes price)
}.

End OrderManager.

(** * Properties *)

(** ** Chunk planner *)

Lemma ceil_div_zero d : 0 < d -> ceil_div 0 d = 0.
Proof. intros Hd. unfold ceil_div. apply Z.div_small. lia. Qed.

Lemma ceil_div_step a d : 0 < d -> 0 < a -> ceil_div a d = 1 + ceil_div (a - Z.min d a) d.
Proof.
  intros Hd Ha. unfold ceil_div.
  destruct (Z.le_gt_cases d a) as [Hle | Hgt].
  - rewrite Z.min_l by lia.
    replace (a + d - 1) with ((a - d + d - 1) + 1 * d) by lia.
    rewrite Z.div_add by lia. lia.
  - rewrite Z.min_r by lia.
    replace (a - a + d - 1) with (d - 1) by lia.
    rewrite (Z.div_small (d - 1) d) by lia.
    replace (a + d - 1) with ((a - 1) + 1 * d) by lia.
    rewrite Z.div_add by lia. rewrite Z.div_small by lia. lia.
Qed.

Lemma ceil_div_nonneg a d : 0 < d -> 0 <= a -> 0 <= ceil_div a d.
Proof. intros Hd Ha. unfold ceil_div. apply Z.div_pos; lia. Qed.

Lemma chunk_duration_pos (interval : string) : 0 < _calculate_chunk_duration interval.
Proof.
  unfold _calculate_chunk_duration, timedelta_of_seconds, timedelta_of_days.
  repeat (case (String.eqb interval _)); reflexivity.
Qed.

(** *** The arithmetic of the dates *)

Lemma dt_lt_comparable a b : aware a = aware b -> dt_lt a b = inr (instant a <? instant b).
Proof. intros H. unfold dt_lt. now rewrite bool_decide_eq_true_2. Qed.

Lemma dt_lt_mixed a b : aware a <> aware b -> dt_lt a b = inl TypeError.
Proof. intros H. unfold dt_lt. now rewrite bool_decide_eq_false_2. Qed.

Lemma dt_lt_true a b : dt_lt a b = inr true <-> aware a = aware b /\ instant a < instant b.
Proof.
  unfold dt_lt. case_bool_decide as Haw.
  - split.
    + intros H. injection H as H. apply Z.ltb_lt in H. auto.
    + intros [_ H]. apply Z.ltb_lt in H. now rewrite H.
  - split; [discriminate | tauto].
Qed.

Lemma dt_lt_false a b : dt_lt a b = inr false <-> aware a = aware b /\ instant b <= instant a.
Proof.
  unfold dt_lt. case_bool_decide as Haw.
  - split.
    + intros H. injection H as H. apply Z.ltb_ge in H. auto.
    + intros [_ H]. apply Z.ltb_ge in H. now rewrite H.
  - split; [discriminate | tauto].
Qed.

Lemma dt_lt_raises a b e : dt_lt a b = inl e <-> aware a <> aware b /\ e = TypeError.
Proof.
  unfold dt_lt. case_bool_decide as Haw.
  - split; [discriminate | tauto].
  - split; [intros H; injection H as <-; auto | intros [_ ->]; reflexivity].
Qed.

Lemma dt_add_inr a d :
  0 <= clock a + d <= datetime_max -> dt_add a d = inr (shifted a d).
Proof. intros H. unfold dt_add. now rewrite bool_decide_eq_true_2. Qed.

Lemma dt_add_overflow a d :
  ~ (0 <= clock a + d <= datetime_max) -> dt_add a d = inl OverflowError.
Proof. intros H. unfold dt_add. now rewrite bool_decide_eq_false_2. Qed.

Lemma dt_sub_comparable a b : aware a = aware b -> dt_sub a b = inr (instant a - instant b).
Proof. intros H. unfold dt_sub. now rewrite bool_decide_eq_true_2. Qed.

Lemma dt_sub_mixed a b : aware a <> aware b -> dt_sub a b = inl TypeError.
Proof. intros H. unfold dt_sub. now rewrite bool_decide_eq_false_2. Qed.

Lemma dt_min_comparable a b : aware a = aware b -> dt_min a b = inr (earlier a b).
Proof.
  intros H. unfold dt_min, earlier. rewrite dt_lt_comparable by done.
  now destruct (instant b <? instant a).
Qed.

Lemma aware_shifted a d : aware (shifted a d) = aware a.
Proof. reflexivity. Qed.

Lemma instant_shifted a d : instant (shifted a d) = instant a + d.
Proof. unfold instant. simpl. lia. Qed.

Lemma shifted_shifted a d d' : shifted (shifted a d) d' = shifted a (d + d').
Proof. unfold shifted. simpl. f_equal. lia. Qed.

Lemma shifted_0 a : shifted a 0 = a.
Proof. destruct a. unfold shifted. simpl. f_equal. lia. Qed.

Lemma instant_earlier a b : instant (earlier a b) = Z.min (instant a) (instant b).
Proof. unfold earlier. destruct (Z.ltb_spec (instant b) (instant a)); lia. Qed.

Lemma aware_earlier a b : aware a = aware b -> aware (earlier a b) = aware b.
Proof. intros H. unfold earlier. now destruct (instant b <? instant a). Qed.

Lemma same_offset_same_instant a b : utcoffset a = utcoffset b -> instant a = instant b -> a = b.
Proof.
  destruct a as [ca oa], b as [cb ob]. unfold instant. simpl. intros -> H. f_equal. lia.
Qed.

(** *** The loop of the planner *)

Lemma inspect_case {A B : Type} (x : A) (f : {y : A | x = y} -> B) (g : A -> B) :
  (forall y (H : x = y), f (exist _ y H) = g y) -> f (inspect x) = g x.
Proof. intros H. apply (H x eq_refl). Qed.

(** A case analysis on a value that the definition inspects: the equation
    between two functions of that value is proved for every value. *)
Ltac inspect_cases :=
  match goal with
  | |- ?lhs = ?rhs =>
      match lhs with
      | context [inspect ?x] =>
          let f := eval pattern (inspect x) in lhs in
          let g := eval pattern x in rhs in
          match f with
          | ?f' _ => match g with ?g' _ => refine (inspect_case x f' g' _) end
          end
      end
  end.

Ltac head_of t := match t with ?f _ => head_of f | _ => t end.

(** Unfolds the clause at the head of the left-hand side. *)
Ltac unfold_clause :=
  match goal with |- ?lhs = _ => let h := head_of lhs in unfold h end.

(** One turn of the loop. *)
Lemma generate_chunks_from_turn d e cur :
  0 < d ->
  generate_chunks_from d e cur =
    match dt_lt cur e with
    | inl exn => Some (inl exn)
    | inr false => Some (inr [])
    | inr true =>
        match dt_add cur d with
        | inl exn => Some (inl exn)
        | inr next =>
            match dt_min next e with
            | inl exn => Some (inl exn)
            | inr current_end =>
                chunks_append (cur, current_end) (generate_chunks_from d e current_end)
            end
        end
    end.
Proof.
  intros Hd. rewrite generate_chunks_from_equation_1.
  inspect_cases. intros [exn | [|]] Hlt; [reflexivity | | reflexivity].
  unfold_clause. unfold_clause. destruct (Z_lt_dec 0 d); [| lia].
  inspect_cases. intros [exn | next] Hadd; [reflexivity |].
  unfold_clause. inspect_cases. now intros [exn | current_end] Hmin.
Qed.

Lemma generate_chunks_from_mixed d e cur :
  0 < d -> aware cur <> aware e -> generate_chunks_from d e cur = Some (inl TypeError).
Proof.
  intros Hd H. rewrite generate_chunks_from_turn by done. now rewrite dt_lt_mixed.
Qed.

Lemma generate_chunks_from_done d e cur :
  0 < d -> aware cur = aware e -> instant e <= instant cur ->
  generate_chunks_from d e cur = Some (inr []).
Proof.
  intros Hd Haw H. rewrite generate_chunks_from_turn by done.
  now rewrite (proj2 (dt_lt_false cur e)).
Qed.

Lemma generate_chunks_from_step d e cur :
  0 < d -> aware cur = aware e -> instant cur < instant e ->
  0 <= clock cur + d <= datetime_max ->
  generate_chunks_from d e cur =
    chunks_append (cur, earlier (shifted cur d) e)
      (generate_chunks_from d e (earlier (shifted cur d) e)).
Proof.
  intros Hd Haw H Hfits. rewrite generate_chunks_from_turn by done.
  rewrite (proj2 (dt_lt_true cur e)) by done.
  rewrite dt_add_inr by done. now rewrite dt_min_comparable.
Qed.

Lemma generate_chunks_from_overflow d e cur :
  0 < d -> aware cur = aware e -> instant cur < instant e ->
  ~ (0 <= clock cur + d <= datetime_max) ->
  generate_chunks_from d e cur = Some (inl OverflowError).
Proof.
  intros Hd Haw H Hfits. rewrite generate_chunks_from_turn by done.
  rewrite (proj2 (dt_lt_true cur e)) by done. now rewrite dt_add_overflow.
Qed.

(** The end of a chunk that is followed by another turn of the loop. *)
Lemma earlier_before_end cur d e :
  instant (earlier (shifted cur d) e) < instant e -> earlier (shifted cur d) e = shifted cur d.
Proof.
  unfold earlier. rewrite instant_shifted.
  destruct (Z.ltb_spec (instant e) (instant cur + d)); [lia | reflexivity].
Qed.

(** With a positive chunk duration the loop returns chunks or raises. *)
Lemma generate_chunks_from_total d e :
  0 < d -> forall cur, is_Some (generate_chunks_from d e cur).
Proof.
  intros Hd cur. remember (Z.to_nat (instant e - instant cur)) as n eqn:Hn.
  revert cur Hn. induction n as [n IH] using lt_wf_ind. intros cur Hn.
  destruct (decide (aware cur = aware e)) as [Haw | Haw].
  2: { rewrite generate_chunks_from_mixed by done. eauto. }
  destruct (Z.le_gt_cases (instant e) (instant cur)) as [Hle | Hlt].
  { rewrite generate_chunks_from_done by done. eauto. }
  destruct (decide (0 <= clock cur + d <= datetime_max)) as [Hfits | Hfits].
  2: { rewrite generate_chunks_from_overflow by (done || lia). eauto. }
  rewrite generate_chunks_from_step by (done || lia).
  set (nxt := earlier (shifted cur d) e).
  assert (Hnxt : instant nxt = Z.min (instant cur + d) (instant e))
    by (unfold nxt; now rewrite instant_earlier, instant_shifted).
  destruct (IH (Z.to_nat (instant e - instant nxt)) ltac:(lia) nxt eq_refl) as [r ->].
  destruct r as [exn | cs]; simpl; eauto.
Qed.

(** The loop, entered not after [end_dt] at a point from which the chunk
    boundaries stay in the range of [datetime], returns a chain from its
    entry point to [end_dt] whose length is the rounded-up quotient. *)
Lemma generate_chunks_from_chain d e :
  0 < d -> forall cur,
  aware cur = aware e -> instant cur <= instant e ->
  (instant cur < instant e ->
   0 <= clock cur /\ clock cur + ceil_div (instant e - instant cur) d * d <= datetime_max) ->
  exists cs, generate_chunks_from d e cur = Some (inr cs) /\
    chained cur cs e /\
    Forall (fun c : chunk => instant c.2 - instant c.1 <= d /\ instant c.2 <= instant e) cs /\
    Z.of_nat (length cs) = ceil_div (instant e - instant cur) d /\
    (utcoffset cur = utcoffset e -> cs <> [] -> snd <$> last cs = Some e).
Proof.
  intros Hd cur. remember (Z.to_nat (instant e - instant cur)) as n eqn:Hn.
  revert cur Hn. induction n as [n IH] using lt_wf_ind. intros cur Hn Haw Hle Hfits.
  destruct (Z.eq_dec (instant cur) (instant e)) as [Heq | Hne].
  - exists []. rewrite generate_chunks_from_done by (done || lia).
    rewrite Heq, Z.sub_diag, ceil_div_zero by lia. simpl. repeat split; auto. done.
  - assert (Hlt : instant cur < instant e) by lia.
    destruct (Hfits Hlt) as [Hmin Hmax].
    pose proof (ceil_div_step (instant e - instant cur) d Hd ltac:(lia)) as Hstep.
    pose proof (ceil_div_nonneg (instant e - instant cur - Z.min d (instant e - instant cur)) d
                  Hd ltac:(lia)) as Hrest.
    assert (Hadd : 0 <= clock cur + d <= datetime_max) by nia.
    rewrite generate_chunks_from_step by done.
    set (nxt := earlier (shifted cur d) e).
    assert (Hnxt : instant nxt = Z.min (instant cur + d) (instant e))
      by (unfold nxt; now rewrite instant_earlier, instant_shifted).
    destruct (IH (Z.to_nat (instant e - instant nxt)) ltac:(lia) nxt eq_refl)
      as (cs & -> & Hch & Hall & Hlen & Hlast).
    + unfold nxt. now apply aware_earlier.
    + lia.
    + intros Hnlt. unfold nxt in *. rewrite (earlier_before_end _ _ _ Hnlt) in *.
      rewrite instant_shifted in *. simpl.
      replace (instant e - (instant cur + d))
        with (instant e - instant cur - Z.min d (instant e - instant cur)) by lia.
      split; [lia | nia].
    + exists ((cur, nxt) :: cs). simpl. repeat split; try lia; auto.
      * constructor; [simpl; lia | exact Hall].
      * rewrite Hstep.
        replace (instant e - instant cur - Z.min d (instant e - instant cur))
          with (instant e - instant nxt) by lia. lia.
      * intros Hoff _.
        assert (Hoff' : utcoffset nxt = utcoffset e).
        { unfold nxt, earlier. now destruct (instant e <? instant (shifted cur d)). }
        destruct cs as [| c cs'].
        -- simpl in *. f_equal. destruct Hch as [_ Hsame].
           now apply same_offset_same_instant.
        -- change (last ((cur, nxt) :: c :: cs')) with (last (c :: cs')).
           now apply Hlast.
Qed.

(** Entered at a point from which a chunk boundary leaves the range of
    [datetime], the loop raises [OverflowError]. *)
Lemma generate_chunks_from_raises d e :
  0 < d -> forall cur,
  aware cur = aware e -> instant cur < instant e -> 0 <= clock cur ->
  datetime_max < clock cur + ceil_div (instant e - instant cur) d * d ->
  generate_chunks_from d e cur = Some (inl OverflowError).
Proof.
  intros Hd cur. remember (Z.to_nat (instant e - instant cur)) as n eqn:Hn.
  revert cur Hn. induction n as [n IH] using lt_wf_ind. intros cur Hn Haw Hlt Hmin Hmax.
  destruct (decide (0 <= clock cur + d <= datetime_max)) as [Hadd | Hadd].
  2: { now apply generate_chunks_from_overflow. }
  pose proof (ceil_div_step (instant e - instant cur) d Hd ltac:(lia)) as Hstep.
  rewrite generate_chunks_from_step by done.
  set (nxt := earlier (shifted cur d) e).
  assert (Hnxt : instant nxt = Z.min (instant cur + d) (instant e))
    by (unfold nxt; now rewrite instant_earlier, instant_shifted).
  destruct (Z.le_gt_cases (instant e) (instant cur + d)) as [Hlast | Hmore].
  - (* the last chunk: its boundary is in the range *)
    rewrite Z.min_r in Hstep by lia.
    rewrite Z.sub_diag, ceil_div_zero in Hstep by lia. rewrite Hstep in Hmax. lia.
  - rewrite Z.min_l in Hstep by lia.
    assert (Hnlt : instant nxt < instant e) by lia.
    unfold nxt in *. rewrite (earlier_before_end _ _ _ Hnlt) in *.
    rewrite (IH (Z.to_nat (instant e - instant (shifted cur d))) ltac:(lia) _ eq_refl);
      [reflexivity | now rewrite aware_shifted | lia | simpl; lia |].
    rewrite instant_shifted. simpl.
    replace (instant e - (instant cur + d)) with (instant e - instant cur - d) by lia.
    rewrite Hstep in Hmax. lia.
Qed.

Lemma chained_le s cs e : chained s cs e -> instant s <= instant e.
Proof.
  revert s. induction cs as [| c cs IH]; simpl; intros s H; [destruct H; lia |].
  destruct H as (<- & Hlt & H). apply IH in H. lia.
Qed.

Lemma chained_head s cs e :
  chained s cs e -> instant s < instant e -> fst <$> head cs = Some s.
Proof.
  destruct cs as [| c cs]; simpl; [intros [_ H]; lia |]. intros (-> & _) _. reflexivity.
Qed.

Lemma chained_last s cs e :
  chained s cs e -> instant s < instant e ->
  exists c, last cs = Some c /\ same_time c.2 e.
Proof.
  revert s. induction cs as [| c cs IH]; simpl; intros s H Hlt; [destruct H; lia |].
  destruct H as (<- & Hc & H). destruct cs as [| c' cs'].
  - simpl in *. exists c. auto.
  - change (last (c :: c' :: cs')) with (last (c' :: cs')).
    apply (IH c.2); [exact H |]. apply chained_le in H as Hle.
    simpl in H. destruct H as (Hc' & ? & H'). apply chained_le in H'. rewrite <- Hc'. lia.
Qed.

Lemma chained_adjacent s cs e (i : nat) c c' :
  chained s cs e -> cs !! i = Some c -> cs !! S i = Some c' -> c.2 = c'.1.
Proof.
  revert s i. induction cs as [| c0 cs IH]; intros s i H Hi Hi'; [done |].
  destruct H as (_ & _ & H). destruct i as [| i]; simpl in *.
  - injection Hi as ->. destruct cs as [| c1 cs']; [done |].
    simpl in *. injection Hi' as ->. symmetry. tauto.
  - eapply IH; eauto.
Qed.

Lemma chained_lookup_bounds s cs e (i : nat) c :
  chained s cs e -> cs !! i = Some c ->
  instant s <= instant c.1 /\ instant c.1 < instant c.2 /\ instant c.2 <= instant e.
Proof.
  revert s i. induction cs as [| c0 cs IH]; intros s i H Hi; [done |].
  destruct H as (<- & Hlt & H). destruct i as [| i]; simpl in *.
  - injection Hi as ->. apply chained_le in H. lia.
  - destruct (IH _ _ H Hi). lia.
Qed.

Lemma chained_ordered s cs e (i j : nat) c c' :
  chained s cs e -> (i < j)%nat -> cs !! i = Some c -> cs !! j = Some c' ->
  instant c.1 < instant c.2 /\ instant c.2 <= instant c'.1.
Proof.
  revert s i j. induction cs as [| c0 cs IH]; intros s i j H Hij Hi Hj; [done |].
  destruct H as (<- & Hlt & H). destruct j as [| j]; [lia |].
  destruct i as [| i]; simpl in *.
  - injection Hi as ->. destruct (chained_lookup_bounds _ _ _ _ _ H Hj). lia.
  - apply (IH c0.2 i j); [exact H | lia | exact Hi | exact Hj].
Qed.

Lemma chained_Forall s cs e :
  chained s cs e -> Forall (fun c : chunk => instant c.1 < instant c.2) cs.
Proof.
  revert s. induction cs as [| c cs IH]; simpl; intros s H; constructor.
  - tauto.
  - apply (IH c.2). tauto.
Qed.

(** The planner cuts a non-empty range whose chunk boundaries stay in the
    range of [datetime], with any positive chunk duration. *)
Lemma generate_chunks_positive_duration (start_dt end_dt : datetime) (d : timedelta) :
  0 < d -> aware start_dt = aware end_dt -> instant start_dt < instant end_dt ->
  0 <= clock start_dt ->
  clock start_dt + ceil_div (instant end_dt - instant start_dt) d * d <= datetime_max ->
  exists chunks, _generate_chunks start_dt end_dt d = Some (inr chunks) /\
                 partitions chunks start_dt end_dt d.
Proof.
  intros Hd Haw Hlt Hmin Hmax. unfold _generate_chunks.
  destruct (generate_chunks_from_chain d end_dt Hd start_dt Haw ltac:(lia) ltac:(auto))
    as (cs & Heq & Hch & Hall & Hlen & Hlast).
  exists cs. split; [exact Heq |]. unfold partitions. repeat split.
  - eapply chained_head; eauto.
  - eapply chained_last; eauto.
  - intros Hoff. apply Hlast; [exact Hoff |]. intros ->. destruct Hch as [_ Hsame]. lia.
  - intros i c c'. eapply chained_adjacent; eauto.
  - eapply chained_ordered; eauto.
  - eapply chained_ordered; eauto.
  - apply chained_Forall in Hch. rewrite Forall_forall in *.
    intros c Hc. specialize (Hch c Hc). specialize (Hall c Hc). simpl in *. lia.
  - exact Hlen.
Qed.

(** A range that fits is planned. *)
Lemma range_fits_planned (start_dt end_dt : datetime) (d : timedelta) :
  0 < d -> range_fits start_dt end_dt d ->
  exists chunks, _generate_chunks start_dt end_dt d = Some (inr chunks).
Proof.
  intros Hd [Haw Hfits]. unfold _generate_chunks.
  destruct (Z.le_gt_cases (instant end_dt) (instant start_dt)) as [Hle | Hlt].
  - exists []. now apply generate_chunks_from_done.
  - destruct (generate_chunks_from_chain d end_dt Hd start_dt Haw ltac:(lia) Hfits)
      as (cs & Heq & _). eauto.
Qed.

(** What the planner does with every range, for a positive chunk duration
    and a start that a [datetime] can hold. *)
Lemma generate_chunks_cases (start_dt end_dt : datetime) (d : timedelta) :
  0 < d -> 0 <= clock start_dt ->
  (range_fits start_dt end_dt d ->
   exists chunks, _generate_chunks start_dt end_dt d = Some (inr chunks)) /\
  (aware start_dt <> aware end_dt ->
   _generate_chunks start_dt end_dt d = Some (inl TypeError)) /\
  (aware start_dt = aware end_dt -> instant start_dt < instant end_dt ->
   datetime_max < clock start_dt + ceil_div (instant end_dt - instant start_dt) d * d ->
   _generate_chunks start_dt end_dt d = Some (inl OverflowError)).
Proof.
  intros Hd Hmin. unfold _generate_chunks. repeat split.
  - now apply range_fits_planned.
  - intros Haw. now apply generate_chunks_from_mixed.
  - intros Haw Hlt Hmax. now apply generate_chunks_from_raises.
Qed.

(** C1, as amended.  For every [start_dt < end_dt] (which takes two dates
    that can be compared; the clock of a datetime never reads less than 0)
    and the chunk duration [d] of every interval: when
    the last chunk boundary that the loop computes, [start_dt + n * d] for
    [n = ceil((end_dt - start_dt) / d)], is not past [datetime.max],
    [_generate_chunks] returns a list of chunks in which each chunk ends
    where the next one starts, no two chunks overlap, the first chunk starts
    at [start_dt], the last one ends at [end_dt] (no chunk goes past it), and
    whose length is [n]; when that boundary is past [datetime.max], the
    planner raises [OverflowError]. *)
Theorem generate_chunks_partition_in_range (interval : string) (start_dt end_dt : datetime) :
  dt_lt start_dt end_dt = inr true ->
  0 <= clock start_dt ->
  let d := _calculate_chunk_duration interval in
  let n := ceil_div (instant end_dt - instant start_dt) d in
  (clock start_dt + n * d <= datetime_max ->
   exists chunks,
     _generate_chunks start_dt end_dt d = Some (inr chunks) /\
     partitions chunks start_dt end_dt d) /\
  (datetime_max < clock start_dt + n * d ->
   _generate_chunks start_dt end_dt d = Some (inl OverflowError)).
Proof.
  intros Hlt Hmin d n. apply dt_lt_true in Hlt as [Haw Hlt].
  pose proof (chunk_duration_pos interval) as Hd. split.
  - intros Hmax. now apply generate_chunks_positive_duration.
  - intros Hmax. now apply generate_chunks_from_raises.
Qed.

(** The nine-day one-minute request of the specification: three chunks of
    three days. *)
Lemma generate_chunks_partition_in_range_witness :
  dt_lt (naive 0) (naive (9 * microseconds_per_day)) = inr true /\
  exists chunks,
    _generate_chunks (naive 0) (naive (9 * microseconds_per_day))
      (_calculate_chunk_duration "1minute") = Some (inr chunks) /\
    partitions chunks (naive 0) (naive (9 * microseconds_per_day))
      (_calculate_chunk_duration "1minute").
Proof.
  split; [reflexivity |].
  apply (generate_chunks_partition_in_range "1minute" (naive 0)
           (naive (9 * microseconds_per_day))).
  - reflexivity.
  - simpl. lia.
  - vm_compute. discriminate.
Defined.

(** C1, as stated, fails.  The two days before the last microsecond that a
    [datetime] can hold are a range with [start_dt < end_dt]; for one-minute
    candles the loop adds three days to its start before it caps the sum at
    [end_dt], and the sum is past [datetime.max]: the planner raises and
    returns no chunks. *)
Lemma generate_chunks_overflows_at_datetime_max :
  let start_dt := naive (datetime_max - 2 * microseconds_per_day) in
  let end_dt := naive datetime_max in
  dt_lt start_dt end_dt = inr true /\
  _generate_chunks start_dt end_dt (_calculate_chunk_duration "1minute")
  = Some (inl OverflowError) /\
  ~ exists chunks,
      _generate_chunks start_dt end_dt (_calculate_chunk_duration "1minute")
      = Some (inr chunks) /\
      partitions chunks start_dt end_dt (_calculate_chunk_duration "1minute").
Proof.
  intros start_dt end_dt.
  assert (Hgen : _generate_chunks start_dt end_dt (_calculate_chunk_duration "1minute")
                 = Some (inl OverflowError)) by (vm_compute; reflexivity).
  split; [reflexivity |]. split; [exact Hgen |].
  intros (chunks & Heq & _). rewrite Hgen in Heq. discriminate.
Qed.

Example generate_chunks_nine_days :
  _generate_chunks (naive 0) (naive (9 * microseconds_per_day))
    (_calculate_chunk_duration "1minute")
  = Some (inr [ (naive 0, naive (3 * microseconds_per_day));
                (naive (3 * microseconds_per_day), naive (6 * microseconds_per_day));
                (naive (6 * microseconds_per_day), naive (9 * microseconds_per_day)) ]).
Proof. vm_compute. reflexivity. Qed.

(** ** Merge stage *)

Section StringOrder.

Lemma ascii_compare_refl (a : Ascii.ascii) : Ascii.compare a a = Eq.
Proof. unfold Ascii.compare. apply N.compare_refl. Qed.

Lemma string_compare_refl (s : string) : String.compare s s = Eq.
Proof. induction s as [| a s IH]; simpl; [reflexivity |]. now rewrite ascii_compare_refl. Qed.

Lemma ascii_compare_lt_trans (a b c : Ascii.ascii) :
  Ascii.compare a b = Lt -> Ascii.compare b c = Lt -> Ascii.compare a c = Lt.
Proof. unfold Ascii.compare. rewrite !N.compare_lt_iff. lia. Qed.

Lemma string_compare_lt_trans (s1 s2 s3 : string) :
  String.compare s1 s2 = Lt -> String.compare s2 s3 = Lt -> String.compare s1 s3 = Lt.
Proof.
  revert s2 s3. induction s1 as [| a s1 IH]; intros [| b s2] [| c s3]; simpl; try congruence.
  destruct (Ascii.compare a b) eqn:Hab; try congruence;
    destruct (Ascii.compare b c) eqn:Hbc; try congruence; intros H12 H23.
  - apply Ascii.compare_eq_iff in Hab, Hbc. subst. rewrite ascii_compare_refl. eauto.
  - apply Ascii.compare_eq_iff in Hab. subst. now rewrite Hbc.
  - apply Ascii.compare_eq_iff in Hbc. subst. now rewrite Hab.
  - now rewrite (ascii_compare_lt_trans a b c).
Qed.

Lemma ltb_irrefl (s : string) : String.ltb s s = false.
Proof. unfold String.ltb. now rewrite string_compare_refl. Qed.

Lemma ltb_trans (s1 s2 s3 : string) :
  String.ltb s1 s2 = true -> String.ltb s2 s3 = true -> String.ltb s1 s3 = true.
Proof.
  unfold String.ltb. intros H12 H23.
  destruct (String.compare s1 s2) eqn:E12; try discriminate.
  destruct (String.compare s2 s3) eqn:E23; try discriminate.
  now rewrite (string_compare_lt_trans s1 s2 s3).
Qed.

Lemma ltb_asym (s1 s2 : string) : String.ltb s1 s2 = true -> String.ltb s2 s1 = false.
Proof.
  intros H. destruct (String.ltb s2 s1) eqn:E; [| reflexivity].
  pose proof (ltb_trans _ _ _ H E) as Hc. rewrite ltb_irrefl in Hc. discriminate.
Qed.

Lemma ltb_total (s1 s2 : string) :
  String.ltb s1 s2 = false -> String.ltb s2 s1 = false -> s1 = s2.
Proof.
  unfold String.ltb. rewrite (String.compare_antisym s2 s1).
  destruct (String.compare s1 s2) eqn:E; simpl; try discriminate.
  intros _ _. now apply String.compare_eq_iff.
Qed.

(** [s1 <= s2], that is [not (s2 < s1)], is transitive. *)
Lemma not_ltb_trans (s1 s2 s3 : string) :
  String.ltb s2 s1 = false -> String.ltb s3 s2 = false -> String.ltb s3 s1 = false.
Proof.
  intros H21 H32. destruct (String.ltb s3 s1) eqn:E; [| reflexivity].
  destruct (String.ltb s1 s2) eqn:E12.
  - pose proof (ltb_trans _ _ _ E E12). congruence.
  - pose proof (ltb_total _ _ E12 H21). subst. congruence.
Qed.

End StringOrder.

Section Dedupe.

Implicit Types (seen : gset string) (l : list (gmap string string)) (c : gmap string string).

Lemma foldl_dedupe_acc seen (u : list (gmap string string)) l :
  foldl dedupe_step (seen, u) l =
    ((foldl dedupe_step (seen, []) l).1, u ++ (foldl dedupe_step (seen, []) l).2).
Proof.
  revert seen u. induction l as [| c l IH]; intros seen u; simpl.
  - now rewrite app_nil_r.
  - destruct (c !! "datetime") as [dt |]; [| apply IH].
    destruct (negb (String.eqb dt "") && bool_decide (dt ∉ seen)); [| apply IH].
    rewrite (IH _ (u ++ [c])), (IH _ ([] ++ [c])). simpl. now rewrite <- app_assoc.
Qed.

Lemma kept_nil seen : kept seen [] = [].
Proof. reflexivity. Qed.

Lemma kept_cons seen c l :
  kept seen (c :: l) =
    match c !! "datetime" with
    | Some dt =>
        if negb (String.eqb dt "") && bool_decide (dt ∉ seen)
        then c :: kept ({[dt]} ∪ seen) l
        else kept seen l
    | None => kept seen l
    end.
Proof.
  unfold kept. simpl. destruct (c !! "datetime") as [dt |]; [| reflexivity].
  destruct (negb (String.eqb dt "") && bool_decide (dt ∉ seen)); [| reflexivity].
  now rewrite foldl_dedupe_acc.
Qed.

Lemma not_elem_of_seen_add (dt d0 : string) seen :
  dt ∉ {[d0]} ∪ seen <-> dt <> d0 /\ dt ∉ seen.
Proof. rewrite elem_of_union, elem_of_singleton. tauto. Qed.

Lemma fresh_spec (dt : string) seen :
  negb (String.eqb dt "") && bool_decide (dt ∉ seen) = true <-> dt <> "" /\ dt ∉ seen.
Proof.
  rewrite andb_true_iff, negb_true_iff, bool_decide_eq_true.
  destruct (String.eqb_spec dt ""); intuition congruence.
Qed.

(** Which candles are kept: the first carriers of a non-empty timestamp that
    was not seen before. *)
Lemma kept_spec seen l c :
  c ∈ kept seen l <->
  exists (i : nat) dt,
    l !! i = Some c /\ c !! "datetime" = Some dt /\ dt <> "" /\ (dt ∉ seen) /\
    forall (j : nat) c', (j < i)%nat -> l !! j = Some c' -> c' !! "datetime" <> Some dt.
Proof.
  revert seen. induction l as [| c0 l IH]; intros seen.
  - rewrite kept_nil. split; [intros H; inversion H |]. intros (i & dt & H & _). done.
  - rewrite kept_cons. split.
    + intros Hin.
      assert (Hskip : c ∈ kept seen l -> (c0 !! "datetime" = None \/
                exists d0, c0 !! "datetime" = Some d0 /\ (d0 = "" \/ d0 ∈ seen)) ->
              exists (i : nat) dt,
                (c0 :: l) !! i = Some c /\ c !! "datetime" = Some dt /\ dt <> "" /\ (dt ∉ seen) /\
                forall (j : nat) c', (j < i)%nat -> (c0 :: l) !! j = Some c' ->
                                     c' !! "datetime" <> Some dt).
      { intros Hk Hc0. destruct (proj1 (IH _) Hk) as (i & dt & Hi & Hdt & Hne & Hns & Hfirst).
        exists (S i), dt. repeat split; auto.
        intros [| j] c' Hj Hc'; simpl in Hc'.
        - injection Hc' as <-. destruct Hc0 as [-> | (d0 & -> & [-> | Hd0])]; congruence.
        - apply (Hfirst j); [lia | exact Hc']. }
      destruct (c0 !! "datetime") as [d0 |] eqn:Hd0; [| apply Hskip; auto].
      destruct (negb (String.eqb d0 "") && bool_decide (d0 ∉ seen)) eqn:Hfresh.
      * apply fresh_spec in Hfresh as [Hne Hns].
        apply elem_of_cons in Hin as [-> | Hin].
        -- exists 0%nat, d0. repeat split; auto. intros j c' Hj. lia.
        -- destruct (proj1 (IH _) Hin) as (i & dt & Hi & Hdt & Hdne & Hdns & Hfirst).
           apply not_elem_of_seen_add in Hdns as [Hdd Hdns].
           exists (S i), dt. repeat split; auto.
           intros [| j] c' Hj Hc'; simpl in Hc'.
           ++ injection Hc' as <-. rewrite Hd0. intros [= ->]. contradiction.
           ++ apply (Hfirst j); [lia | exact Hc'].
      * apply Hskip; [exact Hin |]. right. exists d0. split; [reflexivity |].
        destruct (String.eqb_spec d0 ""); [now left | right].
        simpl in Hfresh. apply bool_decide_eq_false in Hfresh.
        destruct (decide (d0 ∈ seen)); tauto.
    + intros (i & dt & Hi & Hdt & Hne & Hns & Hfirst).
      destruct i as [| i]; simpl in Hi.
      * injection Hi as ->. rewrite Hdt.
        rewrite (proj2 (fresh_spec dt seen)) by auto. apply elem_of_cons. now left.
      * assert (Hc0 : c0 !! "datetime" <> Some dt) by (apply (Hfirst 0%nat); [lia | reflexivity]).
        assert (Htail : forall seen', dt ∉ seen' -> c ∈ kept seen' l).
        { intros seen' Hns'. apply IH. exists i, dt. repeat split; auto.
          intros j c' Hj Hc'. apply (Hfirst (S j)); [lia | exact Hc']. }
        destruct (c0 !! "datetime") as [d0 |]; [| auto].
        destruct (negb (String.eqb d0 "") && bool_decide (d0 ∉ seen)); [| auto].
        apply elem_of_cons. right. apply Htail.
        apply not_elem_of_seen_add. split; [congruence | exact Hns].
Qed.

Lemma kept_datetime seen l c :
  c ∈ kept seen l -> exists dt, c !! "datetime" = Some dt /\ dt <> "" /\ dt ∉ seen.
Proof. rewrite kept_spec. intros (i & dt & H). exists dt. tauto. Qed.

Lemma kept_NoDup seen l : NoDup ((fun c => c !! "datetime") <$> kept seen l).
Proof.
  revert seen. induction l as [| c0 l IH]; intros seen.
  - rewrite kept_nil. constructor.
  - rewrite kept_cons. destruct (c0 !! "datetime") as [d0 |] eqn:Hd0; [| apply IH].
    destruct (negb (String.eqb d0 "") && bool_decide (d0 ∉ seen)); [| apply IH].
    rewrite fmap_cons. constructor; [| apply IH].
    rewrite Hd0. intros Hin. apply list_elem_of_fmap in Hin as (c & Hc & Hin).
    apply kept_datetime in Hin as (dt & Hdt & _ & Hns). 
    apply not_elem_of_seen_add in Hns as [Hne _]. congruence.
Qed.

(** The loop keeps a list as it is when its timestamps are non-empty,
    pairwise distinct and not seen before. *)
Lemma kept_id seen l :
  (forall c, c ∈ l -> exists dt, c !! "datetime" = Some dt /\ dt <> "" /\ dt ∉ seen) ->
  NoDup ((fun c => c !! "datetime") <$> l) ->
  kept seen l = l.
Proof.
  revert seen. induction l as [| c0 l IH]; intros seen Hall Hnd; [reflexivity |].
  rewrite kept_cons. destruct (Hall c0) as (d0 & Hd0 & Hne & Hns); [apply elem_of_cons; now left |].
  rewrite Hd0, (proj2 (fresh_spec d0 seen)) by auto. f_equal.
  rewrite fmap_cons in Hnd. apply NoDup_cons in Hnd as [Hnotin Hnd].
  apply IH; [| exact Hnd]. intros c Hc.
  destruct (Hall c) as (dt & Hdt & Hdne & Hdns); [apply elem_of_cons; now right |].
  exists dt. repeat split; auto.
  assert (dt <> d0).
  { intros ->. apply Hnotin. rewrite Hd0, <- Hdt. now apply list_elem_of_fmap_2. }
  now apply not_elem_of_seen_add.
Qed.

End Dedupe.

Section Sorting.

Implicit Types (l : list (gmap string string)) (x y c : gmap string string).

Lemma insert_by_key_perm x l : insert_by_key x l ≡ₚ x :: l.
Proof.
  induction l as [| y l IH]; simpl; [reflexivity |].
  destruct (String.ltb (sort_key y) (sort_key x)); [| reflexivity].
  rewrite IH. apply perm_swap.
Qed.

Lemma sort_by_key_perm l : sort_by_key l ≡ₚ l.
Proof.
  induction l as [| x l IH]; simpl; [reflexivity |].
  rewrite insert_by_key_perm. now rewrite IH.
Qed.

Lemma insert_by_key_sorted x l : key_sorted l -> key_sorted (insert_by_key x l).
Proof.
  unfold key_sorted. induction l as [| y l IH]; intros Hs; simpl.
  - repeat constructor.
  - apply StronglySorted_inv in Hs as [Hs Hy].
    destruct (String.ltb (sort_key y) (sort_key x)) eqn:Hlt.
    + constructor; [now apply IH |].
      rewrite Forall_forall in *. intros z Hz.
      apply list_elem_of_In, (Permutation_in _ (insert_by_key_perm x l)) in Hz.
      destruct Hz as [<- | Hz]; [now apply ltb_asym | apply Hy, list_elem_of_In, Hz].
    + constructor; [now constructor |]. constructor; [exact Hlt |].
      rewrite Forall_forall in *. intros z Hz.
      apply (not_ltb_trans _ (sort_key y)); [exact Hlt | now apply Hy].
Qed.

Lemma sort_by_key_sorted l : key_sorted (sort_by_key l).
Proof.
  induction l as [| x l IH]; simpl; [constructor |]. now apply insert_by_key_sorted.
Qed.

(** Sorting is stable: a list that is already in order is returned as it
    is, ties included. *)
Lemma sort_by_key_id l : key_sorted l -> sort_by_key l = l.
Proof.
  unfold key_sorted. induction l as [| x l IH]; intros Hs; [reflexivity |].
  apply StronglySorted_inv in Hs as [Hs Hx]. simpl. rewrite IH by exact Hs.
  destruct l as [| y l]; [reflexivity |]. simpl.
  apply Forall_inv in Hx. now rewrite Hx.
Qed.

(** With pairwise distinct timestamps an ascending list is strictly
    ascending. *)
Lemma key_sorted_strict l :
  key_sorted l ->
  (forall c, c ∈ l -> exists dt, c !! "datetime" = Some dt) ->
  NoDup ((fun c => c !! "datetime") <$> l) ->
  StronglySorted datetime_lt l.
Proof.
  unfold key_sorted. induction l as [| x l IH]; intros Hs Hall Hnd; [constructor |].
  apply StronglySorted_inv in Hs as [Hs Hx].
  rewrite fmap_cons in Hnd. apply NoDup_cons in Hnd as [Hnotin Hnd].
  constructor.
  - apply IH; auto. intros c Hc. apply Hall, elem_of_cons. now right.
  - rewrite Forall_forall in *. intros y Hy.
    destruct (Hall x) as (tx & Htx); [apply elem_of_cons; now left |].
    destruct (Hall y) as (ty & Hty); [apply elem_of_cons; now right |].
    exists tx, ty. repeat split; auto.
    specialize (Hx y Hy).
    unfold sort_key in Hx. rewrite Htx, Hty in Hx. simpl in Hx.
    destruct (String.ltb tx ty) eqn:Hlt; [reflexivity |]. exfalso.
    pose proof (ltb_total _ _ Hlt Hx) as ->. apply Hnotin.
    rewrite Htx, <- Hty. now apply list_elem_of_fmap_2.
Qed.

End Sorting.

(** *** The merge stage as a whole *)

Lemma process_data_unfold (all_data : list (gmap string string)) :
  _process_data all_data = sort_by_key (kept ∅ all_data).
Proof.
  unfold _process_data, kept. destruct all_data as [| c l]; [reflexivity |].
  now destruct (foldl dedupe_step (∅, []) (c :: l)).
Qed.

Lemma process_data_elem_of (all_data : list (gmap string string)) c :
  c ∈ _process_data all_data <-> c ∈ kept ∅ all_data.
Proof. rewrite process_data_unfold. now rewrite sort_by_key_perm. Qed.

Lemma process_data_datetimes_NoDup (all_data : list (gmap string string)) :
  NoDup ((fun c => c !! "datetime") <$> _process_data all_data).
Proof.
  rewrite process_data_unfold.
  rewrite (fmap_Permutation _ _ _ (sort_by_key_perm _)). apply kept_NoDup.
Qed.

(** Among the candles that carry a timestamp there is a first one. *)
Lemma first_carrier_exists (l : list (gmap string string)) (dt : string) c :
  c ∈ l -> c !! "datetime" = Some dt ->
  exists (i : nat) c',
    l !! i = Some c' /\ c' !! "datetime" = Some dt /\
    forall (j : nat) c'', (j < i)%nat -> l !! j = Some c'' -> c'' !! "datetime" <> Some dt.
Proof.
  induction l as [| c0 l IH]; intros Hin Hdt; [now apply elem_of_nil in Hin |].
  destruct (decide (c0 !! "datetime" = Some dt)) as [H0 | H0].
  - exists 0%nat, c0. repeat split; auto. intros j c'' Hj. lia.
  - apply elem_of_cons in Hin as [-> | Hin]; [contradiction |].
    destruct (IH Hin Hdt) as (i & c' & Hi & Hd' & Hfirst).
    exists (S i), c'. repeat split; auto.
    intros [| j] c'' Hj Hc''; simpl in Hc''.
    + now injection Hc'' as <-.
    + apply (Hfirst j); [lia | exact Hc''].
Qed.

(** C3. The output of [_process_data] is strictly ascending in the
    [datetime] key, so no two of its candles share a timestamp, and for every
    timestamp the candle that is retained is the first one of the input that
    carries it: every output candle is such a first carrier, and every
    non-empty timestamp of the input is represented by its first carrier. *)
Theorem process_data_sorted_first_wins (all_data : list (gmap string string)) :
  StronglySorted datetime_lt (_process_data all_data) /\
  NoDup ((fun c => c !! "datetime") <$> _process_data all_data) /\
  (forall c, c ∈ _process_data all_data ->
     exists dt, first_with_datetime all_data dt c) /\
  (forall c dt, c ∈ all_data -> c !! "datetime" = Some dt -> dt <> "" ->
     exists c', c' ∈ _process_data all_data /\ first_with_datetime all_data dt c').
Proof.
  split; [| split; [| split]].
  - apply key_sorted_strict.
    + rewrite process_data_unfold. apply sort_by_key_sorted.
    + intros c Hc. apply process_data_elem_of, kept_datetime in Hc as (dt & Hdt & _).
      now exists dt.
    + apply process_data_datetimes_NoDup.
  - apply process_data_datetimes_NoDup.
  - intros c Hc. apply process_data_elem_of, kept_spec in Hc
      as (i & dt & Hi & Hdt & Hne & _ & Hfirst).
    exists dt, i. auto.
  - intros c dt Hc Hdt Hne.
    destruct (first_carrier_exists all_data dt c Hc Hdt) as (i & c' & Hi & Hd' & Hfirst).
    exists c'. split.
    + apply process_data_elem_of, kept_spec. exists i, dt. repeat split; auto.
      apply not_elem_of_empty.
    + exists i. auto.
Qed.

Lemma process_data_has_datetime (all_data : list (gmap string string)) c :
  c ∈ _process_data all_data -> exists dt, c !! "datetime" = Some dt /\ dt <> "".
Proof.
  intros Hc. apply process_data_elem_of, kept_datetime in Hc as (dt & Hdt & Hne & _). eauto.
Qed.

(** C2. [_process_data] is idempotent: applied to its own output it returns
    that output. *)
Theorem process_data_idempotent (all_data : list (gmap string string)) :
  _process_data (_process_data all_data) = _process_data all_data.
Proof.
  rewrite (process_data_unfold (_process_data all_data)).
  rewrite kept_id.
  - rewrite process_data_unfold. apply sort_by_key_id, sort_by_key_sorted.
  - intros c Hc. apply process_data_has_datetime in Hc as (dt & Hdt & Hne).
    exists dt. repeat split; auto. apply not_elem_of_empty.
  - apply process_data_datetimes_NoDup.
Qed.

Lemma truthy_spec (v : option string) : truthy v = true <-> exists dt, v = Some dt /\ dt <> "".
Proof.
  destruct v as [s |]; simpl.
  - rewrite negb_true_iff. destruct (String.eqb_spec s ""); split.
    + discriminate.
    + intros (dt & [= <-] & Hne). contradiction.
    + intros _. eauto.
    + reflexivity.
  - split; [discriminate | intros (dt & H & _); discriminate].
Qed.

(** Candles without a timestamp leave no trace in the loop: it keeps the same
    candles whether or not they are removed beforehand. *)
Lemma kept_filter_has_datetime (seen : gset string) (l : list (gmap string string)) :
  kept seen (filter has_datetime l) = kept seen l.
Proof.
  revert seen. induction l as [| c l IH]; intros seen; [reflexivity |].
  rewrite filter_cons. destruct (decide (has_datetime c)) as [Hc | Hc].
  - rewrite !kept_cons. destruct (c !! "datetime"); [| apply IH].
    destruct (negb (String.eqb s "") && bool_decide (s ∉ seen)); [| apply IH].
    now rewrite IH.
  - rewrite IH, kept_cons. unfold has_datetime in Hc.
    destruct (c !! "datetime") as [dt |]; [| reflexivity].
    simpl in Hc. apply not_true_is_false in Hc. now rewrite Hc.
Qed.

(** C10. [_process_data] drops every candle whose [datetime] is missing or
    falsy: its output holds exactly the candles that are the first carrier of
    a non-empty timestamp, each once, none of them without a timestamp, and
    it is the output the timestamped candles alone would give. *)
Theorem process_data_drops_untimed (all_data : list (gmap string string)) :
  (forall c, c ∈ _process_data all_data <-> exists dt, first_with_datetime all_data dt c) /\
  NoDup (_process_data all_data) /\
  (forall c, c ∈ _process_data all_data -> has_datetime c) /\
  (forall c, c ∈ all_data -> ~ has_datetime c -> c ∉ _process_data all_data) /\
  _process_data (filter has_datetime all_data) = _process_data all_data.
Proof.
  assert (Hhas : forall c, c ∈ _process_data all_data -> has_datetime c).
  { intros c Hc. apply process_data_has_datetime in Hc. now apply truthy_spec. }
  split; [| split; [| split; [| split]]].
  - intros c. rewrite process_data_elem_of, kept_spec. split.
    + intros (i & dt & Hi & Hdt & Hne & _ & Hfirst). exists dt, i. auto.
    + intros (dt & i & Hi & Hdt & Hne & Hfirst). exists i, dt.
      repeat split; auto. apply not_elem_of_empty.
  - eapply NoDup_fmap_1, process_data_datetimes_NoDup.
  - exact Hhas.
  - intros c _ Hno Hc. apply Hno, Hhas, Hc.
  - rewrite !process_data_unfold. now rewrite kept_filter_has_datetime.
Qed.

(** ** Executor *)

Section ExecMonad.

Context {A B : Type}.

Lemma bind_inr (m : exec A) (f : A -> exec B) acts a :
  m = (acts, inr a) -> m ≫= f = (acts ++ (f a).1, (f a).2).
Proof. intros ->. unfold mbind, exec_bind. now destruct (f a). Qed.

Lemma bind_inl (m : exec A) (f : A -> exec B) acts e :
  m = (acts, inl e) -> m ≫= f = (acts, inl e).
Proof. now intros ->. Qed.

End ExecMonad.

Lemma percentages_app (a b : list action) :
  percentages (a ++ b) = percentages a ++ percentages b.
Proof. apply omap_app. Qed.

(** *** Arithmetic of the percentages *)

Lemma progress_pct_mono (k k' n : nat) :
  (k <= k')%nat -> (progress_pct k n <= progress_pct k' n)%Q.
Proof.
  intros Hk. unfold progress_pct.
  apply Qplus_le_l, Qmult_le_compat_r; [| discriminate].
  destruct n as [| n].
  - unfold Qdiv. simpl. rewrite !Qmult_0_r. apply Qle_refl.
  - apply Qmult_le_compat_r.
    + rewrite <- Zle_Qle. lia.
    + apply Qinv_le_0_compat. rewrite <- (Zle_Qle 0). lia.
Qed.

Lemma progress_pct_lower (k n : nat) : (5 <= progress_pct k n)%Q.
Proof.
  unfold progress_pct. rewrite <- (Qplus_0_l 5) at 1.
  apply Qplus_le_l. apply Qmult_le_0_compat; [| discriminate].
  destruct n as [| n].
  - unfold Qdiv. simpl. rewrite Qmult_0_r. apply Qle_refl.
  - apply Qmult_le_0_compat.
    + rewrite <- (Zle_Qle 0). lia.
    + apply Qinv_le_0_compat. rewrite <- (Zle_Qle 0). lia.
Qed.

Lemma progress_pct_upper (k n : nat) : (k <= n)%nat -> (progress_pct k n <= 95)%Q.
Proof.
  intros Hk. destruct n as [| n].
  - unfold progress_pct, Qdiv. simpl. rewrite Qmult_0_r. discriminate.
  - apply (Qle_trans _ (progress_pct (S n) (S n))); [now apply progress_pct_mono |].
    unfold progress_pct, Qdiv. rewrite Qmult_inv_r; [discriminate |].
    intros H. unfold Qeq in H. simpl in H. lia.
Qed.

(** *** The loops of the executor *)

Lemma create_tasks_spec (job : HistoricalDataJob) (env : run_env)
    (batch : list chunk) (chunk_num : nat) :
  match duplicated_argument (kwargs job), batch with
  | Some name, _ :: _ =>
      create_tasks job env batch chunk_num = ([], inl (MultipleValuesForArgument name))
  | _, _ =>
      create_tasks job env batch chunk_num =
        ([], inr (fetch env <$> seq chunk_num (length batch), (chunk_num + length batch)%nat))
  end.
Proof.
  destruct (duplicated_argument (kwargs job)) as [name |] eqn:Hdup.
  - destruct batch as [| c batch]; simpl.
    + now rewrite Nat.add_0_r.
    + unfold call_fetch_single_chunk. now rewrite Hdup.
  - revert chunk_num. induction batch as [| c batch IH]; intros chunk_num; simpl.
    + now rewrite Nat.add_0_r.
    + unfold call_fetch_single_chunk. rewrite Hdup. simpl.
      rewrite IH. simpl. now rewrite Nat.add_succ_r.
Qed.

(** The chunk-by-chunk updates: their percentages are those of increasing
    chunk numbers, and [all_data] grows by the contributions in order. *)
Lemma process_batch_results_spec (i idx n : nat) (rs : list gather_result)
    (all_data : list (gmap string string)) :
  exists acts ks,
    process_batch_results i idx n rs all_data
      = (acts, inr (all_data ++ concat (contribution <$> rs))) /\
    Forall quiet acts /\
    percentages acts = (fun k => progress_pct k n) <$> ks /\
    StronglySorted lt ks /\
    Forall (fun k => (i + idx < k <= i + idx + length rs)%nat) ks.
Proof.
  revert idx all_data. induction rs as [| r rs IH]; intros idx all_data; simpl.
  - exists [], []. rewrite app_nil_r. repeat split; constructor.
  - destruct r as [| r].
    + destruct (IH (S idx) all_data) as (acts & ks & -> & Hq & Hp & Hs & Hb).
      exists acts, ks. repeat split; auto.
      eapply Forall_impl; [exact Hb |]. simpl. intros k Hk. lia.
    + destruct (IH (S idx) (all_data ++ chunk_data_of r)) as (acts & ks & Heq & Hq & Hp & Hs & Hb).
      exists (AProgress (progress_pct (i + idx + 1) n)
                (MsgChunkCompleted (i + idx + 1) n (length (all_data ++ chunk_data_of r))) :: acts),
             ((i + idx + 1)%nat :: ks).
      repeat split.
      * unfold mbind, exec_bind, emit. rewrite Heq. simpl. now rewrite <- app_assoc.
      * constructor; [exact I | exact Hq].
      * simpl. now rewrite Hp.
      * constructor; [exact Hs |]. eapply Forall_impl; [exact Hb |]. simpl. intros k Hk. lia.
      * constructor; [lia |]. eapply Forall_impl; [exact Hb |]. simpl. intros k Hk. lia.
Qed.

Lemma batch_length (chunks : list chunk) (i : nat) :
  length (take max_parallel_chunks (drop i chunks))
  = Nat.min max_parallel_chunks (length chunks - i).
Proof. now rewrite length_take, length_drop. Qed.

(** The batches: only quiet actions, and chunk numbers that keep
    increasing from one batch to the next. *)
Lemma batches_loop_shape (job : HistoricalDataJob) (env : run_env) (chunks : list chunk)
    (starts : list nat) (all_data : list (gmap string string)) (chunk_num lo : nat) :
  StronglySorted (fun a b => (a + max_parallel_chunks <= b)%nat) starts ->
  Forall (fun i => (lo <= i)%nat) starts ->
  exists acts r ks,
    batches_loop job env chunks starts all_data chunk_num = (acts, r) /\
    Forall quiet acts /\
    percentages acts = (fun k => progress_pct k (length chunks)) <$> ks /\
    StronglySorted lt ks /\
    Forall (fun k => (lo < k <= length chunks)%nat) ks.
Proof.
  revert all_data chunk_num lo.
  induction starts as [| i starts IH]; intros all_data chunk_num lo Hsorted Hlo.
  - exists [], (inr (all_data, chunk_num)), []. repeat split; constructor.
  - apply StronglySorted_inv in Hsorted as [Hsorted Hgap].
    apply Forall_cons in Hlo as [Hi Hlo]. simpl.
    set (batch := take max_parallel_chunks (drop i chunks)).
    pose proof (create_tasks_spec job env batch chunk_num) as Hct.
    assert (Hfail : forall e, create_tasks job env batch chunk_num = ([], inl e) ->
              exists acts r ks,
                (create_tasks job env batch chunk_num ≫= fun '(tasks, chunk_num0) =>
                   emit AGather ≫= fun _ =>
                   process_batch_results i 0 (length chunks)
                     ((fun o => GatherValue (_fetch_single_chunk o)) <$> tasks) all_data
                   ≫= fun all_data0 =>
                   emit ASleep ≫= fun _ =>
                   batches_loop job env chunks starts all_data0 chunk_num0) = (acts, r) /\
                Forall quiet acts /\
                percentages acts = (fun k => progress_pct k (length chunks)) <$> ks /\
                StronglySorted lt ks /\
                Forall (fun k => (lo < k <= length chunks)%nat) ks).
    { intros e ->. exists [], (inl e), []. repeat split; constructor. }
    assert (Hok : create_tasks job env batch chunk_num =
                    ([], inr (fetch env <$> seq chunk_num (length batch),
                              (chunk_num + length batch)%nat)) ->
              exists acts r ks,
                (create_tasks job env batch chunk_num ≫= fun '(tasks, chunk_num0) =>
                   emit AGather ≫= fun _ =>
                   process_batch_results i 0 (length chunks)
                     ((fun o => GatherValue (_fetch_single_chunk o)) <$> tasks) all_data
                   ≫= fun all_data0 =>
                   emit ASleep ≫= fun _ =>
                   batches_loop job env chunks starts all_data0 chunk_num0) = (acts, r) /\
                Forall quiet acts /\
                percentages acts = (fun k => progress_pct k (length chunks)) <$> ks /\
                StronglySorted lt ks /\
                Forall (fun k => (lo < k <= length chunks)%nat) ks).
    { intros ->.
      set (rs := (fun o => GatherValue (_fetch_single_chunk o)) <$>
                   (fetch env <$> seq chunk_num (length batch))).
      destruct (process_batch_results_spec i 0 (length chunks) rs all_data)
        as (acts1 & ks1 & Heq1 & Hq1 & Hp1 & Hs1 & Hb1).
      destruct (IH (all_data ++ concat (contribution <$> rs))
                   (chunk_num + length batch)%nat (i + max_parallel_chunks)%nat Hsorted)
        as (acts2 & r2 & ks2 & Heq2 & Hq2 & Hp2 & Hs2 & Hb2).
      { rewrite Forall_forall in *. intros j Hj. now apply Hgap. }
      assert (Hlen : length rs = Nat.min max_parallel_chunks (length chunks - i)).
      { unfold rs. rewrite !length_fmap, length_seq. apply batch_length. }
      exists (AGather :: acts1 ++ ASleep :: acts2), r2, (ks1 ++ ks2).
      repeat split.
      - unfold mbind, exec_bind, emit. simpl. fold rs. rewrite Heq1. simpl.
        rewrite Heq2. reflexivity.
      - constructor; [exact I |]. apply Forall_app. split; [exact Hq1 |].
        constructor; [exact I | exact Hq2].
      - simpl. rewrite percentages_app. simpl. rewrite Hp1, Hp2. now rewrite fmap_app.
      - apply StronglySorted_app_2; [| exact Hs1 | exact Hs2].
        intros k1 k2 H1 H2. rewrite Forall_forall in Hb1, Hb2.
        specialize (Hb1 k1 H1). specialize (Hb2 k2 H2). cbv beta in Hb1, Hb2. lia.
      - apply Forall_app. split.
        + eapply Forall_impl; [exact Hb1 |]. cbv beta. intros k Hk. lia.
        + eapply Forall_impl; [exact Hb2 |]. cbv beta. intros k Hk. lia. }
    destruct (duplicated_argument (kwargs job)) as [name |]; [| exact (Hok Hct)].
    destruct batch as [| c batch']; [exact (Hok Hct) | exact (Hfail _ Hct)].
Qed.

Lemma seq_strongly_sorted (s m : nat) : StronglySorted lt (seq s m).
Proof.
  revert s. induction m as [| m IH]; intros s; simpl; constructor; [apply IH |].
  apply Forall_forall. intros k Hk. apply list_elem_of_In, in_seq in Hk. lia.
Qed.

Lemma range_step_sorted (stop : nat) :
  StronglySorted (fun a b => (a + max_parallel_chunks <= b)%nat)
    (range_step stop max_parallel_chunks).
Proof.
  unfold range_step. eapply StronglySorted_fmap; [| apply seq_strongly_sorted].
  intros a b Hab. cbv beta. unfold max_parallel_chunks. lia.
Qed.

Lemma chunk_percentages_sorted (ks : list nat) (n : nat) :
  StronglySorted lt ks -> nondecreasing ((fun k => progress_pct k n) <$> ks).
Proof.
  intros Hs. eapply StronglySorted_fmap; [| exact Hs].
  intros a b Hab. apply progress_pct_mono. lia.
Qed.

(** The shape of a run: quiet actions with non-decreasing percentages up to
    98, and then either the hand-over and completion, or the failure with
    its update that resets the percentage. *)
Lemma execute_job_shape (job : HistoricalDataJob) (env : run_env) :
  exists pre,
    Forall quiet pre /\
    nondecreasing (percentages pre) /\
    Forall (fun q => 0 <= q /\ q <= 98)%Q (percentages pre) /\
    ((exists data n,
        _execute_job job env =
          pre ++ [AStore data n; AComplete data; AProgress 100 (MsgComplete (length data))]) \/
     (exists e,
        _execute_job job env = pre ++ [AFail e; AProgress 0 (MsgFailed e)])).
Proof.
  unfold _execute_job, try_block.
  assert (Hearly : forall e,
            exists pre,
              Forall quiet pre /\
              nondecreasing (percentages pre) /\
              Forall (fun q => 0 <= q /\ q <= 98)%Q (percentages pre) /\
              ((exists data n,
                  [AProgress 0 MsgInitializing; AFail e; AProgress 0 (MsgFailed e)] =
                    pre ++ [AStore data n; AComplete data;
                            AProgress 100 (MsgComplete (length data))]) \/
               (exists e',
                  [AProgress 0 MsgInitializing; AFail e; AProgress 0 (MsgFailed e)] =
                    pre ++ [AFail e'; AProgress 0 (MsgFailed e')]))).
  { intros e. exists [AProgress 0 MsgInitializing]. repeat split.
    - repeat constructor.
    - repeat constructor.
    - repeat constructor; discriminate.
    - right. exists e. reflexivity. }
  destruct (from_date job) as [start_dt |]; simpl; [| apply Hearly].
  destruct (to_date job) as [end_dt |]; simpl; [| apply Hearly].
  unfold call_generate_chunks.
  destruct (_generate_chunks start_dt end_dt (_calculate_chunk_duration (interval job)))
    as [[exn | chunks] |] eqn:Hgen; simpl; [apply Hearly | |].
  2: { destruct (generate_chunks_from_total _ end_dt (chunk_duration_pos (interval job))
                   start_dt) as [r Hr].
       unfold _generate_chunks in Hgen. congruence. }
  clear Hearly.
  destruct (batches_loop_shape job env chunks (range_step (length chunks) max_parallel_chunks)
              [] 0 0 (range_step_sorted _)) as (acts & r & ks & Heq & Hq & Hp & Hs & Hb).
  { apply Forall_forall. intros; lia. }
  rewrite Heq.
  assert (Hks : Forall (fun q => 5 <= q /\ q <= 95)%Q
                  ((fun k => progress_pct k (length chunks)) <$> ks)).
  { apply Forall_fmap. eapply Forall_impl; [exact Hb |]. cbv beta. intros k Hk. split.
    - apply progress_pct_lower.
    - apply progress_pct_upper. lia. }
  pose proof (chunk_percentages_sorted ks (length chunks) Hs) as Hsorted.
  destruct r as [e | [all_data chunk_num]]; simpl.
  - exists (AProgress 0 MsgInitializing :: ASetTotalChunks (length chunks)
            :: AProgress 5 (MsgProcessingChunks (length chunks)) :: acts).
    repeat split.
    + repeat (constructor; [exact I |]). exact Hq.
    + simpl. rewrite Hp. constructor; [constructor; [exact Hsorted |] |].
      * eapply Forall_impl; [exact Hks |]. cbv beta. tauto.
      * constructor; [discriminate |]. eapply Forall_impl; [exact Hks |]. cbv beta.
        intros q [H5 _]. eapply Qle_trans; [| exact H5]. discriminate.
    + simpl. rewrite Hp. constructor; [split; discriminate |].
      constructor; [split; discriminate |].
      eapply Forall_impl; [exact Hks |]. cbv beta. intros q [H5 H95]. split.
      * eapply Qle_trans; [| exact H5]. discriminate.
      * eapply Qle_trans; [exact H95 |]. discriminate.
    + right. exists e. reflexivity.
  - exists (AProgress 0 MsgInitializing :: ASetTotalChunks (length chunks)
            :: AProgress 5 (MsgProcessingChunks (length chunks))
            :: acts ++ [AProgress 95 MsgProcessingData; AProgress 98 MsgStoringData]).
    repeat split.
    + repeat (constructor; [exact I |]). apply Forall_app. split; [exact Hq |].
      repeat constructor.
    + simpl. rewrite percentages_app, Hp. simpl.
      assert (Htail : nondecreasing
                (((fun k => progress_pct k (length chunks)) <$> ks) ++ [95; 98]%Q)).
      { apply StronglySorted_app_2; [| exact Hsorted | repeat constructor; discriminate].
        intros q1 q2 H1 H2. rewrite Forall_forall in Hks. destruct (Hks q1 H1) as [_ H95].
        apply elem_of_cons in H2 as [-> | H2]; [exact H95 |].
        apply elem_of_cons in H2 as [-> | H2]; [| now apply elem_of_nil in H2].
        eapply Qle_trans; [exact H95 |]. discriminate. }
      constructor; [constructor; [exact Htail |] |].
      * apply Forall_app. split.
        -- eapply Forall_impl; [exact Hks |]. cbv beta. tauto.
        -- repeat constructor; discriminate.
      * constructor; [discriminate |]. apply Forall_app. split.
        -- eapply Forall_impl; [exact Hks |]. cbv beta.
           intros q [H5 _]. eapply Qle_trans; [| exact H5]. discriminate.
        -- repeat constructor; discriminate.
    + simpl. rewrite percentages_app, Hp. simpl.
      constructor; [split; discriminate |]. constructor; [split; discriminate |].
      apply Forall_app. split.
      * eapply Forall_impl; [exact Hks |]. cbv beta. intros q [H5 H95]. split.
        -- eapply Qle_trans; [| exact H5]. discriminate.
        -- eapply Qle_trans; [exact H95 |]. discriminate.
      * repeat constructor; discriminate.
    + left. exists (_process_data all_data), (Z.of_nat chunk_num - 1).
      simpl. rewrite <- !app_assoc. reflexivity.
Qed.

(** *** What a run fetches *)

Lemma range_step_bounds (stop : nat) :
  let m := ((stop + max_parallel_chunks - 1) / max_parallel_chunks)%nat in
  (stop <= max_parallel_chunks * m)%nat /\
  (0 < m -> max_parallel_chunks * (m - 1) < stop)%nat.
Proof.
  unfold max_parallel_chunks. cbv zeta.
  pose proof (Nat.div_mod_eq (stop + 10 - 1) 10) as Hdm.
  pose proof (Nat.mod_upper_bound (stop + 10 - 1) 10 ltac:(lia)) as Hm.
  split; [lia |]. intros Hpos. lia.
Qed.

(** Without a doubly bound argument the batches fetch the chunks one after
    the other, each once, and append what they contribute. *)
Lemma batches_loop_value (job : HistoricalDataJob) (env : run_env) (chunks : list chunk) :
  duplicated_argument (kwargs job) = None ->
  forall (m j : nat) (all_data : list (gmap string string)) (c : nat),
    (0 < m -> c = max_parallel_chunks * j /\
              max_parallel_chunks * (j + m - 1) < length chunks <= max_parallel_chunks * (j + m))%nat ->
    exists acts,
      batches_loop job env chunks ((fun k => (k * max_parallel_chunks)%nat) <$> seq j m) all_data c
      = (acts,
         inr (all_data ++ concat (chunk_contribution env <$>
                                    seq c (if decide (m = 0%nat) then 0 else length chunks - c)),
              if decide (m = 0%nat) then c else length chunks)) /\
      Forall quiet acts.
Proof.
  intros Hdup m. induction m as [| m IH]; intros j all_data c Hm.
  - exists []. simpl. rewrite app_nil_r. split; [reflexivity | constructor].
  - destruct Hm as (-> & Hlo & Hhi); [lia |].
    cbn [seq fmap list_fmap batches_loop].
    replace (j * max_parallel_chunks)%nat with (max_parallel_chunks * j)%nat by lia.
    set (i := (max_parallel_chunks * j)%nat) in *.
    set (batch := take max_parallel_chunks (drop i chunks)).
    pose proof (create_tasks_spec job env batch i) as Hct. rewrite Hdup in Hct.
    assert (Hblen : length batch = Nat.min max_parallel_chunks (length chunks - i))
      by apply batch_length.
    set (rs := (fun o => GatherValue (_fetch_single_chunk o)) <$>
                 (fetch env <$> seq i (length batch))).
    destruct (process_batch_results_spec i 0 (length chunks) rs all_data)
      as (acts1 & ks1 & Heq1 & Hq1 & _).
    assert (Hrs : concat (contribution <$> rs)
                  = concat (chunk_contribution env <$> seq i (length batch))).
    { unfold rs. rewrite <- !list_fmap_compose. reflexivity. }
    rewrite Hrs in Heq1.
    destruct (IH (S j) (all_data ++ concat (chunk_contribution env <$> seq i (length batch)))
                 (i + length batch)%nat) as (acts2 & Heq2 & Hq2).
    { intros Hpos. unfold i, max_parallel_chunks in *. lia. }
    exists (AGather :: acts1 ++ ASleep :: acts2). split.
    + rewrite Hct. unfold mbind, exec_bind, emit. cbn [app]. fold rs. rewrite Heq1.
      cbn [app]. rewrite Heq2. f_equal. f_equal.
      destruct (decide (S m = 0%nat)) as [? | _]; [lia |].
      destruct (decide (m = 0%nat)) as [-> | Hne].
      * assert (Hbl : length batch = (length chunks - i)%nat)
          by (unfold i, max_parallel_chunks in *; lia).
        simpl. rewrite app_nil_r, Hbl. f_equal. unfold i, max_parallel_chunks in *. lia.
      * f_equal. rewrite <- app_assoc. f_equal. rewrite <- concat_app, <- fmap_app. do 2 f_equal.
        assert (Hb10 : length batch = max_parallel_chunks)
          by (unfold i, max_parallel_chunks in *; lia).
        rewrite Hb10.
        replace (length chunks - i)%nat
          with (max_parallel_chunks + (length chunks - (i + max_parallel_chunks)))%nat
          by (unfold i, max_parallel_chunks in *; lia).
        now rewrite seq_app.
    + constructor; [exact I |]. apply Forall_app. split; [exact Hq1 |].
      constructor; [exact I | exact Hq2].
Qed.

Lemma plans_planned_chunks (job : HistoricalDataJob) (chunks : list chunk) :
  plans job chunks -> planned_chunks job = chunks.
Proof.
  intros (start_dt & end_dt & Hfrom & Hto & Hgen). unfold planned_chunks.
  now rewrite Hfrom, Hto, Hgen.
Qed.

(** A job that has a planned chunk has dates that parse and that the planner
    accepts. *)
Lemma planned_chunks_plans (job : HistoricalDataJob) :
  planned_chunks job <> [] -> plans job (planned_chunks job).
Proof.
  unfold planned_chunks, plans.
  destruct (from_date job) as [start_dt |]; [| done].
  destruct (to_date job) as [end_dt |]; [| done].
  destruct (_generate_chunks _ _ _) as [[exn | chunks] |] eqn:Hgen; try done.
  intros _. eauto.
Qed.

Lemma plannable_plans (job : HistoricalDataJob) :
  plannable job -> exists chunks, plans job chunks.
Proof.
  intros (start_dt & end_dt & Hfrom & Hto & Hfits).
  destruct (range_fits_planned _ _ _ (chunk_duration_pos (interval job)) Hfits)
    as (chunks & Hgen).
  exists chunks, start_dt, end_dt. auto.
Qed.

(** A job whose dates are planned and whose extra parameters bind no
    argument twice runs to completion with the merge of what its chunks
    contribute. *)
Lemma execute_job_completes (job : HistoricalDataJob) (env : run_env) (chunks : list chunk) :
  plans job chunks ->
  duplicated_argument (kwargs job) = None ->
  let data := _process_data (concat (chunk_contribution env <$> seq 0 (length chunks))) in
  exists pre,
    Forall quiet pre /\
    _execute_job job env =
      pre ++ [AStore data (Z.of_nat (length chunks) - 1);
              AComplete data; AProgress 100 (MsgComplete (length data))].
Proof.
  intros (start_dt & end_dt & Hfrom & Hto & Hgen) Hdup. unfold _execute_job, try_block.
  rewrite Hfrom, Hto. unfold call_generate_chunks.
  cbv [fromisoformat mbind exec_bind emit mret exec_ret]. rewrite Hgen.
  clear Hgen.
  pose proof (range_step_bounds (length chunks)) as [Hb1 Hb2].
  destruct (batches_loop_value job env chunks Hdup
              ((length chunks + max_parallel_chunks - 1) / max_parallel_chunks)%nat 0 [] 0)
    as (acts & Heq & Hq).
  { intros Hpos. specialize (Hb2 Hpos). lia. }
  assert (Hlen : (if decide (((length chunks + max_parallel_chunks - 1) / max_parallel_chunks)%nat
                             = 0%nat) then 0%nat else length chunks) = length chunks).
  { destruct (decide _) as [H0 | _]; [| reflexivity]. rewrite H0 in Hb1. lia. }
  assert (Hseq : (if decide (((length chunks + max_parallel_chunks - 1) / max_parallel_chunks)%nat
                             = 0%nat) then 0%nat else (length chunks - 0)%nat) = length chunks).
  { destruct (decide _) as [H0 | _]; [rewrite H0 in Hb1 |]; lia. }
  rewrite Hlen, Hseq in Heq. fold (range_step (length chunks) max_parallel_chunks) in Heq.
  rewrite Heq.
  exists (AProgress 0 MsgInitializing :: ASetTotalChunks (length chunks)
          :: AProgress 5 (MsgProcessingChunks (length chunks))
          :: acts ++ [AProgress 95 MsgProcessingData; AProgress 98 MsgStoringData]).
  split.
  - repeat (constructor; [exact I |]). apply Forall_app. split; [exact Hq |].
    repeat constructor.
  - cbn [app]. rewrite ?app_nil_r, <- ?app_assoc. reflexivity.
Qed.

(** *** The effect of a run on the job *)

Lemma quiet_keeps (a : action) (job : HistoricalDataJob) (db : list db_call) :
  quiet a ->
  let '(job', db') := apply_action a (job, db) in
  db' = db /\ status job' = status job /\ result_data job' = result_data job /\
  error_message job' = error_message job /\ job_id job' = job_id job.
Proof. destruct a; simpl; intros H; try contradiction; auto. Qed.

Lemma quiet_run_keeps (pre : list action) (job : HistoricalDataJob) (db : list db_call) :
  Forall quiet pre ->
  exists job',
    foldl (fun st a => apply_action a st) (job, db) pre = (job', db) /\
    status job' = status job /\ result_data job' = result_data job /\
    error_message job' = error_message job /\ job_id job' = job_id job.
Proof.
  revert job. induction pre as [| a pre IH]; intros job Hq.
  - exists job. auto.
  - apply Forall_cons in Hq as [Ha Hq]. cbn [foldl].
    pose proof (quiet_keeps a job db Ha) as Hk.
    destruct (apply_action a (job, db)) as [job1 db1].
    destruct Hk as (-> & Hs & Hr & He & Hi).
    destruct (IH job1 Hq) as (job' & Heq & Hs' & Hr' & He' & Hi').
    exists job'. split; [exact Heq |]. repeat split; congruence.
Qed.

(** A run that ends with the hand-over and the completion. *)
Lemma run_completed (pre : list action) (data : list (gmap string string)) (n : Z)
    (msg : progress_message) (job : HistoricalDataJob) :
  Forall quiet pre ->
  let '(job', db) :=
    foldl (fun st a => apply_action a st) (job, [])
      (pre ++ [AStore data n; AComplete data; AProgress 100 msg]) in
  status job' = COMPLETED /\ result_data job' = Some data /\
  error_message job' = error_message job /\
  db = [DbStoreJobData (job_id job) data n;
        DbUpdateJobStatus (job_id job) COMPLETED (Some (length data))].
Proof.
  intros Hq. rewrite foldl_app.
  destruct (quiet_run_keeps pre job [] Hq) as (job1 & -> & Hs & Hr & He & Hi).
  simpl. rewrite Hi. auto.
Qed.

(** A run that ends in the [except] clause. *)
Lemma run_failed (pre : list action) (e : job_error) (job : HistoricalDataJob) :
  Forall quiet pre ->
  let '(job', db) :=
    foldl (fun st a => apply_action a st) (job, [])
      (pre ++ [AFail e; AProgress 0 (MsgFailed e)]) in
  status job' = FAILED /\ result_data job' = result_data job /\
  error_message job' = Some e /\
  db = [DbUpdateJobStatus (job_id job) FAILED None].
Proof.
  intros Hq. rewrite foldl_app.
  destruct (quiet_run_keeps pre job [] Hq) as (job1 & -> & Hs & Hr & He & Hi).
  simpl. rewrite Hi, Hr. auto.
Qed.

Lemma concat_omitting (ds : nat -> list (gmap string string)) (f : nat -> list (gmap string string))
    (k : nat) (l : list nat) :
  f k = [] -> (forall i, i ∈ l -> i <> k -> f i = ds i) ->
  concat (f <$> l) = concat (ds <$> filter (fun i => i <> k) l).
Proof.
  intros Hk. induction l as [| i l IH]; intros Hl; [reflexivity |].
  rewrite filter_cons, fmap_cons. simpl.
  rewrite IH by (intros j Hj; apply Hl, elem_of_cons; now right).
  destruct (decide (i <> k)) as [Hne | Heq].
  - simpl. rewrite Hl; [reflexivity | apply elem_of_cons; now left | exact Hne].
  - assert (i = k) as -> by (destruct (decide (i = k)); tauto). now rewrite Hk.
Qed.

Lemma failed_chunk_contributes_nothing (env : run_env) (k : nat) :
  chunk_failed (fetch env k) -> chunk_contribution env k = [].
Proof.
  unfold chunk_failed, chunk_contribution.
  destruct (fetch env k) as [| [resp |]]; simpl; try reflexivity.
  intros [H | H]; rewrite H; simpl; [| reflexivity]. now rewrite H.
Qed.

Lemma succeeded_chunk_contributes (env : run_env) (i : nat) data :
  chunk_succeeded (fetch env i) data -> chunk_contribution env i = data.
Proof.
  intros (resp & Hf & Hs). unfold chunk_contribution. rewrite Hf. simpl.
  rewrite Hs. simpl. now rewrite Hs.
Qed.

(** The merge stage by what it returns: the first carriers of the non-empty
    timestamps, in strictly ascending order. *)
Lemma process_data_sorted_carriers (all_data : list (gmap string string)) :
  StronglySorted datetime_lt (_process_data all_data) /\
  (forall c, c ∈ _process_data all_data <-> exists dt, first_with_datetime all_data dt c).
Proof.
  split.
  - apply key_sorted_strict.
    + rewrite process_data_unfold. apply sort_by_key_sorted.
    + intros c Hc. apply process_data_elem_of, kept_datetime in Hc as (dt & Hdt & _).
      now exists dt.
    + apply process_data_datetimes_NoDup.
  - intros c. rewrite process_data_elem_of, kept_spec. split.
    + intros (i & dt & Hi & Hdt & Hne & _ & Hfirst). exists dt, i. auto.
    + intros (dt & i & Hi & Hdt & Hne & Hfirst). exists i, dt.
      repeat split; auto. apply not_elem_of_empty.
Qed.

(** C5. When one chunk of a job fails (its fetch raises, returns [None] or
    returns a response without data) and every other chunk succeeds, the run
    ends with status COMPLETED, records no error, and the result series, which
    is also what is handed to the persistence store, is the merge of the
    candles of the successful chunks, the failed chunk left out: it holds, in
    strictly ascending order of their timestamps, exactly the candles that
    are the first to carry a non-empty timestamp among the candles of the
    other chunks, taken in chunk order.  The job is one whose chunks are
    fetched: its dates parse, the planner returns its chunks, and its extra
    parameters do not collide with the parameters of the fetch call. *)
Theorem single_failed_chunk_is_omitted (job : HistoricalDataJob) (env : run_env)
    (chunks : list chunk) (k : nat) (ds : nat -> list (gmap string string)) :
  plans job chunks ->
  duplicated_argument (kwargs job) = None ->
  (k < length chunks)%nat ->
  chunk_failed (fetch env k) ->
  (forall i, (i < length chunks)%nat -> i <> k -> chunk_succeeded (fetch env i) (ds i)) ->
  let fetched := concat (ds <$> filter (fun i => i <> k) (seq 0 (length chunks))) in
  exists merged,
    status (run_to_end job env).1 = COMPLETED /\
    error_message (run_to_end job env).1 = error_message job /\
    result_data (run_to_end job env).1 = Some merged /\
    stored_results (run_to_end job env).2 (job_id job) = [merged] /\
    merged = _process_data fetched /\
    StronglySorted datetime_lt merged /\
    (forall c, c ∈ merged <-> exists dt, first_with_datetime fetched dt c).
Proof.
  intros Hplans Hdup Hk Hfail Hok fetched.
  destruct (execute_job_completes job env chunks Hplans Hdup) as (pre & Hq & Heq).
  assert (Hdata : concat (chunk_contribution env <$> seq 0 (length chunks)) = fetched).
  { apply concat_omitting.
    - now apply failed_chunk_contributes_nothing.
    - intros i Hi Hne. apply succeeded_chunk_contributes, Hok; [| exact Hne].
      apply list_elem_of_In, in_seq in Hi. lia. }
  rewrite Hdata in Heq.
  exists (_process_data fetched).
  unfold run_to_end. rewrite Heq.
  pose proof (run_completed pre (_process_data fetched) (Z.of_nat (length chunks) - 1)
                (MsgComplete (length (_process_data fetched))) job Hq) as Hrun.
  destruct (foldl _ _ _) as [job' db]. destruct Hrun as (Hs & Hr & He & ->).
  destruct (process_data_sorted_carriers fetched) as [Hsorted Hcarriers].
  simpl. repeat split; auto.
  - destruct (decide (job_id job = job_id job)); [reflexivity | contradiction].
  - now apply Hcarriers.
  - now apply Hcarriers.
Qed.

(** A fifteen-day one-minute job has five chunks; the third one raises. *)
Lemma single_failed_chunk_is_omitted_witness :
  let job := sample_job "1minute" (Some (naive 0)) (Some (naive (15 * microseconds_per_day)))
               [] in
  exists chunks,
    plans job chunks /\ length chunks = 5%nat /\
    chunk_failed (fetch third_chunk_raises 2) /\
    status (run_to_end job third_chunk_raises).1 = COMPLETED /\
    result_data (run_to_end job third_chunk_raises).1
    = Some [sample_candle "2024-01-01T09:15" "100"; sample_candle "2024-01-04T09:15" "101";
            sample_candle "2024-01-10T09:15" "103"; sample_candle "2024-01-13T09:15" "104"].
Proof.
  intros job.
  destruct (plannable_plans job) as (chunks & Hplans).
  { exists (naive 0), (naive (15 * microseconds_per_day)).
    repeat split; vm_compute; intros; discriminate. }
  assert (Hlen : length chunks = 5%nat).
  { rewrite <- (plans_planned_chunks job chunks Hplans). vm_compute. reflexivity. }
  exists chunks. split; [exact Hplans |]. split; [exact Hlen |]. split; [exact I |].
  destruct (single_failed_chunk_is_omitted job third_chunk_raises chunks 2 five_chunks_data)
    as (merged & Hs & _ & Hr & _ & Hm & _).
  - exact Hplans.
  - reflexivity.
  - rewrite Hlen. lia.
  - exact I.
  - rewrite Hlen. intros i Hi Hne.
    do 5 (destruct i as [| i]; [try contradiction; eexists; split; reflexivity |]). lia.
  - split; [exact Hs |]. rewrite Hr, Hm, Hlen. vm_compute. reflexivity.
Defined.

(** C7, as amended.  Every percentage that a run emits lies between 0 and
    100.  In a run that completes the percentages never decrease.  In a run
    that fails they never decrease up to the failure, and the update that
    reports the failure sets the percentage back to 0. *)
Theorem progress_percentages (job : HistoricalDataJob) (env : run_env) :
  Forall in_percent_range (percentages (_execute_job job env)) /\
  ((status (run_to_end job env).1 = COMPLETED /\
    nondecreasing (percentages (_execute_job job env))) \/
   (status (run_to_end job env).1 = FAILED /\
    exists before,
      percentages (_execute_job job env) = before ++ [0%Q] /\ nondecreasing before)).
Proof.
  destruct (execute_job_shape job env) as (pre & Hq & Hsorted & Hrange & Hshape).
  assert (Hpre : Forall in_percent_range (percentages pre)).
  { eapply Forall_impl; [exact Hrange |]. cbv beta. intros q [H0 H98]. split; [exact H0 |].
    eapply Qle_trans; [exact H98 |]. discriminate. }
  unfold run_to_end.
  destruct Hshape as [(data & n & Heq) | (e & Heq)]; rewrite Heq.
  - pose proof (run_completed pre data n (MsgComplete (length data)) job Hq) as Hrun.
    destruct (foldl _ _ _) as [job' db]. destruct Hrun as (Hs & _).
    rewrite percentages_app. simpl. split.
    + apply Forall_app. split; [exact Hpre |]. repeat constructor; discriminate.
    + left. split; [exact Hs |].
      apply StronglySorted_app_2; [| exact Hsorted | repeat constructor].
      intros q1 q2 H1 H2. apply elem_of_cons in H2 as [-> | H2]; [| now apply elem_of_nil in H2].
      rewrite Forall_forall in Hrange. destruct (Hrange q1 H1) as [_ H98].
      eapply Qle_trans; [exact H98 |]. discriminate.
  - pose proof (run_failed pre e job Hq) as Hrun.
    destruct (foldl _ _ _) as [job' db]. destruct Hrun as (Hs & _).
    rewrite percentages_app. simpl. split.
    + apply Forall_app. split; [exact Hpre |]. repeat constructor; discriminate.
    + right. split; [exact Hs |]. exists (percentages pre). split; [reflexivity | exact Hsorted].
Qed.

(** C7, as stated, fails: a job whose extra parameters carry the name
    [chunk_num] fails when its first chunk is about to be fetched, after the
    update at 5 percent, and the failure update goes back to 0. *)
Lemma progress_percentage_drops_on_failure :
  let job := sample_job "1minute" (Some (naive 0)) (Some (naive microseconds_per_day))
               [("chunk_num", "7")] in
  percentages (_execute_job job all_chunks_answer) = [0; 5; 0]%Q /\
  ~ nondecreasing (percentages (_execute_job job all_chunks_answer)).
Proof.
  intros job.
  assert (Heq : percentages (_execute_job job all_chunks_answer) = [0; 5; 0]%Q)
    by (vm_compute; reflexivity).
  split; [exact Heq |]. rewrite Heq. intros Hs.
  apply StronglySorted_inv in Hs as [Hs _].
  apply StronglySorted_inv in Hs as [_ H5].
  apply Forall_inv in H5. revert H5. unfold Qle. simpl. lia.
Qed.

(** ** Registry and event loop *)

Lemma run_app (m : Manager) (evs evs' : list event) :
  run m (evs ++ evs') = run (run m evs) evs'.
Proof. apply foldl_app. Qed.

Lemma run_snoc (m : Manager) (evs : list event) (ev : event) :
  run m (evs ++ [ev]) = step (run m evs) ev.
Proof. now rewrite run_app. Qed.

Lemma terminal_count_cons (a : action) (acts : list action) :
  terminal_count (a :: acts)
  = ((if is_terminal_action a then 1 else 0) + terminal_count acts)%nat.
Proof.
  unfold terminal_count. rewrite filter_cons.
  destruct (is_terminal_action a); destruct (decide _); simpl; congruence.
Qed.

Lemma terminal_count_app (a b : list action) :
  terminal_count (a ++ b) = (terminal_count a + terminal_count b)%nat.
Proof. unfold terminal_count. now rewrite filter_app, length_app. Qed.

Lemma terminal_count_quiet (acts : list action) : Forall quiet acts -> terminal_count acts = 0%nat.
Proof.
  induction 1 as [| a acts Ha _ IH]; [reflexivity |].
  rewrite terminal_count_cons, IH. destruct a; simpl in *; try contradiction; reflexivity.
Qed.

(** A run sets the final status exactly once. *)
Lemma execute_job_terminal_count (job : HistoricalDataJob) (env : run_env) :
  terminal_count (_execute_job job env) = 1%nat.
Proof.
  destruct (execute_job_shape job env) as (pre & Hq & _ & _ & [(d & n & ->) | (e & ->)]);
    rewrite terminal_count_app, (terminal_count_quiet pre Hq); reflexivity.
Qed.

Lemma apply_action_job_id (a : action) (job : HistoricalDataJob) (db : list db_call) :
  job_id (apply_action a (job, db)).1 = job_id job.
Proof. destruct a; reflexivity. Qed.

(** What one segment of the executor does to the job and to the
    persistence log. *)
Lemma run_segment_spec (env : run_env) (acts : list action)
    (job : HistoricalDataJob) (db : list db_call) :
  exists job' extra rest,
    run_segment env acts (job, db) = (job', db ++ extra, rest) /\
    job_id job' = job_id job /\
    Forall (fun c => db_call_id c = job_id job) extra /\
    (terminal_count acts = 0%nat ->
       status job' = status job /\ result_data job' = result_data job) /\
    ((terminal_count acts <= 1)%nat ->
       (status job' = status job /\
        (terminal_count (default [] rest) <= terminal_count acts)%nat) \/
       (terminal_count acts = 1%nat /\ terminal_count (default [] rest) = 0%nat /\
        (status job' = COMPLETED \/ status job' = FAILED))).
Proof.
  revert job db. induction acts as [| a acts IH]; intros job db.
  - exists job, [], None. simpl. rewrite app_nil_r. repeat split; auto.
  - cbn [run_segment].
    assert (Hstep : exists job1 extra1,
              apply_action a (job, db) = (job1, db ++ extra1) /\
              job_id job1 = job_id job /\
              Forall (fun c => db_call_id c = job_id job) extra1 /\
              (is_terminal_action a = false ->
                 status job1 = status job /\ result_data job1 = result_data job) /\
              (is_terminal_action a = true ->
                 status job1 = COMPLETED \/ status job1 = FAILED)).
    { destruct a; simpl.
      - exists (_update_progress pct msg job), []. rewrite app_nil_r.
        repeat split; auto; try constructor. discriminate.
      - eexists _, []. rewrite app_nil_r. repeat split; auto; try constructor. discriminate.
      - exists job, []. rewrite app_nil_r. repeat split; auto; try constructor. discriminate.
      - exists job, []. rewrite app_nil_r. repeat split; auto; try constructor. discriminate.
      - exists job, [DbStoreJobData (job_id job) data chunks_fetched].
        repeat split; auto; try (repeat constructor). discriminate.
      - eexists _, [DbUpdateJobStatus (job_id job) COMPLETED (Some (length data))].
        repeat split; auto; try (repeat constructor); discriminate.
      - eexists _, [DbUpdateJobStatus (job_id job) FAILED None].
        repeat split; auto; try (repeat constructor); discriminate. }
    destruct Hstep as (job1 & extra1 & -> & Hid1 & Hex1 & Hquiet1 & Hterm1).
    rewrite terminal_count_cons.
    destruct (suspends env a).
    + exists job1, extra1, (Some acts). change (default [] (Some acts)) with acts.
      refine (conj eq_refl (conj Hid1 (conj Hex1 (conj _ _)))).
      * destruct (is_terminal_action a) eqn:Ha; [lia |]. intros _. now apply Hquiet1.
      * intros Hle. destruct (is_terminal_action a) eqn:Ha.
        -- right. split; [lia |]. split; [lia |]. now apply Hterm1.
        -- left. split; [now apply Hquiet1 | lia].
    + destruct (IH job1 (db ++ extra1)) as (job' & extra & rest & Heq & Hid & Hex & Hq & Ht).
      exists job', (extra1 ++ extra), rest. rewrite Heq, app_assoc.
      refine (conj eq_refl (conj _ (conj _ (conj _ _)))).
      * congruence.
      * apply Forall_app. split; [exact Hex1 |]. rewrite <- Hid1. exact Hex.
      * destruct (is_terminal_action a) eqn:Ha; [lia |]. intros H0.
        destruct (Hq H0) as [Hs Hr]. destruct (Hquiet1 eq_refl) as [Hs1 Hr1].
        split; congruence.
      * intros Hle. destruct (is_terminal_action a) eqn:Ha.
        -- assert (H0 : terminal_count acts = 0%nat) by lia.
           destruct (Hq H0) as [Hs _].
           destruct (Ht ltac:(lia)) as [[_ Hrest] | [Hone _]]; [| lia].
           right. split; [lia |]. split; [lia |]. rewrite Hs. now apply Hterm1.
        -- destruct (Hquiet1 eq_refl) as [Hs1 _].
           destruct (Ht ltac:(lia)) as [[Hs Hrest] | (Hone & Hzero & Hfin)].
           ++ left. split; [congruence | lia].
           ++ right. split; [lia |]. split; [exact Hzero | exact Hfin].
Qed.

Lemma resume_inv (m : Manager) (id : nat) : resume_case m id (resume m id).
Proof.
  unfold resume.
  destruct (active_jobs m !! id) as [t |] eqn:Ht; [| constructor; auto].
  destruct (jobs m !! id) as [job |] eqn:Hj; [| constructor; auto].
  destruct (coro t) as [env | env rest |] eqn:Hc.
  - destruct (must_cancel t) eqn:Hm.
    + eapply resume_cancelled_before_start; eauto.
    + destruct (run_segment_spec env (_execute_job job env) job (database m))
        as (job' & extra & rest & Heq & _).
      rewrite Heq. eapply resume_runs; eauto.
  - destruct (must_cancel t) eqn:Hm.
    + eapply resume_cancelled; eauto.
    + destruct (run_segment_spec env rest job (database m))
        as (job' & extra & rest' & Heq & _).
      rewrite Heq. eapply resume_runs; eauto.
  - constructor. right. right. eauto.
Qed.

(** *** The invariant of the manager *)

Lemma new_manager_inv : manager_inv new_manager.
Proof.
  split; simpl.
  - intros id [x Hx]. now rewrite lookup_empty in Hx.
  - intros id [x Hx]. now rewrite lookup_empty in Hx.
  - intros id job H. now rewrite lookup_empty in H.
  - intros id t job H. now rewrite lookup_empty in H.
Qed.

Lemma create_job_inv (m : Manager) symbol exchange interval from_date to_date kwargs :
  manager_inv m ->
  manager_inv (create_job m symbol exchange interval from_date to_date kwargs).1.
Proof.
  intros [Hfresh Hactive Hid Htask]. split; simpl.
  - intros id. rewrite lookup_insert. destruct (decide (next_uuid m = id)); [lia |].
    intros H. apply Hfresh in H. lia.
  - intros id H. rewrite lookup_insert. destruct (decide (next_uuid m = id)); [eauto |].
    now apply Hactive.
  - intros id job. rewrite lookup_insert. destruct (decide (next_uuid m = id)) as [<- |].
    + now intros [= <-].
    + apply Hid.
  - intros id t job Ht. rewrite lookup_insert.
    destruct (decide (next_uuid m = id)) as [<- |]; [| now apply Htask].
    assert (next_uuid m < next_uuid m)%nat by (apply Hfresh, Hactive; eauto). lia.
Qed.

Lemma start_job_inv (m : Manager) (id : nat) (env : run_env) :
  manager_inv m -> manager_inv (start_job m id env).1.
Proof.
  intros Hinv. unfold start_job.
  destruct (jobs m !! id) as [job |] eqn:Hj; [| exact Hinv].
  destruct (active_jobs m !! id) as [t |] eqn:Ht; [exact Hinv |].
  destruct Hinv as [Hfresh Hactive Hid Htask]. split; simpl.
  - intros j. rewrite lookup_insert. destruct (decide (id = j)) as [<- |]; [| apply Hfresh].
    intros _. apply Hfresh. eauto.
  - intros j. rewrite !lookup_insert. destruct (decide (id = j)); [eauto | apply Hactive].
  - intros j job'. rewrite lookup_insert. destruct (decide (id = j)) as [<- |]; [| apply Hid].
    intros [= <-]. simpl. now apply Hid.
  - intros j t' job'. rewrite !lookup_insert. destruct (decide (id = j)) as [<- |].
    + intros [= <-] [= <-]. split; simpl; [discriminate | reflexivity].
    + apply Htask.
Qed.

Lemma task_cancel_ok (s : JobStatus) (t : Task) : task_ok s t -> task_ok CANCELLED (task_cancel t).
Proof.
  intros [_ Hok]. split; [discriminate |]. unfold task_cancel.
  destruct (coro t) eqn:Hc; simpl; try discriminate. now rewrite Hc.
Qed.

Lemma cancel_job_inv (m : Manager) (id : nat) :
  manager_inv m -> manager_inv (cancel_job m id).1.
Proof.
  intros Hinv. unfold cancel_job.
  destruct (active_jobs m !! id) as [t |] eqn:Ht; [| exact Hinv].
  destruct (jobs m !! id) as [job |] eqn:Hj.
  2: { destruct (inv_active m Hinv id) as [x Hx]; [eauto | congruence]. }
  destruct Hinv as [Hfresh Hactive Hid Htask]. split; simpl.
  - intros j. rewrite lookup_insert. destruct (decide (id = j)) as [<- |]; [| apply Hfresh].
    intros _. apply Hfresh. eauto.
  - intros j. rewrite !lookup_insert. destruct (decide (id = j)); [eauto | apply Hactive].
  - intros j job'. rewrite lookup_insert. destruct (decide (id = j)) as [<- |]; [| apply Hid].
    intros [= <-]. simpl. now apply Hid.
  - intros j t' job'. rewrite !lookup_insert. destruct (decide (id = j)) as [<- |].
    + intros [= <-] [= <-]. simpl. eapply task_cancel_ok, Htask; eauto.
    + apply Htask.
Qed.

Lemma resume_keeps_inv (m : Manager) (id : nat) :
  manager_inv m -> manager_inv (resume m id).
Proof.
  intros Hinv. destruct (resume_inv m id)
    as [_ | t env Ht Hj Hc Hm | t env rest Ht Hj Hc Hm
        | t job env acts job' extra rest Ht Hj Hm Hc Hrun]; [exact Hinv | | |].
  - destruct Hinv as [Hfresh Hactive Hid Htask]. split; simpl; auto.
    + intros j. rewrite lookup_insert. destruct (decide (id = j)) as [<- |]; [auto | apply Hactive].
    + intros j t' job'. rewrite lookup_insert. destruct (decide (id = j)) as [<- |].
      * intros [= <-] Hj'. destruct (Htask id t job' Ht Hj') as [Hne _].
        split; [exact Hne | simpl; auto].
      * apply Htask.
  - destruct Hinv as [Hfresh Hactive Hid Htask]. split; simpl; auto.
    + intros j. rewrite lookup_delete. destruct (decide (id = j)); [intros [? ?]; discriminate |].
      apply Hactive.
    + intros j t' job'. rewrite lookup_delete. destruct (decide (id = j)); [discriminate |].
      apply Htask.
  - destruct (run_segment_spec env acts job (database m))
      as (job'' & extra' & rest' & Heq & Hjid & _ & _ & Hcount).
    rewrite Hrun in Heq. injection Heq as <- _ <-.
    destruct (inv_task m Hinv id t job Ht Hj) as [Hne Hok]. specialize (Hok Hm).
    assert (Hacts : (terminal_count acts <= 1)%nat /\
                    (terminal_count acts = 1%nat -> status job = RUNNING)).
    { destruct Hc as [[Hc ->] | Hc]; rewrite Hc in Hok.
      - rewrite execute_job_terminal_count. auto.
      - exact Hok. }
    destruct Hacts as [Hle Hone].
    assert (Hnew : status job' <> PENDING /\
                   (terminal_count (default [] rest) <= 1)%nat /\
                   (terminal_count (default [] rest) = 1%nat -> status job' = RUNNING)).
    { destruct (Hcount Hle) as [[Hs Hrest] | (H1 & H0 & Hfin)].
      - rewrite Hs. split; [exact Hne |]. split; [lia |]. intros H. apply Hone. lia.
      - split; [destruct Hfin as [-> | ->]; discriminate |]. split; lia. }
    destruct Hinv as [Hfresh Hactive Hid Htask]. split; simpl.
    + intros j. rewrite lookup_insert. destruct (decide (id = j)) as [<- |]; [| apply Hfresh].
      intros _. apply Hfresh. eauto.
    + intros j Hj'. rewrite lookup_insert. destruct (decide (id = j)) as [<- |]; [eauto |].
      apply Hactive. destruct rest.
      * now rewrite lookup_insert_ne in Hj' by done.
      * now rewrite lookup_delete_ne in Hj' by done.
    + intros j job0. rewrite lookup_insert. destruct (decide (id = j)) as [<- |]; [| apply Hid].
      intros [= <-]. rewrite Hjid. now apply Hid.
    + intros j t' job0. rewrite lookup_insert. destruct (decide (id = j)) as [<- |].
      * intros Ht' [= <-]. destruct rest as [rest |].
        -- rewrite lookup_insert_eq in Ht'. injection Ht' as <-.
           destruct Hnew as (Hn & Hl & Hr). split; [exact Hn |]. simpl. auto.
        -- now rewrite lookup_delete_eq in Ht'.
      * intros Ht' Hj'. apply (Htask j t' job0); [| exact Hj'].
        destruct rest.
        -- now rewrite lookup_insert_ne in Ht' by done.
        -- now rewrite lookup_delete_ne in Ht' by done.
Qed.

Lemma step_inv (m : Manager) (ev : event) : manager_inv m -> manager_inv (step m ev).
Proof.
  destruct ev; simpl.
  - apply create_job_inv.
  - apply start_job_inv.
  - apply cancel_job_inv.
  - apply resume_keeps_inv.
Qed.

Lemma run_inv (m : Manager) (evs : list event) : manager_inv m -> manager_inv (run m evs).
Proof.
  revert m. induction evs as [| ev evs IH]; intros m Hinv; [exact Hinv |].
  simpl. apply IH, step_inv, Hinv.
Qed.

Lemma reachable_inv (evs : list event) : manager_inv (run new_manager evs).
Proof. apply run_inv, new_manager_inv. Qed.

(** *** Status transitions *)

Lemma job_status_insert (js : gmap nat HistoricalDataJob) (id j : nat) (job : HistoricalDataJob) :
  status <$> (<[j := job]> js !! id)
  = if decide (j = id) then Some (status job) else status <$> (js !! id).
Proof. rewrite lookup_insert. now destruct (decide (j = id)). Qed.

Lemma step_transition (m : Manager) (ev : event) (id : nat) (s : JobStatus) :
  manager_inv m -> job_status m id = Some s ->
  exists s', job_status (step m ev) id = Some s' /\ transition_allowed m ev id s s'.
Proof.
  intros Hinv Hs. unfold job_status in *.
  destruct (jobs m !! id) as [job |] eqn:Hj; [| discriminate].
  injection Hs as <-.
  assert (Hsame : exists s', status <$> Some job = Some s' /\
                             transition_allowed m ev id (status job) s').
  { exists (status job). split; [reflexivity | now left]. }
  destruct ev as [sy ex iv fd td kw | j env | j | j]; simpl.
  - rewrite job_status_insert. destruct (decide (next_uuid m = id)) as [<- |].
    + assert (next_uuid m < next_uuid m)%nat by (apply (inv_fresh m Hinv); eauto). lia.
    + now rewrite Hj.
  - destruct (start_job m j env) as [m' b] eqn:Hstart. unfold start_job in Hstart.
    destruct (jobs m !! j) as [jobj |] eqn:Hjj.
    2: { injection Hstart as <- <-. simpl. now rewrite Hj. }
    destruct (active_jobs m !! j) as [t |] eqn:Ht.
    { injection Hstart as <- <-. simpl. now rewrite Hj. }
    injection Hstart as <- <-. simpl. rewrite job_status_insert.
    destruct (decide (j = id)) as [-> |]; [| now rewrite Hj].
    exists RUNNING. split; [reflexivity |]. right. left. exists env.
    unfold start_job. rewrite Hjj, Ht. auto.
  - destruct (cancel_job m j) as [m' b] eqn:Hcancel. unfold cancel_job in Hcancel.
    destruct (active_jobs m !! j) as [t |] eqn:Ht.
    2: { injection Hcancel as <- <-. simpl. now rewrite Hj. }
    destruct (jobs m !! j) as [jobj |] eqn:Hjj.
    2: { injection Hcancel as <- <-. simpl. now rewrite Hj. }
    injection Hcancel as <- <-. simpl. rewrite job_status_insert.
    destruct (decide (j = id)) as [-> |]; [| now rewrite Hj].
    exists CANCELLED. split; [reflexivity |]. right. right. left.
    unfold cancel_job. rewrite Ht, Hjj. repeat split; auto.
    rewrite Hj in Hjj. injection Hjj as <-. now destruct (inv_task m Hinv id t job Ht Hj).
  - destruct (resume_inv m j)
      as [_ | t env Ht Hjj Hc Hm | t env rest Ht Hjj Hc Hm
          | t jobj env acts job' extra rest Ht Hjj Hm Hc Hrun]; simpl;
      try (now rewrite Hj).
    rewrite job_status_insert. destruct (decide (j = id)) as [-> |]; [| now rewrite Hj].
    rewrite Hj in Hjj. injection Hjj as <-.
    destruct (run_segment_spec env acts job (database m))
      as (job'' & extra' & rest' & Heq & _ & _ & _ & Hcount).
    rewrite Hrun in Heq. injection Heq as <- _ <-.
    destruct (inv_task m Hinv id t job Ht Hj) as [Hne Hok]. specialize (Hok Hm).
    assert (Hacts : (terminal_count acts <= 1)%nat /\
                    (terminal_count acts = 1%nat -> status job = RUNNING)).
    { destruct Hc as [[Hc ->] | Hc]; rewrite Hc in Hok.
      - rewrite execute_job_terminal_count. auto.
      - exact Hok. }
    destruct Hacts as [Hle Hone].
    exists (status job'). split; [reflexivity |].
    destruct (Hcount Hle) as [[Hsame' _] | (H1 & _ & Hfin)].
    + left. exact Hsame'.
    + right. right. right. auto.
Qed.

(** C4, as amended.  Whatever the registry has gone through, one more
    event leaves the status of a job as it is, or changes it in one of three
    ways: a successful [start_job] sets RUNNING, from PENDING and also from a
    terminal status; a successful [cancel_job] sets CANCELLED on a job that
    was started, also over COMPLETED or FAILED; the executor takes RUNNING to
    COMPLETED or to FAILED.  So neither [create_job] nor the executor changes
    a terminal status, and the status never goes back to PENDING. *)
Theorem status_transitions (evs : list event) (ev : event) (id : nat) (s : JobStatus) :
  job_status (run new_manager evs) id = Some s ->
  exists s',
    job_status (run new_manager (evs ++ [ev])) id = Some s' /\
    transition_allowed (run new_manager evs) ev id s s'.
Proof.
  intros Hs. rewrite run_snoc. apply step_transition; [apply reachable_inv | exact Hs].
Qed.

Lemma status_transitions_witness :
  job_status (run new_manager completed_run) 0 = Some COMPLETED /\
  exists s',
    job_status (run new_manager (completed_run ++ [EvStartJob 0 all_chunks_answer])) 0 = Some s' /\
    transition_allowed (run new_manager completed_run) (EvStartJob 0 all_chunks_answer) 0
      COMPLETED s'.
Proof.
  split; [vm_compute; reflexivity |].
  apply (status_transitions completed_run (EvStartJob 0 all_chunks_answer) 0 COMPLETED).
  vm_compute. reflexivity.
Defined.

(** C4, as stated, fails: a job that has COMPLETED is set back to RUNNING by
    [start_job], because its executor has left [active_jobs] and [start_job]
    does not look at the status. *)
Lemma completed_job_restarts :
  job_status (run new_manager completed_run) 0 = Some COMPLETED /\
  job_status (run new_manager (completed_run ++ [EvStartJob 0 all_chunks_answer])) 0
  = Some RUNNING /\
  ~ terminal_states_final.
Proof.
  assert (H1 : job_status (run new_manager completed_run) 0 = Some COMPLETED)
    by (vm_compute; reflexivity).
  assert (H2 : job_status (run new_manager (completed_run ++ [EvStartJob 0 all_chunks_answer])) 0
               = Some RUNNING) by (vm_compute; reflexivity).
  split; [exact H1 |]. split; [exact H2 |]. intros Hfinal.
  specialize (Hfinal completed_run (EvStartJob 0 all_chunks_answer) 0%nat COMPLETED H1
                (or_introl eq_refl)).
  rewrite H2 in Hfinal. discriminate.
Qed.

(** *** Cancellation *)

Lemma stored_results_app (db extra : list db_call) (id : nat) :
  stored_results (db ++ extra) id = stored_results db id ++ stored_results extra id.
Proof. apply omap_app. Qed.

Lemma stored_results_other (extra : list db_call) (j id : nat) :
  Forall (fun c => db_call_id c = j) extra -> j <> id -> stored_results extra id = [].
Proof.
  intros Hall Hne. induction Hall as [| c extra Hc _ IH]; [reflexivity |].
  change (c :: extra) with ([c] ++ extra). rewrite stored_results_app, IH, app_nil_r.
  destruct c as [| | i data n]; try reflexivity.
  simpl in Hc. subst. unfold stored_results. simpl.
  destruct (decide (j = id)); [contradiction | reflexivity].
Qed.

Lemma cancel_job_cancelled_inv (m : Manager) (id : nat) :
  manager_inv m -> (cancel_job m id).2 = true ->
  cancelled_inv id (result_data <$> jobs m !! id) (stored_results (database m) id)
    (cancel_job m id).1.
Proof.
  intros Hinv Hret. pose proof (cancel_job_inv m id Hinv) as Hinv'.
  unfold cancel_job in *. destruct (active_jobs m !! id) as [t |] eqn:Ht; [| discriminate].
  destruct (inv_active m Hinv id) as [job Hj]; [eauto |]. rewrite Hj in *.
  split; simpl; auto.
  - unfold job_status. simpl. rewrite lookup_insert_eq. reflexivity.
  - intros t'. rewrite lookup_insert_eq. intros [= <-]. unfold task_cancel.
    destruct (coro t) eqn:Hc; simpl; auto.
  - rewrite lookup_insert_eq. reflexivity.
  - rewrite stored_results_app. simpl. apply app_nil_r.
Qed.

(** The state of a cancelled job survives every event except a new
    [start_job] for that job. *)
Lemma cancelled_inv_step (id : nat) result stored (m : Manager) (ev : event) :
  cancelled_inv id result stored m -> not_start_of id ev ->
  cancelled_inv id result stored (step m ev).
Proof.
  intros Hkeep Hev. pose proof Hkeep as [Hinv Hs Htask Hres Hsto].
  pose proof (step_inv m ev Hinv) as Hinv'.
  unfold job_status in Hs.
  destruct (jobs m !! id) as [job |] eqn:Hj; [| discriminate]. injection Hs as Hs.
  assert (Hfresh : next_uuid m <> id).
  { intros <-. assert (next_uuid m < next_uuid m)%nat by (apply (inv_fresh m Hinv); eauto). lia. }
  destruct ev as [sy ex iv fd td kw | j env | j | j]; simpl in Hev, Hinv' |- *.
  - split; simpl; auto.
    + unfold job_status. simpl. rewrite lookup_insert_ne, Hj by done. now rewrite <- Hs.
    + now rewrite lookup_insert_ne, Hj by done.
    + rewrite stored_results_app. simpl. now rewrite app_nil_r.
  - unfold start_job in *. destruct (jobs m !! j) as [jobj |] eqn:Hjj; [| exact Hkeep].
    destruct (active_jobs m !! j) as [t |] eqn:Ht; [exact Hkeep |].
    simpl in Hinv' |- *. split; simpl; auto.
    + unfold job_status. simpl. rewrite lookup_insert_ne, Hj by done. now rewrite <- Hs.
    + intros t'. rewrite lookup_insert_ne by done. apply Htask.
    + now rewrite lookup_insert_ne, Hj by done.
    + rewrite stored_results_app. simpl. now rewrite app_nil_r.
  - unfold cancel_job in *. destruct (active_jobs m !! j) as [t |] eqn:Ht; [| exact Hkeep].
    destruct (inv_active m Hinv j) as [jobj Hjj]; [eauto |]. rewrite Hjj in *.
    simpl in Hinv' |- *. destruct (decide (j = id)) as [-> | Hne].
    + rewrite Hj in Hjj. injection Hjj as <-. split; simpl; auto.
      * unfold job_status. simpl. now rewrite lookup_insert_eq.
      * intros t'. rewrite lookup_insert_eq. intros [= <-]. unfold task_cancel.
        destruct (Htask t Ht) as [Hm | Hc]; [| now rewrite Hc; right].
        destruct (coro t) eqn:Hc; simpl; auto.
      * rewrite lookup_insert_eq. simpl. now rewrite <- Hres.
      * rewrite stored_results_app. simpl. now rewrite app_nil_r.
    + split; simpl; auto.
      * unfold job_status. simpl. rewrite lookup_insert_ne, Hj by done. now rewrite <- Hs.
      * intros t'. rewrite lookup_insert_ne by done. apply Htask.
      * now rewrite lookup_insert_ne, Hj by done.
      * rewrite stored_results_app. simpl. now rewrite app_nil_r.
  - destruct (resume_inv m j)
      as [_ | t env Ht Hjj Hc Hm | t env rest Ht Hjj Hc Hm
          | t jobj env acts job' extra rest Ht Hjj Hm Hc Hrun].
    + exact Hkeep.
    + split; simpl; auto.
      * unfold job_status. simpl. rewrite Hj. now rewrite <- Hs.
      * intros t'. rewrite lookup_insert. destruct (decide (j = id)); [| apply Htask].
        intros [= <-]. now right.
      * now rewrite Hj.
    + split; simpl; auto.
      * unfold job_status. simpl. rewrite Hj. now rewrite <- Hs.
      * intros t'. rewrite lookup_delete. destruct (decide (j = id)); [discriminate |].
        apply Htask.
      * now rewrite Hj.
    + assert (Hne : j <> id).
      { intros ->. destruct (Htask t Ht) as [Hm' | Hd]; [congruence |].
        destruct Hc as [[Hc _] | Hc]; congruence. }
      destruct (run_segment_spec env acts jobj (database m))
        as (job'' & extra' & rest' & Heq & _ & Hextra & _).
      rewrite Hrun in Heq. injection Heq as <- Hex <-. apply app_inv_head in Hex. subst extra'.
      rewrite (inv_job_id m Hinv j jobj Hjj) in Hextra.
      split; simpl; auto.
      * unfold job_status. simpl. rewrite lookup_insert_ne, Hj by done. now rewrite <- Hs.
      * intros t'. destruct rest; [rewrite lookup_insert_ne by done
                                  | rewrite lookup_delete_ne by done]; apply Htask.
      * now rewrite lookup_insert_ne, Hj by done.
      * rewrite stored_results_app, (stored_results_other extra j id Hextra Hne).
        now rewrite app_nil_r.
Qed.

Lemma cancelled_inv_run (id : nat) result stored (evs : list event) (m : Manager) :
  cancelled_inv id result stored m -> Forall (not_start_of id) evs ->
  cancelled_inv id result stored (run m evs).
Proof.
  revert m. induction evs as [| ev evs IH]; intros m Hc Hall; [exact Hc |].
  apply Forall_cons in Hall as [Hev Hall]. simpl.
  apply IH; [| exact Hall]. now apply cancelled_inv_step.
Qed.

(** C6, as amended.  After a call of [cancel_job] that returned true, and
    for as long as [start_job] is not called for that job again, the job
    stays CANCELLED (so it is never COMPLETED), no result series of it is
    handed to the persistence store, and its result is what it was when the
    job was cancelled: what the executor had fetched is merged into nothing
    and stored nowhere. *)
Theorem cancelled_job_stays_cancelled (evs : list event) (id : nat) (evs' : list event) :
  (cancel_job (run new_manager evs) id).2 = true ->
  Forall (not_start_of id) evs' ->
  job_status (run (cancel_job (run new_manager evs) id).1 evs') id = Some CANCELLED /\
  stored_results (database (run (cancel_job (run new_manager evs) id).1 evs')) id
  = stored_results (database (run new_manager evs)) id /\
  result_data <$> jobs (run (cancel_job (run new_manager evs) id).1 evs') !! id
  = result_data <$> jobs (run new_manager evs) !! id.
Proof.
  intros Hret Hall.
  pose proof (cancel_job_cancelled_inv _ id (reachable_inv evs) Hret) as Hc.
  destruct (cancelled_inv_run id _ _ evs' _ Hc Hall) as [_ Hs _ Hres Hsto]. auto.
Qed.

(** A job is cancelled while its chunk is being fetched; the task ends and
    other calls follow, but no new [start_job]. *)
Lemma cancelled_job_stays_cancelled_witness :
  (cancel_job (run new_manager fetching_run) 0).2 = true /\
  job_status (run (cancel_job (run new_manager fetching_run) 0).1
                [EvResume 0; EvCancelJob 0; one_day_job; EvResume 0]) 0 = Some CANCELLED /\
  stored_results (database (run (cancel_job (run new_manager fetching_run) 0).1
                              [EvResume 0; EvCancelJob 0; one_day_job; EvResume 0])) 0 = [].
Proof.
  assert (Hret : (cancel_job (run new_manager fetching_run) 0).2 = true)
    by (vm_compute; reflexivity).
  split; [exact Hret |].
  destruct (cancelled_job_stays_cancelled fetching_run 0
              [EvResume 0; EvCancelJob 0; one_day_job; EvResume 0] Hret) as (Hs & Hsto & _).
  - repeat constructor.
  - split; [exact Hs |]. rewrite Hsto. vm_compute. reflexivity.
Defined.

(** C6, as stated, fails: after the cancelled task has ended, [start_job]
    runs the job again, and this run completes and hands its result to the
    persistence store. *)
Lemma cancelled_job_restarted_completes :
  (cancel_job (run new_manager fetching_run) 0).2 = true /\
  job_status (run (cancel_job (run new_manager fetching_run) 0).1 restart_after_cancel) 0
  = Some COMPLETED /\
  stored_results
    (database (run (cancel_job (run new_manager fetching_run) 0).1 restart_after_cancel)) 0
  = [_process_data (five_chunks_data 0)] /\
  ~ cancelled_never_completes.
Proof.
  assert (Hret : (cancel_job (run new_manager fetching_run) 0).2 = true)
    by (vm_compute; reflexivity).
  assert (Hs : job_status (run (cancel_job (run new_manager fetching_run) 0).1
                             restart_after_cancel) 0 = Some COMPLETED)
    by (vm_compute; reflexivity).
  split; [exact Hret |]. split; [exact Hs |]. split; [vm_compute; reflexivity |].
  intros Hclaim. destruct (Hclaim fetching_run 0%nat restart_after_cancel Hret) as [Hne _].
  contradiction.
Qed.

(** *** An executor that is left alone runs to its end *)

Lemma run_segment_prefix (env : run_env) (acts : list action)
    (st : HistoricalDataJob * list db_call) :
  exists done,
    acts = done ++ default [] (run_segment env acts st).2 /\
    (run_segment env acts st).1 = foldl (fun st a => apply_action a st) st done /\
    ((run_segment env acts st).2 = None \/ done <> []).
Proof.
  revert st. induction acts as [| a acts IH]; intros st.
  - exists []. simpl. auto.
  - cbn [run_segment]. destruct (suspends env a).
    + exists [a]. simpl. repeat split; auto.
    + destruct (IH (apply_action a st)) as (done & Hacts & Hst & Hlast).
      exists (a :: done). simpl. rewrite <- Hacts, Hst. repeat split; auto.
Qed.

Lemma foldl_apply_action_db (acts : list action) (job : HistoricalDataJob)
    (db : list db_call) :
  foldl (fun st a => apply_action a st) (job, db) acts
  = ((foldl (fun st a => apply_action a st) (job, []) acts).1,
     db ++ (foldl (fun st a => apply_action a st) (job, []) acts).2).
Proof.
  revert job db. induction acts as [| a acts IH]; intros job db.
  - simpl. now rewrite app_nil_r.
  - cbn [foldl].
    assert (Ha : exists job1 extra, forall db0, apply_action a (job, db0) = (job1, db0 ++ extra)).
    { destruct a; simpl; eexists _, _; intros db0; try reflexivity;
        now rewrite app_nil_r. }
    destruct Ha as (job1 & extra & Ha). rewrite (Ha db), (Ha []). simpl.
    rewrite (IH job1 (db ++ extra)), (IH job1 extra). simpl. now rewrite app_assoc.
Qed.

(** A task that is not cancelled finishes after finitely many steps of the
    event loop, and has then applied all its actions in order. *)
Lemma resume_drains (id : nat) (n : nat) :
  forall (acts : list action) (m : Manager) (t : Task) (job : HistoricalDataJob)
         (env : run_env),
    (length acts <= n)%nat ->
    active_jobs m !! id = Some t -> jobs m !! id = Some job -> must_cancel t = false ->
    (coro t = CoCreated env /\ acts = _execute_job job env \/ coro t = CoSuspended env acts) ->
    exists k,
      active_jobs (run m (replicate k (EvResume id))) !! id = None /\
      jobs (run m (replicate k (EvResume id))) !! id
      = Some (foldl (fun st a => apply_action a st) (job, database m) acts).1 /\
      database (run m (replicate k (EvResume id)))
      = (foldl (fun st a => apply_action a st) (job, database m) acts).2.
Proof.
  induction n as [n IH] using lt_wf_ind. intros acts m t job env Hlen Ht Hj Hm Hc.
  destruct (run_segment_prefix env acts (job, database m)) as (done & Hacts & Hst & Hlast).
  assert (Hres : resume m id =
            let '(job', db', rest) := run_segment env acts (job, database m) in
            {| jobs := <[id := job']> (jobs m);
               active_jobs :=
                 match rest with
                 | Some rest => <[id := {| coro := CoSuspended env rest; must_cancel := false |}]>
                                  (active_jobs m)
                 | None => delete id (active_jobs m)
                 end;
               database := db'; next_uuid := next_uuid m |}).
  { unfold resume. rewrite Ht, Hj. destruct Hc as [[-> ->] | ->]; now rewrite Hm. }
  destruct (run_segment env acts (job, database m)) as [[job' db'] rest] eqn:Hrun.
  simpl in Hacts, Hst, Hlast. destruct rest as [rest |]; simpl in Hacts.
  - destruct Hlast as [? | Hne]; [discriminate |].
    assert (Hshort : (length rest < n)%nat).
    { rewrite Hacts, length_app in Hlen. destruct done; [contradiction | simpl in Hlen; lia]. }
    destruct (IH (length rest) Hshort rest (resume m id)
                {| coro := CoSuspended env rest; must_cancel := false |} job' env)
      as (k & Hk1 & Hk2 & Hk3); auto.
    + rewrite Hres. simpl. apply lookup_insert_eq.
    + rewrite Hres. simpl. apply lookup_insert_eq.
    + exists (S k). simpl.
      assert (Hdb : database (resume m id) = db') by (now rewrite Hres).
      rewrite Hdb in Hk2, Hk3. rewrite Hacts, foldl_app, <- Hst.
      repeat split; assumption.
  - rewrite app_nil_r in Hacts. subst done. exists 1%nat. simpl. rewrite Hres, <- Hst. simpl.
    repeat split; [apply lookup_delete_eq | apply lookup_insert_eq].
Qed.

(** Started and left alone, a job ends as [run_to_end] says: the registry
    holds the final record, the task is gone, and the persistence
    collaborator has received the calls of the run. *)
Lemma started_job_runs_to_end (m : Manager) (id : nat) (env : run_env)
    (job : HistoricalDataJob) :
  jobs m !! id = Some job -> active_jobs m !! id = None ->
  exists k,
    let m' := run (start_job m id env).1 (replicate k (EvResume id)) in
    active_jobs m' !! id = None /\
    jobs m' !! id = Some (run_to_end (set_status RUNNING job) env).1 /\
    database m'
    = database m ++ DbUpdateJobStatus id RUNNING None
        :: (run_to_end (set_status RUNNING job) env).2.
Proof.
  intros Hj Ht. unfold start_job. rewrite Hj, Ht. simpl.
  set (m1 := {| jobs := <[id := set_status RUNNING job]> (jobs m);
                active_jobs := <[id := {| coro := CoCreated env; must_cancel := false |}]>
                                 (active_jobs m);
                database := database m ++ [DbUpdateJobStatus id RUNNING None];
                next_uuid := next_uuid m |}).
  destruct (resume_drains id (length (_execute_job (set_status RUNNING job) env))
              (_execute_job (set_status RUNNING job) env) m1
              {| coro := CoCreated env; must_cancel := false |}
              (set_status RUNNING job) env) as (k & Hk1 & Hk2 & Hk3); auto.
  - apply lookup_insert_eq.
  - apply lookup_insert_eq.
  - exists k. rewrite foldl_apply_action_db in Hk2, Hk3. simpl in Hk2, Hk3.
    unfold run_to_end. repeat split; [exact Hk1 | exact Hk2 |].
    rewrite Hk3. now rewrite <- app_assoc.
Qed.
(** ** The chunking decision of [get_data] *)

(** With both dates given and readable, both aware or both naive, the range
    is chunked exactly when the estimate exceeds 950, and is fetched in one
    request otherwise. *)
Lemma get_data_decision (interval : string) (days : Z) (start_dt end_dt now : datetime)
    (estimated : Z) :
  aware start_dt = aware end_dt ->
  _estimate_candles interval (instant end_dt - instant start_dt) = inr estimated ->
  get_data interval days (DateText (Some start_dt)) (DateText (Some end_dt)) now
  = if 950 <? estimated then Chunked start_dt end_dt
    else SingleRequest (Some start_dt) (Some end_dt).
Proof.
  intros Haw H. unfold get_data. simpl. rewrite dt_sub_comparable by done. now rewrite H.
Qed.

(** With one date aware and the other naive, the subtraction raises and
    [get_data] returns [None]. *)
Lemma get_data_mixed_dates (interval : string) (days : Z) (start_dt end_dt now : datetime) :
  aware start_dt <> aware end_dt ->
  get_data interval days (DateText (Some start_dt)) (DateText (Some end_dt)) now
  = ReturnsNone TypeError.
Proof. intros Haw. unfold get_data. simpl. now rewrite dt_sub_mixed. Qed.

(** Daily candles: 1330 calendar days give [int(1330 * 5 / 7) = 950], one
    request; 1332 days give 951, chunks. *)
Example estimate_daily_1330 :
  _estimate_candles "1day" (timedelta_of_days 1330) = inr 950 /\
  get_data "1day" 30 (DateText (Some (naive 0)))
    (DateText (Some (naive (timedelta_of_days 1330)))) (naive 0)
  = SingleRequest (Some (naive 0)) (Some (naive (timedelta_of_days 1330))).
Proof. split; vm_compute; reflexivity. Qed.

Example estimate_daily_1332 :
  _estimate_candles "1day" (timedelta_of_days 1332) = inr 951 /\
  get_data "1day" 30 (DateText (Some (naive 0)))
    (DateText (Some (naive (timedelta_of_days 1332)))) (naive 0)
  = Chunked (naive 0) (naive (timedelta_of_days 1332)).
Proof. split; vm_compute; reflexivity. Qed.

(** One-minute candles: three days give [int(3 * 5 / 7 * 22500 / 60) = 803],
    four days give 1071. *)
Example estimate_minute_3_days :
  _estimate_candles "1minute" (timedelta_of_days 3) = inr 803.
Proof. vm_compute. reflexivity. Qed.

Example estimate_minute_4_days :
  _estimate_candles "1minute" (timedelta_of_days 4) = inr 1071 /\
  get_data "1minute" 30 (DateText (Some (naive 0)))
    (DateText (Some (naive (timedelta_of_days 4)))) (naive 0)
  = Chunked (naive 0) (naive (timedelta_of_days 4)).
Proof. split; vm_compute; reflexivity. Qed.

(** C8.  The code at a request that the claim covers and that it does not
    serve: a request without explicit dates (the [days] form, which is the
    default of the signature) neither is chunked nor is fetched in one
    request.  [datetime.now()] reads the name [datetime], which the import
    statement further down in the same function has made a local name that
    is still unbound; the [UnboundLocalError] is caught by the [except
    Exception] clause and [get_data] returns [None]. *)
Theorem get_data_without_dates_returns_none (interval : string) (days : Z)
    (to_date : date_argument) (now : datetime) :
  get_data interval days NoDate to_date now = ReturnsNone (UnboundLocalError "datetime") /\
  get_data interval days to_date NoDate now = ReturnsNone (UnboundLocalError "datetime").
Proof. split; destruct to_date; reflexivity. Qed.

(** * Further properties *)

(** ** Chunk planner: the chunks in closed form *)

(** What a plan tells about the turn of the loop that gave its first
    chunk, and about the turn that gave none. *)
Lemma generate_chunks_from_cons (d : Z) (e cur : datetime) (c : chunk) (cs : list chunk) :
  0 < d -> generate_chunks_from d e cur = Some (inr (c :: cs)) ->
  aware cur = aware e /\ instant cur < instant e /\
  0 <= clock cur + d <= datetime_max /\
  c = (cur, earlier (shifted cur d) e) /\
  generate_chunks_from d e (earlier (shifted cur d) e) = Some (inr cs).
Proof.
  intros Hd Hgen.
  destruct (decide (aware cur = aware e)) as [Haw | Haw].
  2: { rewrite generate_chunks_from_mixed in Hgen by done. discriminate. }
  destruct (Z.le_gt_cases (instant e) (instant cur)) as [Hle | Hlt].
  { rewrite generate_chunks_from_done in Hgen by done. discriminate. }
  destruct (decide (0 <= clock cur + d <= datetime_max)) as [Hadd | Hadd].
  2: { rewrite generate_chunks_from_overflow in Hgen by (done || lia). discriminate. }
  rewrite generate_chunks_from_step in Hgen by (done || lia).
  destruct (generate_chunks_from d e (earlier (shifted cur d) e)) as [[exn | cs'] |];
    simpl in Hgen; try discriminate.
  injection Hgen as <- <-. repeat split; auto; lia.
Qed.

Lemma generate_chunks_from_nil (d : Z) (e cur : datetime) :
  0 < d -> generate_chunks_from d e cur = Some (inr []) ->
  aware cur = aware e /\ instant e <= instant cur.
Proof.
  intros Hd Hgen.
  destruct (decide (aware cur = aware e)) as [Haw | Haw].
  2: { rewrite generate_chunks_from_mixed in Hgen by done. discriminate. }
  split; [exact Haw |].
  destruct (Z.le_gt_cases (instant e) (instant cur)) as [Hle | Hlt]; [exact Hle |].
  destruct (decide (0 <= clock cur + d <= datetime_max)) as [Hadd | Hadd].
  2: { rewrite generate_chunks_from_overflow in Hgen by (done || lia). discriminate. }
  rewrite generate_chunks_from_step in Hgen by (done || lia).
  destruct (generate_chunks_from d e (earlier (shifted cur d) e)) as [[exn | cs'] |];
    simpl in Hgen; discriminate.
Qed.

Lemma earlier_before (a e : datetime) : instant a < instant e -> earlier a e = a.
Proof. intros H. unfold earlier. destruct (Z.ltb_spec (instant e) (instant a)); [lia | done]. Qed.

Lemma generate_chunks_from_lookup (d : Z) (e : datetime) :
  0 < d -> forall (cs : list chunk) (cur : datetime) (i : nat) (c : chunk),
  generate_chunks_from d e cur = Some (inr cs) -> cs !! i = Some c ->
  c = (shifted cur (Z.of_nat i * d), earlier (shifted cur ((Z.of_nat i + 1) * d)) e) /\
  instant c.1 < instant e.
Proof.
  intros Hd cs. induction cs as [| c0 cs IH]; intros cur i c Hgen Hi; [done |].
  apply generate_chunks_from_cons in Hgen as (Haw & Hlt & Hadd & -> & Hrest); [| exact Hd].
  destruct i as [| i]; simpl in Hi.
  - injection Hi as <-. simpl. rewrite shifted_0. rewrite Z.mul_1_l. auto.
  - destruct (IH _ _ _ Hrest Hi) as [Hc Hbefore].
    destruct cs as [| c1 cs']; [done |].
    apply generate_chunks_from_cons in Hrest as (_ & Hnlt & _); [| exact Hd].
    rewrite (earlier_before_end _ _ _ Hnlt) in Hc.
    rewrite !shifted_shifted in Hc. split; [| exact Hbefore].
    rewrite Hc. f_equal; [f_equal; lia | do 2 f_equal; lia].
Qed.

(** X1. The chunk with index [i] of a plan runs from [start_dt + i * d] to
    [start_dt + (i + 1) * d], cut off at [end_dt]; every chunk but the last
    one spans the whole chunk duration [d] of the interval. *)
Theorem generate_chunks_closed_form (interval : string) (start_dt end_dt : datetime)
    (chunks : list chunk) (i : nat) (c : chunk) :
  _generate_chunks start_dt end_dt (_calculate_chunk_duration interval) = Some (inr chunks) ->
  chunks !! i = Some c ->
  c = (shifted start_dt (Z.of_nat i * _calculate_chunk_duration interval),
       earlier (shifted start_dt ((Z.of_nat i + 1) * _calculate_chunk_duration interval))
         end_dt) /\
  ((S i < length chunks)%nat ->
   c.2 = shifted c.1 (_calculate_chunk_duration interval) /\
   instant c.2 - instant c.1 = _calculate_chunk_duration interval).
Proof.
  intros Hgen Hi. pose proof (chunk_duration_pos interval) as Hd.
  set (d := _calculate_chunk_duration interval) in *. unfold _generate_chunks in Hgen.
  destruct (generate_chunks_from_lookup d end_dt Hd chunks start_dt i c Hgen Hi) as [Hc _].
  split; [exact Hc |]. intros Hnext.
  destruct (lookup_lt_is_Some_2 chunks (S i) Hnext) as [c' Hi'].
  destruct (generate_chunks_from_lookup d end_dt Hd chunks start_dt (S i) c' Hgen Hi')
    as [Hc' Hbefore].
  rewrite Hc' in Hbefore. simpl in Hbefore.
  replace (Z.of_nat (S i) * d) with ((Z.of_nat i + 1) * d) in Hbefore by lia.
  rewrite Hc. simpl. rewrite (earlier_before _ _ Hbefore).
  rewrite shifted_shifted, !instant_shifted.
  split; [f_equal; lia | lia].
Qed.

Lemma generate_chunks_closed_form_witness :
  _generate_chunks (naive 0) (naive (7 * microseconds_per_day))
    (_calculate_chunk_duration "1minute")
  = Some (inr [ (naive 0, naive (3 * microseconds_per_day));
                (naive (3 * microseconds_per_day), naive (6 * microseconds_per_day));
                (naive (6 * microseconds_per_day), naive (7 * microseconds_per_day)) ]) /\
  (naive (3 * microseconds_per_day), naive (6 * microseconds_per_day))
  = (shifted (naive 0) (Z.of_nat 1 * _calculate_chunk_duration "1minute"),
     earlier (shifted (naive 0) ((Z.of_nat 1 + 1) * _calculate_chunk_duration "1minute"))
       (naive (7 * microseconds_per_day))).
Proof.
  assert (Hgen : _generate_chunks (naive 0) (naive (7 * microseconds_per_day))
                   (_calculate_chunk_duration "1minute")
                 = Some (inr [ (naive 0, naive (3 * microseconds_per_day));
                               (naive (3 * microseconds_per_day),
                                naive (6 * microseconds_per_day));
                               (naive (6 * microseconds_per_day),
                                naive (7 * microseconds_per_day)) ]))
    by (vm_compute; reflexivity).
  split; [exact Hgen |].
  apply (generate_chunks_closed_form "1minute" (naive 0) (naive (7 * microseconds_per_day)) _ 1
           (naive (3 * microseconds_per_day), naive (6 * microseconds_per_day)) Hgen).
  reflexivity.
Defined.

(** ** Merge stage: what is kept, and merging in steps *)

Section Timestamps.

Implicit Types (seen : gset string) (l : list (gmap string string)) (c : gmap string string).

Lemma timestamp_of_spec c dt :
  timestamp_of c = Some dt <-> c !! "datetime" = Some dt /\ dt <> "".
Proof.
  unfold timestamp_of. destruct (c !! "datetime") as [d |].
  - destruct (String.eqb_spec d ""); split.
    + discriminate.
    + intros [[= ->] Hne]. contradiction.
    + intros [= ->]. auto.
    + intros [[= ->] _]. reflexivity.
  - split; [discriminate | intros [? _]; discriminate].
Qed.

Lemma elem_of_timestamps dt l :
  dt ∈ timestamps l <-> exists c, c ∈ l /\ c !! "datetime" = Some dt /\ dt <> "".
Proof.
  unfold timestamps. rewrite elem_of_list_to_set, list_elem_of_omap.
  split; intros (c & Hc & H); exists c; (split; [exact Hc |]); now apply timestamp_of_spec.
Qed.

Lemma timestamps_cons c l :
  timestamps (c :: l) =
    match timestamp_of c with
    | Some dt => {[dt]} ∪ timestamps l
    | None => timestamps l
    end.
Proof. unfold timestamps. simpl. now destruct (timestamp_of c). Qed.

Lemma dedupe_guard c :
  match c !! "datetime" with
  | Some dt => timestamp_of c = if String.eqb dt "" then None else Some dt
  | None => timestamp_of c = None
  end.
Proof. unfold timestamp_of. now destruct (c !! "datetime"). Qed.

(** The set [seen_times] after the loop. *)
Lemma seen_after seen l :
  (foldl dedupe_step (seen, []) l).1 = seen ∪ timestamps l.
Proof.
  revert seen. induction l as [| c l IH]; intros seen.
  - simpl. unfold timestamps. simpl. apply set_eq. intros x. set_unfold. tauto.
  - rewrite timestamps_cons. simpl. pose proof (dedupe_guard c) as Hg.
    destruct (c !! "datetime") as [dt |]; [| rewrite Hg; apply IH].
    rewrite Hg. destruct (String.eqb dt ""); simpl; [apply IH |].
    destruct (decide (dt ∉ seen)) as [Hns | Hs].
    + rewrite bool_decide_eq_true_2 by exact Hns. rewrite foldl_dedupe_acc. simpl.
      rewrite IH. apply set_eq. intros x. set_unfold. tauto.
    + rewrite bool_decide_eq_false_2 by exact Hs. rewrite IH.
      assert (dt ∈ seen) by (destruct (decide (dt ∈ seen)); tauto).
      apply set_eq. intros x. set_unfold. destruct (decide (x = dt)); subst; tauto.
Qed.

Lemma kept_app seen l1 l2 :
  kept seen (l1 ++ l2) = kept seen l1 ++ kept (seen ∪ timestamps l1) l2.
Proof.
  unfold kept. rewrite foldl_app, <- seen_after.
  destruct (foldl dedupe_step (seen, []) l1) as [s u]. now rewrite foldl_dedupe_acc.
Qed.

(** Candles whose timestamps were all seen before add nothing. *)
Lemma kept_all_seen seen l :
  (forall c dt, c ∈ l -> c !! "datetime" = Some dt -> dt <> "" -> dt ∈ seen) ->
  kept seen l = [].
Proof.
  induction l as [| c l IH]; intros Hall; [reflexivity |].
  rewrite kept_cons.
  assert (Hl : kept seen l = []).
  { apply IH. intros c' dt Hc'. apply Hall, elem_of_cons. now right. }
  destruct (c !! "datetime") as [dt |] eqn:Hdt; [| exact Hl].
  destruct (negb (String.eqb dt "") && bool_decide (dt ∉ seen)) eqn:Hfresh; [| exact Hl].
  apply fresh_spec in Hfresh as [Hne Hns]. exfalso. apply Hns.
  apply (Hall c dt); auto. apply elem_of_cons. now left.
Qed.

Lemma difference_fresh (dt : string) (T : gset string) seen :
  dt ∉ seen -> ({[dt]} ∪ T) ∖ seen = {[dt]} ∪ T ∖ ({[dt]} ∪ seen).
Proof.
  intros H. apply set_eq. intros x. set_unfold. destruct (decide (x = dt)); subst; tauto.
Qed.

Lemma difference_disjoint (dt : string) (T : gset string) seen :
  ({[dt]} : gset string) ## T ∖ ({[dt]} ∪ seen).
Proof. set_unfold. intros x. tauto. Qed.

Lemma difference_seen (dt : string) (T : gset string) seen :
  dt ∈ seen -> ({[dt]} ∪ T) ∖ seen = T ∖ seen.
Proof.
  intros H. apply set_eq. intros x. set_unfold. destruct (decide (x = dt)); subst; tauto.
Qed.

Lemma difference_empty (T : gset string) : T ∖ ∅ = T.
Proof. apply set_eq. intros x. set_unfold. tauto. Qed.

Lemma kept_length seen l : length (kept seen l) = size (timestamps l ∖ seen).
Proof.
  revert seen. induction l as [| c l IH]; intros seen.
  - rewrite kept_nil. unfold timestamps. simpl.
    assert (H0 : (∅ : gset string) ∖ seen = ∅) by (apply set_eq; intros x; set_unfold; tauto).
    rewrite H0. symmetry. apply (size_empty (C := gset string)).
  - rewrite kept_cons, timestamps_cons. pose proof (dedupe_guard c) as Hg.
    destruct (c !! "datetime") as [dt |]; [| rewrite Hg; apply IH].
    rewrite Hg. destruct (String.eqb dt ""); simpl; [apply IH |].
    destruct (decide (dt ∉ seen)) as [Hns | Hs].
    + rewrite bool_decide_eq_true_2 by exact Hns. simpl. rewrite IH.
      rewrite (difference_fresh dt _ seen Hns).
      pose proof (size_union (C := gset string) _ _ (difference_disjoint dt (timestamps l) seen))
        as Hsize.
      rewrite Hsize. now rewrite (size_singleton (C := gset string)).
    + rewrite bool_decide_eq_false_2 by exact Hs. rewrite IH.
      assert (dt ∈ seen) by (destruct (decide (dt ∈ seen)); tauto).
      now rewrite difference_seen.
Qed.

Lemma timestamps_kept l : timestamps (kept ∅ l) = timestamps l.
Proof.
  apply set_eq. intros dt. rewrite !elem_of_timestamps. split.
  - intros (c & Hc & Hdt & Hne). apply kept_spec in Hc as (i & dt' & Hi & _).
    exists c. split; [| auto]. eapply list_elem_of_lookup_2, Hi.
  - intros (c & Hc & Hdt & Hne).
    destruct (first_carrier_exists l dt c Hc Hdt) as (i & c' & Hi & Hd' & Hfirst).
    exists c'. split; [| auto]. apply kept_spec. exists i, dt.
    repeat split; auto. apply not_elem_of_empty.
Qed.

Lemma timestamps_perm l1 l2 : l1 ≡ₚ l2 -> timestamps l1 = timestamps l2.
Proof.
  intros Hp. apply set_eq. intros dt. rewrite !elem_of_timestamps.
  split; intros (c & Hc & H); exists c; (split; [| exact H]).
  - now rewrite <- Hp.
  - now rewrite Hp.
Qed.

Lemma NoDup_fmap_eq {A B : Type} (f : A -> B) (xs : list A) (x y : A) :
  NoDup (f <$> xs) -> x ∈ xs -> y ∈ xs -> f x = f y -> x = y.
Proof.
  induction xs as [| z xs IH]; intros Hnd Hx Hy Hf; [now apply elem_of_nil in Hx |].
  rewrite fmap_cons in Hnd. apply NoDup_cons in Hnd as [Hz Hnd].
  apply elem_of_cons in Hx as [-> | Hx]; apply elem_of_cons in Hy as [-> | Hy]; auto.
  - exfalso. apply Hz. rewrite Hf. now apply list_elem_of_fmap_2.
  - exfalso. apply Hz. rewrite <- Hf. now apply list_elem_of_fmap_2.
Qed.

(** With pairwise distinct timestamps the sorted list does not depend on the
    order of the input. *)
Lemma sort_by_key_perm_unique l1 l2 :
  l1 ≡ₚ l2 ->
  NoDup ((fun c => c !! "datetime") <$> l1) ->
  (forall c, c ∈ l1 -> is_Some (c !! "datetime")) ->
  sort_by_key l1 = sort_by_key l2.
Proof.
  intros Hp Hnd Hall.
  apply (StronglySorted_unique_strong
           (fun a b : gmap string string => String.ltb (sort_key b) (sort_key a) = false)).
  - intros x1 x2 H1 H2 H12 H21.
    rewrite sort_by_key_perm in H1. rewrite sort_by_key_perm, <- Hp in H2.
    apply (NoDup_fmap_eq (fun c : gmap string string => c !! "datetime") l1); auto.
    pose proof (ltb_total _ _ H12 H21) as Hk. unfold sort_key in Hk.
    destruct (Hall x1 H1) as [d1 Hd1]. destruct (Hall x2 H2) as [d2 Hd2].
    rewrite Hd1, Hd2 in *. simpl in Hk. congruence.
  - apply sort_by_key_sorted.
  - apply sort_by_key_sorted.
  - now rewrite !sort_by_key_perm.
Qed.

End Timestamps.

(** X2. [_process_data] returns a rearrangement of its input, with nothing
    dropped, exactly when every candle of the input has a non-empty
    timestamp and no two candles share one. *)
Theorem process_data_keeps_all_iff_distinct (all_data : list (gmap string string)) :
  _process_data all_data ≡ₚ all_data <->
  Forall has_datetime all_data /\ NoDup ((fun c => c !! "datetime") <$> all_data).
Proof.
  split.
  - intros Hp. split.
    + apply Forall_forall. intros c Hc. rewrite <- Hp in Hc.
      apply process_data_has_datetime in Hc. now apply truthy_spec.
    + rewrite <- (fmap_Permutation _ _ _ Hp). apply process_data_datetimes_NoDup.
  - intros [Hall Hnd]. rewrite process_data_unfold, sort_by_key_perm, kept_id; auto.
    intros c Hc. rewrite Forall_forall in Hall. apply Hall, truthy_spec in Hc as (dt & Hdt & Hne).
    exists dt. repeat split; auto. apply not_elem_of_empty.
Qed.

(** X3. Candles that come after the others and bring no new timestamp
    change nothing: when every timestamped candle of [later] repeats a
    timestamp of [all_data], merging both gives the merge of [all_data]. *)
Theorem process_data_absorbs_known_timestamps (all_data later : list (gmap string string)) :
  (forall c, c ∈ later -> has_datetime c ->
     exists c', c' ∈ all_data /\ c' !! "datetime" = c !! "datetime") ->
  _process_data (all_data ++ later) = _process_data all_data.
Proof.
  intros Hknown. rewrite !process_data_unfold, kept_app, (kept_all_seen _ later).
  - now rewrite app_nil_r.
  - intros c dt Hc Hdt Hne. apply elem_of_union. right. apply elem_of_timestamps.
    destruct (Hknown c Hc) as (c' & Hc' & Heq).
    + apply truthy_spec. eauto.
    + exists c'. repeat split; auto. congruence.
Qed.

Lemma process_data_absorbs_known_timestamps_witness :
  _process_data ([sample_candle "2024-01-01T09:15" "100"; sample_candle "2024-01-01T09:16" "101"]
                 ++ [sample_candle "2024-01-01T09:15" "999"; sample_candle "" "0"])
  = _process_data [sample_candle "2024-01-01T09:15" "100"; sample_candle "2024-01-01T09:16" "101"].
Proof.
  apply (process_data_absorbs_known_timestamps
           [sample_candle "2024-01-01T09:15" "100"; sample_candle "2024-01-01T09:16" "101"]
           [sample_candle "2024-01-01T09:15" "999"; sample_candle "" "0"]).
  intros c Hc Hhas.
  apply elem_of_cons in Hc as [-> | Hc].
  - exists (sample_candle "2024-01-01T09:15" "100"). split; [| reflexivity].
    apply elem_of_cons. now left.
  - apply elem_of_cons in Hc as [-> | Hc]; [| now apply elem_of_nil in Hc].
    vm_compute in Hhas. discriminate.
Defined.

(** X4. Merging in steps gives the merge of everything: the merge of an
    earlier result with further candles is the merge of all the candles. *)
Theorem process_data_incremental (all_data later : list (gmap string string)) :
  _process_data (_process_data all_data ++ later) = _process_data (all_data ++ later).
Proof.
  rewrite (process_data_unfold (_ ++ later)), (process_data_unfold (all_data ++ later)).
  rewrite !kept_app.
  assert (Hid : kept ∅ (_process_data all_data) = _process_data all_data).
  { apply kept_id; [| apply process_data_datetimes_NoDup].
    intros c Hc. apply process_data_has_datetime in Hc as (dt & Hdt & Hne).
    exists dt. repeat split; auto. apply not_elem_of_empty. }
  assert (Hts : timestamps (_process_data all_data) = timestamps all_data).
  { rewrite process_data_unfold, (timestamps_perm _ _ (sort_by_key_perm _)).
    apply timestamps_kept. }
  rewrite Hid, Hts. symmetry. apply sort_by_key_perm_unique.
  - apply Permutation_app_tail. rewrite process_data_unfold. symmetry. apply sort_by_key_perm.
  - rewrite <- kept_app. apply kept_NoDup.
  - intros c Hc. rewrite <- kept_app in Hc. apply kept_datetime in Hc as (dt & Hdt & _). eauto.
Qed.

(** X5. The output of [_process_data] has one candle for each distinct
    non-empty timestamp of the input, and carries exactly those
    timestamps. *)
Theorem process_data_one_candle_per_timestamp (all_data : list (gmap string string)) :
  length (_process_data all_data) = size (timestamps all_data) /\
  timestamps (_process_data all_data) = timestamps all_data.
Proof.
  split.
  - rewrite process_data_unfold, (Permutation_length (sort_by_key_perm _)), kept_length.
    now rewrite difference_empty.
  - rewrite process_data_unfold, (timestamps_perm _ _ (sort_by_key_perm _)).
    apply timestamps_kept.
Qed.

(** ** Executor: how a run ends *)

Lemma run_to_end_completed (job : HistoricalDataJob) (env : run_env) (pre : list action)
    (data : list (gmap string string)) (n : Z) :
  Forall quiet pre ->
  _execute_job job env
  = pre ++ [AStore data n; AComplete data; AProgress 100 (MsgComplete (length data))] ->
  status (run_to_end job env).1 = COMPLETED /\
  result_data (run_to_end job env).1 = Some data /\
  error_message (run_to_end job env).1 = error_message job /\
  (run_to_end job env).2
  = [DbStoreJobData (job_id job) data n;
     DbUpdateJobStatus (job_id job) COMPLETED (Some (length data))].
Proof.
  intros Hq Heq. unfold run_to_end. rewrite Heq.
  pose proof (run_completed pre data n (MsgComplete (length data)) job Hq) as Hrun.
  destruct (foldl _ _ _) as [job' db]. exact Hrun.
Qed.

Lemma run_to_end_failed (job : HistoricalDataJob) (env : run_env) (pre : list action)
    (e : job_error) :
  Forall quiet pre ->
  _execute_job job env = pre ++ [AFail e; AProgress 0 (MsgFailed e)] ->
  status (run_to_end job env).1 = FAILED /\
  result_data (run_to_end job env).1 = result_data job /\
  error_message (run_to_end job env).1 = Some e /\
  (run_to_end job env).2 = [DbUpdateJobStatus (job_id job) FAILED None].
Proof.
  intros Hq Heq. unfold run_to_end. rewrite Heq.
  pose proof (run_failed pre e job Hq) as Hrun.
  destruct (foldl _ _ _) as [job' db]. exact Hrun.
Qed.

(** X6. Whatever the fetch client does for the single chunks, a job whose
    dates parse and can be planned (both aware or both naive, chunk
    boundaries not past [datetime.max]) and whose extra parameters do not
    collide with the fetch call ends COMPLETED: its result is the merge of
    what the chunks contribute, in chunk order, and the persistence store
    receives that result once, together with a chunk count that is one less
    than the number of chunks. *)
Theorem valid_job_always_completes (job : HistoricalDataJob) (env : run_env) :
  plannable job ->
  duplicated_argument (kwargs job) = None ->
  let n := length (planned_chunks job) in
  let merged := _process_data (concat (chunk_contribution env <$> seq 0 n)) in
  status (run_to_end job env).1 = COMPLETED /\
  result_data (run_to_end job env).1 = Some merged /\
  error_message (run_to_end job env).1 = error_message job /\
  (run_to_end job env).2
  = [DbStoreJobData (job_id job) merged (Z.of_nat n - 1);
     DbUpdateJobStatus (job_id job) COMPLETED (Some (length merged))].
Proof.
  intros Hplan Hdup n merged.
  destruct (plannable_plans job Hplan) as (chunks & Hplans).
  subst n merged. rewrite (plans_planned_chunks job chunks Hplans).
  destruct (execute_job_completes job env chunks Hplans Hdup) as (pre & Hq & Heq).
  exact (run_to_end_completed job env pre _ _ Hq Heq).
Qed.

Lemma valid_job_always_completes_witness :
  let job := sample_job "1minute" (Some (naive 0)) (Some (naive (15 * microseconds_per_day)))
               [] in
  plannable job /\
  status (run_to_end job third_chunk_raises).1 = COMPLETED /\
  (run_to_end job third_chunk_raises).2
  = [DbStoreJobData 0
       (_process_data (concat (chunk_contribution third_chunk_raises <$> seq 0 5))) 4;
     DbUpdateJobStatus 0 COMPLETED (Some 4%nat)].
Proof.
  intros job.
  assert (Hplan : plannable job).
  { exists (naive 0), (naive (15 * microseconds_per_day)).
    repeat split; vm_compute; intros; discriminate. }
  split; [exact Hplan |].
  destruct (valid_job_always_completes job third_chunk_raises) as (Hs & _ & _ & Hdb).
  - exact Hplan.
  - reflexivity.
  - split; [exact Hs |]. rewrite Hdb. vm_compute. reflexivity.
Defined.

Lemma concat_all_nil {A : Type} (f : nat -> list A) (l : list nat) :
  (forall i, i ∈ l -> f i = []) -> concat (f <$> l) = [].
Proof.
  induction l as [| i l IH]; intros Hall; [reflexivity |].
  rewrite fmap_cons. simpl. rewrite Hall by (apply elem_of_cons; now left).
  apply IH. intros j Hj. apply Hall, elem_of_cons. now right.
Qed.

(** X7. A job of which every chunk fails still ends COMPLETED, with an
    empty result and no error message recorded by the run; the job is one
    whose dates parse and can be planned and whose extra parameters do not
    collide with the fetch call. *)
Theorem job_with_only_failed_chunks_completes_empty (job : HistoricalDataJob) (env : run_env) :
  plannable job ->
  duplicated_argument (kwargs job) = None ->
  (forall i, (i < length (planned_chunks job))%nat -> chunk_failed (fetch env i)) ->
  status (run_to_end job env).1 = COMPLETED /\
  result_data (run_to_end job env).1 = Some [] /\
  error_message (run_to_end job env).1 = error_message job /\
  stored_results (run_to_end job env).2 (job_id job) = [[]].
Proof.
  intros Hplan Hdup Hfail.
  destruct (plannable_plans job Hplan) as (chunks & Hplans).
  rewrite (plans_planned_chunks job chunks Hplans) in Hfail.
  destruct (execute_job_completes job env chunks Hplans Hdup) as (pre & Hq & Heq).
  rewrite concat_all_nil in Heq.
  2: { intros i Hi. apply failed_chunk_contributes_nothing, Hfail.
       apply list_elem_of_In, in_seq in Hi. lia. }
  destruct (run_to_end_completed job env pre _ _ Hq Heq) as (Hs & Hr & He & Hdb).
  repeat split; auto. rewrite Hdb. unfold stored_results. simpl.
  destruct (decide (job_id job = job_id job)); [reflexivity | contradiction].
Qed.

Lemma job_with_only_failed_chunks_completes_empty_witness :
  let job := sample_job "1minute" (Some (naive 0)) (Some (naive (15 * microseconds_per_day)))
               [] in
  let env := {| fetch := fun _ => FetchRaises; callbacks_suspend := fun _ => false |} in
  length (planned_chunks job) = 5%nat /\
  status (run_to_end job env).1 = COMPLETED /\ result_data (run_to_end job env).1 = Some [].
Proof.
  intros job env. split; [vm_compute; reflexivity |].
  destruct (job_with_only_failed_chunks_completes_empty job env) as (Hs & Hr & _).
  - exists (naive 0), (naive (15 * microseconds_per_day)).
    repeat split; vm_compute; intros; discriminate.
  - reflexivity.
  - intros i _. exact I.
  - split; [exact Hs | exact Hr].
Defined.

(** X8. A job of which a date does not parse fails at once: the run
    consists of the first update, the failure and its update, it fetches and
    stores nothing, leaves the result as it was, and records the parse error. *)
Theorem unparseable_date_fails_before_fetching (job : HistoricalDataJob) (env : run_env) :
  from_date job = None \/ to_date job = None ->
  _execute_job job env
  = [AProgress 0 MsgInitializing; AFail InvalidIsoformat;
     AProgress 0 (MsgFailed InvalidIsoformat)] /\
  status (run_to_end job env).1 = FAILED /\
  error_message (run_to_end job env).1 = Some InvalidIsoformat /\
  result_data (run_to_end job env).1 = result_data job /\
  (run_to_end job env).2 = [DbUpdateJobStatus (job_id job) FAILED None].
Proof.
  intros Hdate.
  assert (Heq : _execute_job job env
                = [AProgress 0 MsgInitializing] ++
                  [AFail InvalidIsoformat; AProgress 0 (MsgFailed InvalidIsoformat)]).
  { unfold _execute_job, try_block.
    destruct Hdate as [-> | ->]; [reflexivity |].
    destruct (from_date job); reflexivity. }
  split; [exact Heq |].
  destruct (run_to_end_failed job env [AProgress 0 MsgInitializing] InvalidIsoformat)
    as (Hs & Hr & He & Hdb); [repeat constructor | exact Heq |].
  auto.
Qed.

Lemma unparseable_date_fails_before_fetching_witness :
  let job := sample_job "1minute" (Some (naive 0)) None [] in
  status (run_to_end job all_chunks_answer).1 = FAILED /\
  error_message (run_to_end job all_chunks_answer).1 = Some InvalidIsoformat.
Proof.
  intros job.
  destruct (unparseable_date_fails_before_fetching job all_chunks_answer) as (_ & Hs & He & _).
  - right. reflexivity.
  - split; [exact Hs | exact He].
Defined.

Lemma range_step_head (stop : nat) :
  (0 < stop)%nat ->
  exists rest, range_step stop max_parallel_chunks = 0%nat :: rest.
Proof.
  intros Hpos. unfold range_step.
  pose proof (range_step_bounds stop) as [Hb _]. cbv zeta in Hb.
  destruct ((stop + max_parallel_chunks - 1) / max_parallel_chunks)%nat as [| m] eqn:Hm.
  - unfold max_parallel_chunks in *. lia.
  - simpl. eauto.
Qed.

(** The name that the [TypeError] reports is the first key, in the order of
    the dict, that is the name of a parameter. *)
Lemma multiple_values_first (parameters : list string) (kw : list (string * string))
    (name : string) :
  multiple_values parameters kw = Some name ->
  exists before after,
    kw = before ++ (name, after.1) :: after.2 /\
    name ∈ parameters /\
    forall key, key ∈ before.*1 -> key ∉ parameters.
Proof.
  unfold multiple_values. induction kw as [| [key value] kw IH]; [discriminate |].
  rewrite fmap_cons, filter_cons. simpl. destruct (decide (key ∈ parameters)) as [Hin | Hout].
  - simpl. intros H. injection H as <-. exists [], (value, kw). simpl. split; [done |].
    split; [exact Hin |]. intros k Hk. now apply elem_of_nil in Hk.
  - intros H. destruct (IH H) as (before & after & -> & Hin & Hbefore).
    exists ((key, value) :: before), after. simpl. split; [done |].
    split; [exact Hin |]. intros k Hk. simpl in Hk.
    apply elem_of_cons in Hk as [-> | Hk]; [exact Hout | now apply Hbefore].
Qed.

Lemma multiple_values_none (parameters : list string) (kw : list (string * string)) :
  multiple_values parameters kw = None <-> forall key, key ∈ kw.*1 -> key ∉ parameters.
Proof.
  unfold multiple_values. induction kw as [| [key value] kw IH].
  - split; [| done]. intros _ k Hk. now apply elem_of_nil in Hk.
  - rewrite fmap_cons, filter_cons. simpl. destruct (decide (key ∈ parameters)) as [Hin | Hout].
    + split; [discriminate |]. intros H. exfalso. apply (H key); [apply elem_of_cons; now left | done].
    + rewrite IH. split.
      * intros H k Hk. apply elem_of_cons in Hk as [-> | Hk]; [exact Hout | now apply H].
      * intros H k Hk. apply H, elem_of_cons. now right.
Qed.

Lemma batches_loop_collision (job : HistoricalDataJob) (env : run_env)
    (chunks : list chunk) (name : string) :
  duplicated_argument (kwargs job) = Some name -> chunks <> [] ->
  batches_loop job env chunks (range_step (length chunks) max_parallel_chunks) [] 0
  = ([], inl (MultipleValuesForArgument name)).
Proof.
  intros Hdup Hne. destruct chunks as [| c chunks]; [contradiction |].
  destruct (range_step_head (length (c :: chunks))) as (rest & ->); [simpl; lia |].
  cbn [batches_loop]. rewrite drop_0.
  pose proof (create_tasks_spec job env (take max_parallel_chunks (c :: chunks)) 0) as Hct.
  rewrite Hdup in Hct. unfold max_parallel_chunks in *. cbn [take] in *. now rewrite Hct.
Qed.

(** X9. A job over a non-empty range that is planned, whose extra
    parameters carry the name of a parameter of the fetch call, fails when
    the first chunk is about to be fetched: after the updates at 0 and 5
    percent it records the [TypeError], which names the first key of the extra
    parameters that is such a name, and nothing is fetched or stored. *)
Theorem colliding_parameter_fails_before_fetching (job : HistoricalDataJob) (env : run_env)
    (chunks : list chunk) (name : string) :
  plans job chunks -> chunks <> [] ->
  duplicated_argument (kwargs job) = Some name ->
  let n := length chunks in
  _execute_job job env
  = [AProgress 0 MsgInitializing; ASetTotalChunks n; AProgress 5 (MsgProcessingChunks n);
     AFail (MultipleValuesForArgument name);
     AProgress 0 (MsgFailed (MultipleValuesForArgument name))] /\
  status (run_to_end job env).1 = FAILED /\
  error_message (run_to_end job env).1 = Some (MultipleValuesForArgument name) /\
  result_data (run_to_end job env).1 = result_data job /\
  (run_to_end job env).2 = [DbUpdateJobStatus (job_id job) FAILED None] /\
  (exists before after,
      kwargs job = before ++ (name, after.1) :: after.2 /\
      name ∈ fetch_parameters /\
      forall key, key ∈ before.*1 -> key ∉ fetch_parameters).
Proof.
  intros (start_dt & end_dt & Hfrom & Hto & Hgen) Hne Hdup n.
  assert (Heq : _execute_job job env
                = [AProgress 0 MsgInitializing; ASetTotalChunks n;
                   AProgress 5 (MsgProcessingChunks n)] ++
                  [AFail (MultipleValuesForArgument name);
                   AProgress 0 (MsgFailed (MultipleValuesForArgument name))]).
  { subst n. unfold _execute_job, try_block. rewrite Hfrom, Hto.
    unfold call_generate_chunks.
    cbv [fromisoformat mbind exec_bind emit mret exec_ret]. rewrite Hgen.
    rewrite (batches_loop_collision job env chunks name Hdup Hne). reflexivity. }
  split; [exact Heq |].
  destruct (run_to_end_failed job env
              [AProgress 0 MsgInitializing; ASetTotalChunks n;
               AProgress 5 (MsgProcessingChunks n)] (MultipleValuesForArgument name))
    as (Hs & Hr & He & Hdb); [repeat constructor | exact Heq |].
  repeat split; auto.
  apply multiple_values_first, Hdup.
Qed.

Lemma colliding_parameter_fails_before_fetching_witness :
  let job := sample_job "1minute" (Some (naive 0)) (Some (naive microseconds_per_day))
               [("right", "call"); ("chunk_num", "7")] in
  status (run_to_end job all_chunks_answer).1 = FAILED /\
  error_message (run_to_end job all_chunks_answer).1
  = Some (MultipleValuesForArgument "chunk_num").
Proof.
  intros job.
  destruct (colliding_parameter_fails_before_fetching job all_chunks_answer
              [(naive 0, naive microseconds_per_day)] "chunk_num") as (_ & Hs & He & _).
  - exists (naive 0), (naive microseconds_per_day).
    split; [reflexivity |]. split; [reflexivity |]. vm_compute. reflexivity.
  - discriminate.
  - vm_compute. reflexivity.
  - split; [exact Hs | exact He].
Defined.

(** X10. A job whose range is empty or reversed ([start_dt < end_dt] is
    false) completes at once with an empty result: no chunk is planned,
    nothing is fetched, whatever the extra parameters are, and the
    persistence store is handed an empty series with the chunk count -1. *)
Theorem empty_range_completes_without_fetching (job : HistoricalDataJob) (env : run_env)
    (start_dt end_dt : datetime) :
  from_date job = Some start_dt -> to_date job = Some end_dt ->
  dt_lt start_dt end_dt = inr false ->
  _execute_job job env
  = [AProgress 0 MsgInitializing; ASetTotalChunks 0; AProgress 5 (MsgProcessingChunks 0);
     AProgress 95 MsgProcessingData; AProgress 98 MsgStoringData;
     AStore [] (-1); AComplete []; AProgress 100 (MsgComplete 0)] /\
  status (run_to_end job env).1 = COMPLETED /\
  result_data (run_to_end job env).1 = Some [] /\
  (run_to_end job env).2
  = [DbStoreJobData (job_id job) [] (-1); DbUpdateJobStatus (job_id job) COMPLETED (Some 0%nat)].
Proof.
  intros Hfrom Hto Hle. apply dt_lt_false in Hle as [Haw Hle].
  assert (Heq : _execute_job job env
                = [AProgress 0 MsgInitializing; ASetTotalChunks 0;
                   AProgress 5 (MsgProcessingChunks 0);
                   AProgress 95 MsgProcessingData; AProgress 98 MsgStoringData] ++
                  [AStore [] (-1); AComplete [];
                   AProgress 100 (MsgComplete (length (@nil (gmap string string))))]).
  { unfold _execute_job, try_block. rewrite Hfrom, Hto. unfold call_generate_chunks.
    cbv [fromisoformat mbind exec_bind emit mret exec_ret].
    unfold _generate_chunks.
    rewrite generate_chunks_from_done by (done || apply chunk_duration_pos). reflexivity. }
  split; [exact Heq |].
  destruct (run_to_end_completed job env
              [AProgress 0 MsgInitializing; ASetTotalChunks 0;
               AProgress 5 (MsgProcessingChunks 0);
               AProgress 95 MsgProcessingData; AProgress 98 MsgStoringData] [] (-1))
    as (Hs & Hr & _ & Hdb); [repeat constructor | exact Heq |].
  auto.
Qed.

Lemma empty_range_completes_without_fetching_witness :
  let job := sample_job "1minute" (Some (naive microseconds_per_day)) (Some (naive 0))
               [("chunk_num", "7")] in
  status (run_to_end job all_chunks_answer).1 = COMPLETED /\
  result_data (run_to_end job all_chunks_answer).1 = Some [].
Proof.
  intros job.
  destruct (empty_range_completes_without_fetching job all_chunks_answer
              (naive microseconds_per_day) (naive 0)) as (_ & Hs & Hr & _).
  - reflexivity.
  - reflexivity.
  - vm_compute. reflexivity.
  - split; [exact Hs | exact Hr].
Defined.

(** ** Registry: consistency, isolation and liveness *)

(** X11. A job that was just created can be started: in every state that
    the registry can reach, [create_job] returns an id that was not in use,
    registers the job as PENDING without touching the other jobs or any task,
    and [start_job] on that id returns true and sets the job RUNNING. *)
Theorem created_job_can_be_started (evs : list event) (symbol exchange interval : string)
    (from_date to_date : option datetime) (kwargs : list (string * string)) (env : run_env) :
  let m := run new_manager evs in
  let m1 := (create_job m symbol exchange interval from_date to_date kwargs).1 in
  let id := (create_job m symbol exchange interval from_date to_date kwargs).2 in
  jobs m !! id = None /\
  job_status m1 id = Some PENDING /\
  (forall j, j <> id -> jobs m1 !! j = jobs m !! j) /\
  active_jobs m1 = active_jobs m /\
  (start_job m1 id env).2 = true /\
  job_status (start_job m1 id env).1 id = Some RUNNING.
Proof.
  intros m m1 id. pose proof (reachable_inv evs) as Hinv. fold m in Hinv.
  assert (Hnew : jobs m !! id = None).
  { destruct (jobs m !! id) eqn:Hj; [| reflexivity].
    assert (id < next_uuid m)%nat by (apply (inv_fresh m Hinv); eauto).
    unfold id in *. simpl in *. lia. }
  assert (Hnotask : active_jobs m !! id = None).
  { destruct (active_jobs m !! id) eqn:Ht; [| reflexivity].
    destruct (inv_active m Hinv id) as [job Hj]; [eauto | congruence]. }
  subst m1 id. simpl in *. unfold job_status, start_job. simpl.
  rewrite lookup_insert_eq, Hnotask. simpl. rewrite lookup_insert_eq.
  repeat split; auto. intros j Hj. now rewrite lookup_insert_ne.
Qed.

(** X12. In every state that the registry can reach, the record that is
    filed under an id carries that id, and every task in [active_jobs]
    belongs to a job that exists. *)
Theorem registry_is_consistent (evs : list event) (id : nat) :
  let m := run new_manager evs in
  (forall job, get_job m id = Some job -> job_id job = id) /\
  (is_Some (active_jobs m !! id) -> is_Some (get_job m id)).
Proof.
  intros m. pose proof (reachable_inv evs) as Hinv. fold m in Hinv. unfold get_job. split.
  - intros job Hj. now apply (inv_job_id m Hinv).
  - apply (inv_active m Hinv).
Qed.

Lemma registry_is_consistent_witness :
  is_Some (active_jobs (run new_manager fetching_run) !! 0%nat) /\
  is_Some (get_job (run new_manager fetching_run) 0).
Proof.
  assert (Ht : is_Some (active_jobs (run new_manager fetching_run) !! 0%nat))
    by (vm_compute; eauto).
  split; [exact Ht |].
  destruct (registry_is_consistent fetching_run 0) as [_ Hactive]. exact (Hactive Ht).
Defined.

(** *** A job that is cancelled before its executor has run *)

Lemma stuck_inv_step (id : nat) (m : Manager) (ev : event) :
  stuck_inv id m -> stuck_inv id (step m ev).
Proof.
  intros [Hinv (t & Ht & Hnever) Hs].
  pose proof (step_inv m ev Hinv) as Hinv'.
  unfold job_status in Hs.
  destruct (jobs m !! id) as [job |] eqn:Hj; [| discriminate]. injection Hs as Hs.
  assert (Hfresh : next_uuid m <> id).
  { intros <-. assert (next_uuid m < next_uuid m)%nat by (apply (inv_fresh m Hinv); eauto). lia. }
  assert (Hkeep : stuck_inv id m).
  { split; [exact Hinv | eauto |]. unfold job_status. rewrite Hj. now rewrite <- Hs. }
  destruct ev as [sy ex iv fd td kw | j env | j | j]; simpl in Hinv' |- *.
  - split; simpl; [exact Hinv' | eauto |].
    unfold job_status. simpl. rewrite lookup_insert_ne, Hj by done. now rewrite <- Hs.
  - unfold start_job in *. destruct (jobs m !! j) as [jobj |] eqn:Hjj; [| exact Hkeep].
    destruct (active_jobs m !! j) as [tj |] eqn:Htj; [exact Hkeep |].
    assert (j <> id) by congruence.
    simpl in Hinv' |- *. split; simpl; [exact Hinv' | |].
    + exists t. now rewrite lookup_insert_ne.
    + unfold job_status. simpl. rewrite lookup_insert_ne, Hj by done. now rewrite <- Hs.
  - unfold cancel_job in *. destruct (active_jobs m !! j) as [tj |] eqn:Htj; [| exact Hkeep].
    destruct (inv_active m Hinv j) as [jobj Hjj]; [eauto |]. rewrite Hjj in *.
    simpl in Hinv' |- *. destruct (decide (j = id)) as [-> | Hne].
    + rewrite Ht in Htj. injection Htj as <-. split; simpl; [exact Hinv' | |].
      * exists (task_cancel t). rewrite lookup_insert_eq. split; [reflexivity |].
        unfold task_cancel, never_runs in *.
        destruct Hnever as [Hc | (env & Hc & Hm)]; rewrite Hc; simpl; eauto.
      * unfold job_status. simpl. now rewrite lookup_insert_eq.
    + split; simpl; [exact Hinv' | |].
      * exists t. now rewrite lookup_insert_ne.
      * unfold job_status. simpl. rewrite lookup_insert_ne, Hj by done. now rewrite <- Hs.
  - destruct (resume_inv m j)
      as [_ | tj env Htj Hjj Hc Hm | tj env rest Htj Hjj Hc Hm
          | tj jobj env acts job' extra rest Htj Hjj Hm Hc Hrun].
    + exact Hkeep.
    + split; simpl; [exact Hinv' | |].
      * destruct (decide (j = id)) as [-> | Hne].
        -- eexists. rewrite lookup_insert_eq. split; [reflexivity |]. now left.
        -- exists t. now rewrite lookup_insert_ne.
      * unfold job_status. simpl. rewrite Hj. now rewrite <- Hs.
    + assert (Hne : j <> id).
      { intros ->. rewrite Ht in Htj. injection Htj as <-.
        destruct Hnever as [Hd | (env' & Hd & _)]; congruence. }
      split; simpl; [exact Hinv' | |].
      * exists t. now rewrite lookup_delete_ne.
      * unfold job_status. simpl. rewrite Hj. now rewrite <- Hs.
    + assert (Hne : j <> id).
      { intros ->. rewrite Ht in Htj. injection Htj as <-.
        destruct Hnever as [Hd | (env' & Hd & Hm')]; [| congruence].
        destruct Hc as [[Hc _] | Hc]; congruence. }
      split; simpl; [exact Hinv' | |].
      * exists t. destruct rest; [now rewrite lookup_insert_ne | now rewrite lookup_delete_ne].
      * unfold job_status. simpl. rewrite lookup_insert_ne, Hj by done. now rewrite <- Hs.
Qed.

Lemma stuck_inv_run (id : nat) (evs : list event) (m : Manager) :
  stuck_inv id m -> stuck_inv id (run m evs).
Proof.
  revert m. induction evs as [| ev evs IH]; intros m Hst; [exact Hst |].
  simpl. apply IH, stuck_inv_step, Hst.
Qed.

(** X13. A job that is cancelled between [start_job] and the first step of
    its executor can never run again: whatever happens afterwards, its task
    stays in [active_jobs], so [start_job] keeps returning false and changes
    nothing, [cancel_job] keeps returning true, and the job stays CANCELLED. *)
Theorem job_cancelled_before_first_step_is_stuck (evs : list event) (id : nat)
    (env : run_env) (evs' : list event) (env' : run_env) :
  (start_job (run new_manager evs) id env).2 = true ->
  let m := run (cancel_job (start_job (run new_manager evs) id env).1 id).1 evs' in
  start_job m id env' = (m, false) /\
  (cancel_job m id).2 = true /\
  is_Some (active_jobs m !! id) /\
  job_status m id = Some CANCELLED.
Proof.
  intros Hstart.
  pose proof (reachable_inv evs) as Hinv0. set (m0 := run new_manager evs) in *.
  assert (Hstuck : stuck_inv id (cancel_job (start_job m0 id env).1 id).1).
  { pose proof (cancel_job_inv _ id (start_job_inv m0 id env Hinv0)) as Hinv1.
    unfold start_job in *. destruct (jobs m0 !! id) as [job |] eqn:Hj; [| discriminate].
    destruct (active_jobs m0 !! id) as [t |] eqn:Ht; [discriminate |].
    unfold cancel_job in *. simpl in *. rewrite !lookup_insert_eq in *. simpl in *.
    split; [exact Hinv1 | |].
    - eexists. simpl. rewrite lookup_insert_eq. split; [reflexivity |].
      right. exists env. auto.
    - unfold job_status. simpl. now rewrite lookup_insert_eq. }
  intros m. destruct (stuck_inv_run id evs' _ Hstuck) as [Hinv (t & Ht & _) Hs]. fold m in Hinv, Ht, Hs.
  unfold job_status in Hs. destruct (jobs m !! id) as [job |] eqn:Hj; [| discriminate].
  unfold start_job, cancel_job. rewrite Hj, Ht. simpl. repeat split; eauto.
  unfold job_status. now rewrite Hj.
Qed.

Lemma job_cancelled_before_first_step_is_stuck_witness :
  let m := run (cancel_job (start_job (run new_manager [one_day_job]) 0 all_chunks_answer).1 0).1
             [EvResume 0; EvResume 0; EvStartJob 0 all_chunks_answer] in
  start_job m 0 all_chunks_answer = (m, false) /\ job_status m 0 = Some CANCELLED.
Proof.
  intros m.
  destruct (job_cancelled_before_first_step_is_stuck [one_day_job] 0 all_chunks_answer
              [EvResume 0; EvResume 0; EvStartJob 0 all_chunks_answer] all_chunks_answer)
    as (Hstart & _ & _ & Hs).
  - reflexivity.
  - split; [exact Hstart | exact Hs].
Defined.

(** *** Jobs do not interfere *)

Lemma calls_about_app (id : nat) (db extra : list db_call) :
  calls_about id (db ++ extra) = calls_about id db ++ calls_about id extra.
Proof. apply filter_app. Qed.

Lemma calls_about_other (id j : nat) (extra : list db_call) :
  Forall (fun c => db_call_id c = j) extra -> j <> id -> calls_about id extra = [].
Proof.
  intros Hall Hne. induction Hall as [| c extra Hc _ IH]; [reflexivity |].
  unfold calls_about in *. rewrite filter_cons, IH.
  destruct (decide (db_call_id c = id)); [congruence | reflexivity].
Qed.

Lemma step_leaves_job_alone (m : Manager) (ev : event) (id : nat) :
  manager_inv m -> is_Some (jobs m !! id) -> event_job ev <> Some id ->
  jobs (step m ev) !! id = jobs m !! id /\
  active_jobs (step m ev) !! id = active_jobs m !! id /\
  calls_about id (database (step m ev)) = calls_about id (database m).
Proof.
  intros Hinv Hj Hev.
  assert (Hfresh : next_uuid m <> id).
  { intros <-. assert (next_uuid m < next_uuid m)%nat by (apply (inv_fresh m Hinv); eauto). lia. }
  destruct ev as [sy ex iv fd td kw | j env | j | j]; simpl in Hev |- *.
  - rewrite lookup_insert_ne by done. repeat split.
    rewrite calls_about_app. unfold calls_about at 2. rewrite filter_cons. simpl.
    destruct (decide (next_uuid m = id)); [contradiction |]. apply app_nil_r.
  - assert (Hne : j <> id) by congruence.
    unfold start_job. destruct (jobs m !! j); [| auto].
    destruct (active_jobs m !! j); [auto |]. simpl.
    rewrite !lookup_insert_ne by done. repeat split.
    rewrite calls_about_app. unfold calls_about at 2. rewrite filter_cons. simpl.
    destruct (decide (j = id)); [contradiction |]. apply app_nil_r.
  - assert (Hne : j <> id) by congruence.
    unfold cancel_job. destruct (active_jobs m !! j); [| auto].
    destruct (jobs m !! j); simpl; rewrite ?lookup_insert_ne by done; repeat split.
    rewrite calls_about_app. unfold calls_about at 2. rewrite filter_cons. simpl.
    destruct (decide (j = id)); [contradiction |]. apply app_nil_r.
  - assert (Hne : j <> id) by congruence.
    destruct (resume_inv m j)
      as [_ | tj env Htj Hjj Hc Hm | tj env rest Htj Hjj Hc Hm
          | tj jobj env acts job' extra rest Htj Hjj Hm Hc Hrun]; simpl; auto.
    + now rewrite lookup_insert_ne.
    + now rewrite lookup_delete_ne.
    + destruct (run_segment_spec env acts jobj (database m))
        as (job'' & extra' & rest' & Heq & _ & Hextra & _).
      rewrite Hrun in Heq. injection Heq as <- Hex <-. apply app_inv_head in Hex. subst extra'.
      rewrite (inv_job_id m Hinv j jobj Hjj) in Hextra.
      rewrite lookup_insert_ne by done. repeat split.
      * destruct rest; [now rewrite lookup_insert_ne | now rewrite lookup_delete_ne].
      * rewrite calls_about_app, (calls_about_other id j extra Hextra Hne). apply app_nil_r.
Qed.

(** X14. Jobs do not interfere: events that address other jobs, and the
    creation of new jobs, change neither the record of a job, nor its task,
    nor what the persistence collaborator has been told about it. *)
Theorem other_jobs_leave_a_job_alone (evs : list event) (id : nat) (evs' : list event) :
  is_Some (get_job (run new_manager evs) id) ->
  Forall (fun ev => event_job ev <> Some id) evs' ->
  let m := run new_manager evs in
  get_job (run m evs') id = get_job m id /\
  active_jobs (run m evs') !! id = active_jobs m !! id /\
  calls_about id (database (run m evs')) = calls_about id (database m).
Proof.
  intros Hj Hall m. pose proof (reachable_inv evs) as Hinv. fold m in Hinv, Hj.
  unfold get_job in *. clearbody m. revert m Hinv Hj.
  induction Hall as [| ev evs' Hev _ IH]; intros m Hinv Hj; [auto |].
  simpl. destruct (step_leaves_job_alone m ev id Hinv Hj Hev) as (H1 & H2 & H3).
  destruct (IH (step m ev)) as (H1' & H2' & H3').
  - now apply step_inv.
  - now rewrite H1.
  - repeat split; congruence.
Qed.

Lemma other_jobs_leave_a_job_alone_witness :
  get_job (run (run new_manager fetching_run)
             [one_day_job; EvStartJob 1 third_chunk_raises; EvResume 1; EvCancelJob 1]) 0
  = get_job (run new_manager fetching_run) 0.
Proof.
  apply (other_jobs_leave_a_job_alone fetching_run 0
           [one_day_job; EvStartJob 1 third_chunk_raises; EvResume 1; EvCancelJob 1]).
  - vm_compute. eauto.
  - repeat constructor; simpl; discriminate.
Defined.

(** *** RUNNING jobs and their tasks *)

Lemma foldl_status_running (acts : list action) (job : HistoricalDataJob) (db : list db_call) :
  status (foldl (fun st a => apply_action a st) (job, db) acts).1 = RUNNING ->
  terminal_count acts = 0%nat /\ status job = RUNNING.
Proof.
  revert job db. induction acts as [| a acts IH]; intros job db Hs; [auto |].
  cbn [foldl] in Hs. destruct (apply_action a (job, db)) as [job1 db1] eqn:Ha.
  destruct (IH job1 db1 Hs) as [H0 H1]. rewrite terminal_count_cons, H0.
  destruct a; simpl in Ha; injection Ha as <- <-; simpl in *; auto; discriminate.
Qed.

Lemma running_inv_step (m : Manager) (ev : event) :
  manager_inv m -> running_inv m -> running_inv (step m ev).
Proof.
  intros Hinv Hrun id job.
  destruct ev as [sy ex iv fd td kw | j env | j | j]; simpl.
  - rewrite lookup_insert. destruct (decide (next_uuid m = id)) as [<- | Hne].
    + intros [= <-]. discriminate.
    + apply Hrun.
  - unfold start_job. destruct (jobs m !! j) as [jobj |] eqn:Hjj; [| apply Hrun].
    destruct (active_jobs m !! j) as [tj |] eqn:Htj; [apply Hrun |]. simpl.
    rewrite !lookup_insert. destruct (decide (j = id)) as [-> | Hne]; [| apply Hrun].
    intros _ _. eexists. split; [reflexivity |]. split; simpl; eauto.
  - unfold cancel_job. destruct (active_jobs m !! j) as [tj |] eqn:Htj; [| apply Hrun].
    destruct (inv_active m Hinv j) as [jobj Hjj]; [eauto |]. rewrite Hjj. simpl.
    rewrite !lookup_insert. destruct (decide (j = id)) as [-> | Hne]; [| apply Hrun].
    intros [= <-]. discriminate.
  - destruct (resume_inv m j)
      as [_ | tj env Htj Hjj Hc Hm | tj env rest Htj Hjj Hc Hm
          | tj jobj env acts job' extra rest Htj Hjj Hm Hc Hrun']; simpl.
    + apply Hrun.
    + intros Hj Hs. destruct (Hrun id job Hj Hs) as (t & Ht & Hlive).
      rewrite lookup_insert. destruct (decide (j = id)) as [-> | Hne].
      * destruct Hlive as [Hlive _]. congruence.
      * eauto.
    + intros Hj Hs. destruct (Hrun id job Hj Hs) as (t & Ht & Hlive).
      rewrite lookup_delete. destruct (decide (j = id)) as [-> | Hne].
      * destruct Hlive as [Hlive _]. congruence.
      * eauto.
    + rewrite lookup_insert. destruct (decide (j = id)) as [-> | Hne].
      * intros [= <-] Hs.
        destruct (run_segment_prefix env acts (jobj, database m)) as (done & Hacts & Hst & _).
        rewrite Hrun' in Hacts, Hst. simpl in Hacts, Hst.
        assert (Hs' : status (foldl (fun st a => apply_action a st) (jobj, database m) done).1
                      = RUNNING) by now rewrite <- Hst.
        apply foldl_status_running in Hs' as [Hdone Hsj].
        destruct (Hrun id jobj Hjj Hsj) as (t & Ht & _ & Hlive).
        rewrite Htj in Ht. injection Ht as <-.
        assert (Hcount : terminal_count acts = 1%nat).
        { destruct Hlive as [(env0 & Hc0) | (env0 & rest0 & Hc0 & Hone)];
            destruct Hc as [[Hc ->] | Hc]; try congruence.
          apply execute_job_terminal_count. }
        rewrite Hacts, terminal_count_app, Hdone in Hcount.
        destruct rest as [rest |]; [| simpl in Hcount; discriminate].
        eexists. rewrite lookup_insert_eq. split; [reflexivity |].
        split; [reflexivity |]. right. exists env, rest. auto.
      * intros Hj Hs. destruct (Hrun id job Hj Hs) as (t & Ht & Hlive).
        exists t. split; [| exact Hlive].
        destruct rest; [now rewrite lookup_insert_ne | now rewrite lookup_delete_ne].
Qed.

Lemma running_inv_reachable (evs : list event) : running_inv (run new_manager evs).
Proof.
  induction evs as [| ev evs IH] using rev_ind.
  - intros id job H. simpl in H. now rewrite lookup_empty in H.
  - rewrite run_snoc. apply running_inv_step; [apply reachable_inv | exact IH].
Qed.

(** X15. A job is RUNNING exactly when an executor task is registered for
    it that has not been asked to cancel and has its final status update
    still before it; so on a RUNNING job [cancel_job] returns true and
    [start_job] returns false and changes nothing. *)
Theorem running_job_has_live_task (evs : list event) (id : nat) :
  let m := run new_manager evs in
  (job_status m id = Some RUNNING <->
   exists t, active_jobs m !! id = Some t /\ live_task t) /\
  (job_status m id = Some RUNNING ->
   (cancel_job m id).2 = true /\ forall env, start_job m id env = (m, false)).
Proof.
  intros m. pose proof (reachable_inv evs) as Hinv. pose proof (running_inv_reachable evs) as Hrun.
  fold m in Hinv, Hrun.
  assert (Hto : job_status m id = Some RUNNING ->
                exists t, active_jobs m !! id = Some t /\ live_task t).
  { unfold job_status. destruct (jobs m !! id) as [job |] eqn:Hj; [| discriminate].
    intros [= Hs]. now apply (Hrun id job). }
  split; [split; [exact Hto |] |].
  - intros (t & Ht & Hm & Hlive).
    destruct (inv_active m Hinv id) as [job Hj]; [eauto |].
    destruct (inv_task m Hinv id t job Ht Hj) as [_ Hok]. specialize (Hok Hm).
    unfold job_status. rewrite Hj. simpl. f_equal.
    destruct Hlive as [(env & Hc) | (env & rest & Hc & Hone)]; rewrite Hc in Hok; tauto.
  - intros Hs. destruct (Hto Hs) as (t & Ht & _).
    destruct (inv_active m Hinv id) as [job Hj]; [eauto |].
    unfold cancel_job, start_job. rewrite Ht, Hj. auto.
Qed.

Lemma running_job_has_live_task_witness :
  job_status (run new_manager fetching_run) 0 = Some RUNNING /\
  (cancel_job (run new_manager fetching_run) 0).2 = true.
Proof.
  assert (Hs : job_status (run new_manager fetching_run) 0 = Some RUNNING)
    by (vm_compute; reflexivity).
  split; [exact Hs |].
  destruct (running_job_has_live_task fetching_run 0) as [_ Hcancel].
  now destruct (Hcancel Hs).
Defined.

(** *** What the record of a job always satisfies *)

Lemma apply_action_consistent (a : action) (job : HistoricalDataJob) (db : list db_call) :
  job_consistent job -> job_consistent (apply_action a (job, db)).1.
Proof.
  intros [Hc Hf H0 Hn]. unfold result_count in *.
  destruct a; simpl; split; simpl; auto; try discriminate; eauto.
Qed.

Lemma foldl_consistent (acts : list action) (job : HistoricalDataJob) (db : list db_call) :
  job_consistent job ->
  job_consistent (foldl (fun st a => apply_action a st) (job, db) acts).1.
Proof.
  revert job db. induction acts as [| a acts IH]; intros job db Hok; [exact Hok |].
  cbn [foldl]. pose proof (apply_action_consistent a job db Hok) as Hok1.
  destruct (apply_action a (job, db)) as [job1 db1]. now apply IH.
Qed.

Lemma set_status_consistent (s : JobStatus) (job : HistoricalDataJob) :
  s = RUNNING \/ s = CANCELLED -> job_consistent job -> job_consistent (set_status s job).
Proof.
  intros Hs [Hc Hf H0 Hn]. split; simpl; auto; intros ->; destruct Hs; discriminate.
Qed.

Lemma step_consistent (m : Manager) (ev : event) :
  (forall id job, jobs m !! id = Some job -> job_consistent job) ->
  forall id job, jobs (step m ev) !! id = Some job -> job_consistent job.
Proof.
  intros Hall id job.
  destruct ev as [sy ex iv fd td kw | j env | j | j]; simpl.
  - rewrite lookup_insert. destruct (decide (next_uuid m = id)); [| apply Hall].
    intros [= <-]. split; simpl; auto; discriminate.
  - unfold start_job. destruct (jobs m !! j) as [jobj |] eqn:Hjj; [| apply Hall].
    destruct (active_jobs m !! j); [apply Hall |]. simpl.
    rewrite lookup_insert. destruct (decide (j = id)); [| apply Hall].
    intros [= <-]. apply set_status_consistent; eauto.
  - unfold cancel_job. destruct (active_jobs m !! j); [| apply Hall].
    destruct (jobs m !! j) as [jobj |] eqn:Hjj; simpl; [| apply Hall].
    rewrite lookup_insert. destruct (decide (j = id)); [| apply Hall].
    intros [= <-]. apply set_status_consistent; eauto.
  - destruct (resume_inv m j)
      as [_ | tj env Htj Hjj Hc Hm | tj env rest Htj Hjj Hc Hm
          | tj jobj env acts job' extra rest Htj Hjj Hm Hc Hrun']; simpl; try apply Hall.
    rewrite lookup_insert. destruct (decide (j = id)); [| apply Hall].
    intros [= <-].
    destruct (run_segment_prefix env acts (jobj, database m)) as (done & _ & Hst & _).
    rewrite Hrun' in Hst. simpl in Hst.
    change job' with (job', database m ++ extra).1. rewrite Hst.
    apply foldl_consistent. eauto.
Qed.

(** X16. At all times a COMPLETED job has a result and a FAILED job has an
    error message; the [current_chunk] of its progress is never written and
    stays 0, and [candles_fetched] is the size of the stored result, so it
    shows nothing of the chunks of a run that is still fetching. *)
Theorem job_record_is_consistent (evs : list event) (id : nat) (job : HistoricalDataJob) :
  get_job (run new_manager evs) id = Some job -> job_consistent job.
Proof.
  unfold get_job. revert id job. induction evs as [| ev evs IH] using rev_ind; intros id job.
  - simpl. now rewrite lookup_empty.
  - rewrite run_snoc. now apply step_consistent.
Qed.

Lemma job_record_is_consistent_witness :
  exists job, get_job (run new_manager completed_run) 0 = Some job /\ job_consistent job.
Proof.
  destruct (get_job (run new_manager completed_run) 0) as [job |] eqn:Hj.
  - exists job. split; [reflexivity |].
    apply (job_record_is_consistent completed_run 0 job Hj).
  - vm_compute in Hj. discriminate.
Defined.

(** *** From creation to completion *)

(** X17. A job that is created with dates that parse and for which the
    planner returns chunks, and with extra parameters that do not collide
    with the fetch call, started, and then left to the event loop, is
    COMPLETED after finitely many steps of its task: the registry holds the
    merge of what its chunks contributed, the task has left [active_jobs],
    and the persistence collaborator has received the metadata, the two
    status updates and the result. *)
Theorem created_job_runs_to_completion (evs : list event) (symbol exchange interval : string)
    (start_dt end_dt : datetime) (chunks : list chunk) (kwargs : list (string * string))
    (env : run_env) :
  _generate_chunks start_dt end_dt (_calculate_chunk_duration interval) = Some (inr chunks) ->
  duplicated_argument kwargs = None ->
  let m := run new_manager evs in
  let id := next_uuid m in
  let n := length chunks in
  let merged := _process_data (concat (chunk_contribution env <$> seq 0 n)) in
  exists k,
    let m' := run m (EvCreateJob symbol exchange interval (Some start_dt) (Some end_dt) kwargs
                     :: EvStartJob id env :: replicate k (EvResume id)) in
    job_status m' id = Some COMPLETED /\
    result_data <$> get_job m' id = Some (Some merged) /\
    active_jobs m' !! id = None /\
    database m'
    = database m ++ [DbStoreJobMetadata id; DbUpdateJobStatus id RUNNING None;
                     DbStoreJobData id merged (Z.of_nat n - 1);
                     DbUpdateJobStatus id COMPLETED (Some (length merged))].
Proof.
  intros Hgen Hdup m id n merged. pose proof (reachable_inv evs) as Hinv. fold m in Hinv.
  set (job := {| job_id := id; symbol := symbol; exchange := exchange; interval := interval;
                 from_date := Some start_dt; to_date := Some end_dt;
                 status := PENDING; progress := initial_progress;
                 error_message := None; result_data := None; kwargs := kwargs |}).
  set (m1 := (create_job m symbol exchange interval (Some start_dt) (Some end_dt) kwargs).1).
  assert (Hj : jobs m1 !! id = Some job) by apply lookup_insert_eq.
  assert (Ht : active_jobs m1 !! id = None).
  { simpl. destruct (active_jobs m !! id) eqn:Ha; [| reflexivity].
    assert (id < next_uuid m)%nat by (apply (inv_fresh m Hinv), (inv_active m Hinv); eauto).
    unfold id in *. lia. }
  destruct (started_job_runs_to_end m1 id env job Hj Ht) as (k & Hk1 & Hk2 & Hk3).
  assert (Hplans : plans (set_status RUNNING job) chunks).
  { exists start_dt, end_dt. auto. }
  destruct (execute_job_completes (set_status RUNNING job) env chunks Hplans Hdup)
    as (pre & Hq & Heq).
  destruct (run_to_end_completed (set_status RUNNING job) env pre _ _ Hq Heq)
    as (Hs & Hr & _ & Hdb).
  exists k. intros m'.
  assert (Hm' : m' = run (start_job m1 id env).1 (replicate k (EvResume id))) by reflexivity.
  clearbody m'. subst m'. cbv zeta in Hk1, Hk2, Hk3.
  unfold job_status, get_job. rewrite Hk2, Hk3, Hdb. simpl. rewrite Hs, Hr.
  repeat split; auto. now rewrite <- app_assoc.
Qed.

Lemma created_job_runs_to_completion_witness :
  exists k,
    job_status (run new_manager
                  (EvCreateJob "RELIND" "NSE" "1minute" (Some (naive 0))
                     (Some (naive microseconds_per_day)) []
                   :: EvStartJob 0 third_chunk_raises :: replicate k (EvResume 0))) 0
    = Some COMPLETED.
Proof.
  destruct (created_job_runs_to_completion [] "RELIND" "NSE" "1minute" (naive 0)
              (naive microseconds_per_day) [(naive 0, naive microseconds_per_day)]
              [] third_chunk_raises) as (k & Hs & _).
  - vm_compute. reflexivity.
  - vm_compute. reflexivity.
  - exists k. exact Hs.
Defined.

(** ** The sequential path of [HistoricalDataManager] *)

Lemma chunk_data_of_fetch_single_chunk (r : option response) :
  chunk_data_of (_fetch_single_chunk (FetchReturns r)) = chunk_data_of r.
Proof. destruct r as [resp |]; simpl; [| reflexivity]. now destruct (Success resp) eqn:Hs; simpl; rewrite ?Hs. Qed.

Section SequentialLoop.

Variable client : nat -> option response.
Variable ivl : string.
Variable kwargs : list (string * string).
Variable end_dt : datetime.

(** One turn of the loop. *)
Lemma chunked_loop_turn (cur : datetime) (all_data : list (gmap string string))
    (chunk_num : nat) (requested : list chunk) :
  HistoricalDataManager.chunked_loop client ivl kwargs end_dt cur all_data chunk_num requested
  = match dt_lt cur end_dt with
    | inl exn => HistoricalDataManager.LoopRaises (DateArithmetic exn) requested
    | inr false => HistoricalDataManager.LoopEnds all_data chunk_num requested
    | inr true =>
        match dt_add cur (HistoricalDataManager._calculate_chunk_duration ivl) with
        | inl exn => HistoricalDataManager.LoopRaises (DateArithmetic exn) requested
        | inr next =>
            match dt_min next end_dt with
            | inl exn => HistoricalDataManager.LoopRaises (DateArithmetic exn) requested
            | inr current_end =>
                match multiple_values HistoricalDataManager.single_data_parameters kwargs with
                | Some name =>
                    HistoricalDataManager.LoopRaises (MultipleValuesForArgument name) requested
                | None =>
                    HistoricalDataManager.chunked_loop client ivl kwargs end_dt current_end
                      (all_data ++ chunk_data_of (client (chunk_num - 1)%nat)) (S chunk_num)
                      (requested ++ [(cur, current_end)])
                end
            end
        end
    end.
Proof.
  rewrite HistoricalDataManager.chunked_loop_equation_1.
  inspect_cases. intros [exn | [|]] Hlt; [reflexivity | | reflexivity].
  unfold_clause. unfold_clause.
  inspect_cases. intros [exn | next] Hadd; [reflexivity |].
  unfold_clause. inspect_cases. intros [exn | current_end] Hmin; [reflexivity |].
  unfold_clause.
  now destruct (multiple_values HistoricalDataManager.single_data_parameters kwargs).
Qed.

Hypothesis no_collision :
  multiple_values HistoricalDataManager.single_data_parameters kwargs = None.

(** Without a colliding parameter the loop follows the planner: it requests
    the chunks of the plan in order and appends what they contribute, or it
    raises where the planner raises, after the requests for the chunks
    before. *)
Lemma chunked_loop_follows_planner (cur : datetime) (all_data : list (gmap string string))
    (chunk_num : nat) (requested : list chunk) :
  (1 <= chunk_num)%nat ->
  match generate_chunks_from (_calculate_chunk_duration ivl) end_dt cur with
  | Some (inr cs) =>
      HistoricalDataManager.chunked_loop client ivl kwargs end_dt cur all_data chunk_num requested
      = HistoricalDataManager.LoopEnds
          (all_data ++ concat ((fun i => chunk_data_of (client i))
                                 <$> seq (chunk_num - 1) (length cs)))
          (chunk_num + length cs) (requested ++ cs)
  | Some (inl exn) =>
      exists before,
        HistoricalDataManager.chunked_loop client ivl kwargs end_dt cur all_data chunk_num
          requested
        = HistoricalDataManager.LoopRaises (DateArithmetic exn) (requested ++ before)
  | None => False
  end.
Proof.
  pose proof (chunk_duration_pos ivl) as Hd.
  remember (Z.to_nat (instant end_dt - instant cur)) as n eqn:Hn.
  revert cur all_data chunk_num requested Hn.
  induction n as [n IH] using lt_wf_ind. intros cur all_data chunk_num requested Hn Hnum.
  rewrite chunked_loop_turn, generate_chunks_from_turn by exact Hd.
  change (HistoricalDataManager._calculate_chunk_duration ivl)
    with (_calculate_chunk_duration ivl).
  destruct (dt_lt cur end_dt) as [exn | [|]] eqn:Hlt.
  - exists []. now rewrite app_nil_r.
  - apply dt_lt_true in Hlt as [Haw Hlt].
    destruct (dt_add cur (_calculate_chunk_duration ivl)) as [exn | next] eqn:Hadd.
    { exists []. now rewrite app_nil_r. }
    assert (Hnext : next = shifted cur (_calculate_chunk_duration ivl)).
    { unfold dt_add in Hadd. case_bool_decide; congruence. }
    rewrite dt_min_comparable by (subst next; now rewrite aware_shifted).
    rewrite no_collision.
    set (nxt := earlier next end_dt).
    assert (Hnxt : instant nxt
                   = Z.min (instant cur + _calculate_chunk_duration ivl) (instant end_dt))
      by (unfold nxt; subst next; now rewrite instant_earlier, instant_shifted).
    specialize (IH (Z.to_nat (instant end_dt - instant nxt)) ltac:(lia) nxt
                  (all_data ++ chunk_data_of (client (chunk_num - 1)%nat)) (S chunk_num)
                  (requested ++ [(cur, nxt)]) eq_refl ltac:(lia)).
    destruct (generate_chunks_from (_calculate_chunk_duration ivl) end_dt nxt)
      as [[exn | cs] |]; simpl.
    + destruct IH as (before & ->). exists ((cur, nxt) :: before).
      now rewrite <- app_assoc.
    + rewrite IH. replace (S chunk_num - 1)%nat with (S (chunk_num - 1)) by lia.
      cbn [length seq fmap list_fmap concat]. rewrite <- !app_assoc. f_equal. lia.
    + exact IH.
  - simpl. now rewrite !app_nil_r, Nat.add_0_r.
Qed.

End SequentialLoop.

Lemma answer_after_loop_spec (all_data : list (gmap string string)) (chunk_num : nat) :
  let answer := HistoricalDataManager.answer_after_loop all_data chunk_num in
  HistoricalDataManager.Success answer = _process_data all_data /\
  HistoricalDataManager.Status answer = 200 /\
  HistoricalDataManager.Error answer = None /\
  HistoricalDataManager.chunks_fetched answer = Some (Z.of_nat chunk_num - 1).
Proof.
  unfold HistoricalDataManager.answer_after_loop, _process_data.
  destruct all_data as [| c l]; [auto |]. now destruct (foldl dedupe_step (∅, []) (c :: l)).
Qed.

(** Extra parameters that do not collide with the parameters of
    [_fetch_single_chunk] do not collide with those of [_get_single_data]. *)
Lemma no_collision_single_data (kwargs : list (string * string)) :
  duplicated_argument kwargs = None ->
  multiple_values HistoricalDataManager.single_data_parameters kwargs = None.
Proof.
  unfold duplicated_argument. rewrite !multiple_values_none. intros H key Hkey Hin.
  apply (H key Hkey). unfold HistoricalDataManager.single_data_parameters in Hin.
  unfold fetch_parameters. set_unfold. tauto.
Qed.

Lemma concat_contributions (env : run_env) (client : nat -> option response) (n : nat) :
  (forall i, (i < n)%nat -> fetch env i = FetchReturns (client i)) ->
  concat ((fun i => chunk_data_of (client i)) <$> seq 0 n)
  = concat (chunk_contribution env <$> seq 0 n).
Proof.
  intros Hok. f_equal. apply Forall_fmap_ext_1, Forall_forall. intros i Hi.
  apply list_elem_of_In, in_seq in Hi. unfold chunk_contribution.
  rewrite Hok by lia. now rewrite chunk_data_of_fetch_single_chunk.
Qed.

(** X18. The sequential path and the job engine agree: for the range, the
    interval and the extra parameters of a job that is planned and whose
    extra parameters do not collide with the fetch call, and for collaborators
    that return the same for every chunk, [_get_chunked_data] requests
    exactly the chunks that the job plans, in the same order, and answers
    with status 200 and the series that the job ends with; it reports the
    number of chunks, where the job hands the persistence store one less. *)
Theorem sequential_path_agrees_with_job (job : HistoricalDataJob) (env : run_env)
    (client : nat -> option response) (start_dt end_dt : datetime) (chunks : list chunk) :
  from_date job = Some start_dt -> to_date job = Some end_dt ->
  _generate_chunks start_dt end_dt (_calculate_chunk_duration (interval job))
  = Some (inr chunks) ->
  duplicated_argument (kwargs job) = None ->
  (forall i, (i < length chunks)%nat -> fetch env i = FetchReturns (client i)) ->
  let answer :=
    HistoricalDataManager._get_chunked_data client (interval job) start_dt end_dt
      (kwargs job) in
  answer.2 = chunks /\
  result_data (run_to_end job env).1 = Some (HistoricalDataManager.Success answer.1) /\
  HistoricalDataManager.Status answer.1 = 200 /\
  HistoricalDataManager.Error answer.1 = None /\
  HistoricalDataManager.chunks_fetched answer.1 = Some (Z.of_nat (length chunks)) /\
  (run_to_end job env).2
  = [DbStoreJobData (job_id job) (HistoricalDataManager.Success answer.1)
       (Z.of_nat (length chunks) - 1);
     DbUpdateJobStatus (job_id job) COMPLETED
       (Some (length (HistoricalDataManager.Success answer.1)))].
Proof.
  intros Hfrom Hto Hgen Hdup Hok answer.
  assert (Hplans : plans job chunks) by (exists start_dt, end_dt; auto).
  destruct (execute_job_completes job env chunks Hplans Hdup) as (pre & Hq & Heq).
  destruct (run_to_end_completed job env pre _ _ Hq Heq) as (_ & Hr & _ & Hdb).
  pose proof (chunked_loop_follows_planner client (interval job) (kwargs job) end_dt
                (no_collision_single_data _ Hdup) start_dt [] 1 [] ltac:(lia)) as Hloop.
  unfold _generate_chunks in Hgen. rewrite Hgen in Hloop. simpl in Hloop.
  rewrite (concat_contributions env client _ Hok) in Hloop.
  subst answer. unfold HistoricalDataManager._get_chunked_data. rewrite Hloop.
  destruct (answer_after_loop_spec
              (concat (chunk_contribution env <$> seq 0 (length chunks)))
              (S (length chunks))) as (Hsucc & Hst & Herr & Hn).
  cbn [fst snd]. rewrite Hsucc, Hst, Herr, Hn. repeat split; auto. f_equal. lia.
Qed.

Lemma sequential_path_agrees_with_job_witness :
  let job := sample_job "1minute" (Some (naive 0)) (Some (naive (15 * microseconds_per_day)))
               [] in
  let client := fun i => Some {| Success := Value (five_chunks_data i); Error := Null |} in
  (HistoricalDataManager._get_chunked_data client "1minute"
     (naive 0) (naive (15 * microseconds_per_day)) []).2 = planned_chunks job /\
  result_data (run_to_end job all_chunks_answer).1
  = Some (HistoricalDataManager.Success
            (HistoricalDataManager._get_chunked_data client "1minute"
               (naive 0) (naive (15 * microseconds_per_day)) []).1).
Proof.
  intros job client.
  destruct (sequential_path_agrees_with_job job all_chunks_answer client
              (naive 0) (naive (15 * microseconds_per_day)) (planned_chunks job))
    as (Hreq & Hres & _).
  - reflexivity.
  - reflexivity.
  - vm_compute. reflexivity.
  - reflexivity.
  - intros i _. reflexivity.
  - split; [exact Hreq | exact Hres].
Defined.

(** X19. Where the dates of a range cannot be planned, the sequential path
    gives up.  With extra parameters that do not collide with the request,
    [_get_chunked_data] answers with status 500 exactly when the planner
    raises for the range: the answer then has the text of that exception as
    error, an empty series and no chunk count, whatever the chunks that were
    requested before had returned. *)
Theorem sequential_path_gives_up_on_exception (client : nat -> option response)
    (interval : string) (start_dt end_dt : datetime) (kwargs : list (string * string)) :
  multiple_values HistoricalDataManager.single_data_parameters kwargs = None ->
  let answer :=
    HistoricalDataManager._get_chunked_data client interval start_dt end_dt kwargs in
  (forall exn,
     _generate_chunks start_dt end_dt (_calculate_chunk_duration interval) = Some (inl exn) ->
     answer.1 = {| HistoricalDataManager.Success := [];
                   HistoricalDataManager.Status := 500;
                   HistoricalDataManager.Error :=
                     Some (HistoricalDataManager.ChunkedFetchFailed (DateArithmetic exn));
                   HistoricalDataManager.chunked := true;
                   HistoricalDataManager.chunks_fetched := None |}) /\
  (HistoricalDataManager.Status answer.1 = 500 ->
   exists exn,
     _generate_chunks start_dt end_dt (_calculate_chunk_duration interval) = Some (inl exn)).
Proof.
  intros Hkw answer.
  pose proof (chunked_loop_follows_planner client interval kwargs end_dt Hkw
                start_dt [] 1 [] ltac:(lia)) as Hloop.
  subst answer. unfold HistoricalDataManager._get_chunked_data, _generate_chunks.
  destruct (generate_chunks_from (_calculate_chunk_duration interval) end_dt start_dt)
    as [[exn | cs] |]; [| | contradiction].
  - destruct Hloop as (before & ->). simpl. split; [| eauto].
    intros exn' H. now injection H as <-.
  - rewrite Hloop. split; [discriminate |]. cbn [fst]. intros H.
    match type of H with
    | HistoricalDataManager.Status (HistoricalDataManager.answer_after_loop ?a ?n) = _ =>
        destruct (answer_after_loop_spec a n) as (_ & Hst & _)
    end.
    cbv zeta in Hst. rewrite Hst in H. discriminate.
Qed.

(** The last four days that a [datetime] can hold, in one-minute candles:
    the chunk of the first three days is requested and answered, then the
    next chunk boundary is past [datetime.max]. *)
Lemma sequential_path_gives_up_on_exception_witness :
  let client := fun i => Some {| Success := Value (five_chunks_data i); Error := Null |} in
  let start_dt := naive (datetime_max - 4 * microseconds_per_day) in
  let end_dt := naive datetime_max in
  let answer := HistoricalDataManager._get_chunked_data client "1minute" start_dt end_dt [] in
  answer.2 = [(start_dt, naive (datetime_max - microseconds_per_day))] /\
  HistoricalDataManager.Success answer.1 = [] /\
  HistoricalDataManager.Status answer.1 = 500.
Proof.
  intros client start_dt end_dt answer.
  destruct (sequential_path_gives_up_on_exception client "1minute" start_dt end_dt [])
    as [Hraises _]; [reflexivity |].
  fold answer in Hraises. rewrite (Hraises OverflowError) by (vm_compute; reflexivity).
  split; [vm_compute; reflexivity |]. split; reflexivity.
Defined.

(** ** The parameters of a request *)

Ltac in_list := repeat first [apply list_elem_of_here | apply list_elem_of_further].

Ltac map_lookup :=
  repeat first
    [ rewrite lookup_insert_eq
    | rewrite lookup_insert_ne by discriminate
    | rewrite lookup_singleton_eq
    | rewrite lookup_singleton_ne by discriminate
    | rewrite lookup_delete_eq
    | rewrite lookup_delete_ne by discriminate
    | rewrite lookup_empty ].

Lemma single_data_params_unfold (symbol : option string) (exchange interval : string)
    (from_date to_date : option string) (kwargs : gmap string string) :
  HistoricalDataManager._get_single_data_params symbol exchange interval from_date to_date kwargs
  = let params : gmap string (option string) :=
      {[ "interval" := Some interval; "from_date" := from_date; "to_date" := to_date;
         "stock_code" := symbol; "exchange_code" := Some exchange ]} in
    if HistoricalDataManager.is_in exchange ["NFO"; "BFO"]
    then derivative_block (kwargs !! "product_type") (kwargs !! "right")
           (kwargs !! "expiry_date") (kwargs !! "strike_price") params
    else params.
Proof. reflexivity. Qed.

Lemma get_historical_data_params_unfold (kwargs : gmap string string)
    (days_range : string * string) :
  TradingSystem.get_historical_data_params kwargs days_range
  = let params : gmap string (option string) :=
      {[ "symbol" := kwargs !! "stock_code";
         "exchange" := Some (default "NSE" (kwargs !! "exchange_code"));
         "interval" := Some (default "1day" (kwargs !! "interval"));
         "from_date" := (core_dates kwargs days_range).1;
         "to_date" := (core_dates kwargs days_range).2 ]} in
    if HistoricalDataManager.is_in (default "NSE" (kwargs !! "exchange_code")) ["NFO"; "BFO"]
    then derivative_block (kwargs !! "product_type") (kwargs !! "right")
           (kwargs !! "expiry_date") (kwargs !! "strike_price") params
    else params.
Proof.
  unfold TradingSystem.get_historical_data_params, core_dates.
  now destruct (bool_decide _ && negb _).
Qed.

Section DerivativeBlock.

Variables product_type right_ expiry_date strike_price : option string.
Variable params : gmap string (option string).

Lemma derivative_block_product_type :
  derivative_block product_type right_ expiry_date strike_price params !! "product_type"
  = Some (Some (chosen_product_type product_type right_)).
Proof.
  unfold derivative_block, chosen_product_type.
  destruct product_type as [p |], right_ as [r |], expiry_date, strike_price;
    repeat match goal with
           | |- context [HistoricalDataManager.is_in ?x ?l] =>
               destruct (HistoricalDataManager.is_in x l)
           end; map_lookup; reflexivity.
Qed.

Lemma derivative_block_right :
  derivative_block product_type right_ expiry_date strike_price params !! "right"
  = match right_ with
    | Some r => Some (Some (api_right r))
    | None => params !! "right"
    end.
Proof.
  unfold derivative_block, api_right.
  destruct product_type as [p |], right_ as [r |], expiry_date, strike_price;
    repeat match goal with
           | |- context [HistoricalDataManager.is_in ?x ?l] =>
               destruct (HistoricalDataManager.is_in x l)
           end; map_lookup; reflexivity.
Qed.

Lemma derivative_block_expiry_date :
  derivative_block product_type right_ expiry_date strike_price params !! "expiry_date"
  = match expiry_date with
    | Some v => Some (Some v)
    | None => params !! "expiry_date"
    end.
Proof.
  unfold derivative_block.
  destruct product_type as [p |], right_ as [r |], expiry_date, strike_price;
    repeat match goal with
           | |- context [HistoricalDataManager.is_in ?x ?l] =>
               destruct (HistoricalDataManager.is_in x l)
           end; map_lookup; reflexivity.
Qed.

Lemma derivative_block_strike_price :
  derivative_block product_type right_ expiry_date strike_price params !! "strike_price"
  = match strike_price with
    | Some v => Some (Some v)
    | None => params !! "strike_price"
    end.
Proof.
  unfold derivative_block.
  destruct product_type as [p |], right_ as [r |], expiry_date, strike_price;
    repeat match goal with
           | |- context [HistoricalDataManager.is_in ?x ?l] =>
               destruct (HistoricalDataManager.is_in x l)
           end; map_lookup; reflexivity.
Qed.

Lemma derivative_block_other (key : string) :
  key <> "product_type" -> key <> "right" -> key <> "expiry_date" -> key <> "strike_price" ->
  derivative_block product_type right_ expiry_date strike_price params !! key = params !! key.
Proof.
  intros H1 H2 H3 H4. unfold derivative_block.
  destruct product_type as [p |], right_ as [r |], expiry_date, strike_price;
    repeat match goal with
           | |- context [HistoricalDataManager.is_in ?x ?l] =>
               destruct (HistoricalDataManager.is_in x l)
           end; rewrite ?lookup_insert_ne by congruence; reflexivity.
Qed.

End DerivativeBlock.

Lemma chosen_product_type_cases (product_type right_ : option string) :
  chosen_product_type product_type right_ = "options" \/
  chosen_product_type product_type right_ = "futures".
Proof.
  unfold chosen_product_type.
  destruct product_type as [p |], right_ as [r |];
    repeat match goal with
           | |- context [HistoricalDataManager.is_in ?x ?l] =>
               destruct (HistoricalDataManager.is_in x l) eqn:?
           end; auto;
    match goal with
    | H : HistoricalDataManager.is_in p _ = true |- _ =>
        apply bool_decide_eq_true in H;
        repeat (apply elem_of_cons in H as [-> | H]; auto); now apply elem_of_nil in H
    end.
Qed.

Lemma api_right_cases (right_ : string) :
  api_right right_ = "call" \/ api_right right_ = "put" \/ api_right right_ = "others".
Proof.
  unfold api_right.
  destruct (HistoricalDataManager.is_in right_ ["CE"; "call"]); auto.
  destruct (HistoricalDataManager.is_in right_ ["PE"; "put"]); auto.
Qed.

(** X20. The request that [_get_single_data] builds always carries the
    five base fields.  For the exchanges NFO and BFO it carries a product
    type that is ['options'] or ['futures'] whatever the caller passed, the
    expiry date and the strike price of the caller, and the right, when one
    was given, as ['call'], ['put'] or ['others'].  For every other exchange
    it carries the base fields only: no derivative parameter of the caller
    reaches the API client. *)
Theorem single_data_request_parameters (symbol : option string) (exchange interval : string)
    (from_date to_date : option string) (kwargs : gmap string string) :
  let params :=
    HistoricalDataManager._get_single_data_params symbol exchange interval
      from_date to_date kwargs in
  params !! "interval" = Some (Some interval) /\
  params !! "from_date" = Some from_date /\
  params !! "to_date" = Some to_date /\
  params !! "stock_code" = Some symbol /\
  params !! "exchange_code" = Some (Some exchange) /\
  (if HistoricalDataManager.is_in exchange ["NFO"; "BFO"]
   then
     (params !! "product_type" = Some (Some "options") \/
      params !! "product_type" = Some (Some "futures")) /\
     params !! "expiry_date" = Some <$> kwargs !! "expiry_date" /\
     params !! "strike_price" = Some <$> kwargs !! "strike_price" /\
     match kwargs !! "right" with
     | Some _ =>
         params !! "right" = Some (Some "call") \/ params !! "right" = Some (Some "put") \/
         params !! "right" = Some (Some "others")
     | None => params !! "right" = None
     end
   else
     forall key, is_Some (params !! key) ->
       key ∈ ["interval"; "from_date"; "to_date"; "stock_code"; "exchange_code"]).
Proof.
  intros params. subst params. rewrite single_data_params_unfold. cbv zeta.
  destruct (HistoricalDataManager.is_in exchange ["NFO"; "BFO"]).
  - rewrite !derivative_block_other by discriminate.
    rewrite derivative_block_product_type, derivative_block_expiry_date,
      derivative_block_strike_price, derivative_block_right.
    map_lookup. repeat split.
    + destruct (chosen_product_type_cases (kwargs !! "product_type") (kwargs !! "right"))
        as [-> | ->]; auto.
    + destruct (kwargs !! "right") as [r |]; [| reflexivity].
      destruct (api_right_cases r) as [-> | [-> | ->]]; auto.
  - map_lookup. repeat split. intros key [v Hv].
    repeat (apply lookup_insert_Some in Hv as [[<- _] | [_ Hv]];
            [in_list |]).
    apply lookup_singleton_Some in Hv as [<- _]. in_list.
Qed.

Lemma single_data_request_parameters_witness :
  let params :=
    HistoricalDataManager._get_single_data_params (Some "RELIND") "NSE" "1day"
      (Some "2024-01-01T00:00:00.000Z") (Some "2024-01-31T00:00:00.000Z")
      {[ "product_type" := "cash"; "right" := "CE" ]} in
  is_Some (params !! "stock_code") /\
  "stock_code" ∈ ["interval"; "from_date"; "to_date"; "stock_code"; "exchange_code"] /\
  params !! "product_type" = None.
Proof.
  intros params.
  assert (Hs : is_Some (params !! "stock_code")) by (vm_compute; eauto).
  split; [exact Hs |]. split; [| vm_compute; reflexivity].
  destruct (single_data_request_parameters (Some "RELIND") "NSE" "1day"
              (Some "2024-01-01T00:00:00.000Z") (Some "2024-01-31T00:00:00.000Z")
              {[ "product_type" := "cash"; "right" := "CE" ]}) as (_ & _ & _ & _ & _ & Hrest).
  exact (Hrest "stock_code" Hs).
Defined.

(** The block, applied to what it has chosen itself, chooses the same. *)
Lemma derivative_block_normalised (product_type right_ expiry_date strike_price : option string)
    (params : gmap string (option string)) :
  derivative_block (Some (chosen_product_type product_type right_)) (api_right <$> right_)
    expiry_date strike_price params
  = derivative_block product_type right_ expiry_date strike_price params.
Proof.
  unfold derivative_block, chosen_product_type, api_right.
  destruct product_type as [p |], right_ as [r |]; simpl;
    repeat match goal with
           | |- context [HistoricalDataManager.is_in p ?l] =>
               destruct (HistoricalDataManager.is_in p l) eqn:?
           | |- context [HistoricalDataManager.is_in r ?l] =>
               destruct (HistoricalDataManager.is_in r l) eqn:?
           end;
    repeat match goal with
           | H : HistoricalDataManager.is_in ?x ?l = _ |- context [HistoricalDataManager.is_in ?x ?l] =>
               rewrite H
           end; first [discriminate | reflexivity].
Qed.

Lemma get_data_kwargs_lookup (params : gmap string (option string)) (key : string) :
  key <> "symbol" -> key <> "exchange" -> key <> "interval" -> key <> "from_date" ->
  key <> "to_date" ->
  TradingSystem.get_data_kwargs params !! key = params !! key ≫= id.
Proof.
  intros. unfold TradingSystem.get_data_kwargs.
  rewrite lookup_omap. now rewrite !lookup_delete_ne by congruence.
Qed.

(** X21. A request that goes through [TradingSystem.get_historical_data]
    reaches the API client with the parameters that [_get_single_data] would
    build from the caller's own arguments: the derivative parameters are
    worked out twice on the way, and the second time changes nothing. *)
Theorem request_through_core_is_normalised_once (kwargs : gmap string string)
    (days_range : string * string) (from_date to_date : option string) :
  TradingSystem.api_params kwargs days_range from_date to_date
  = HistoricalDataManager._get_single_data_params
      (kwargs !! "stock_code")
      (default "NSE" (kwargs !! "exchange_code"))
      (default "1day" (kwargs !! "interval"))
      from_date to_date kwargs.
Proof.
  unfold TradingSystem.api_params. rewrite get_historical_data_params_unfold. cbv zeta.
  set (exchange := default "NSE" (kwargs !! "exchange_code")).
  set (base := ({[ "symbol" := kwargs !! "stock_code"; "exchange" := Some exchange;
                   "interval" := Some (default "1day" (kwargs !! "interval"));
                   "from_date" := (core_dates kwargs days_range).1;
                   "to_date" := (core_dates kwargs days_range).2 ]}
                : gmap string (option string))).
  assert (Hbase : base !! "symbol" = Some (kwargs !! "stock_code") /\
                  base !! "exchange" = Some (Some exchange) /\
                  base !! "interval" = Some (Some (default "1day" (kwargs !! "interval"))) /\
                  base !! "product_type" = None /\ base !! "right" = None /\
                  base !! "expiry_date" = None /\ base !! "strike_price" = None).
  { unfold base. map_lookup. repeat split. }
  destruct Hbase as (Hb1 & Hb2 & Hb3 & Hb6 & Hb7 & Hb8 & Hb9).
  rewrite !single_data_params_unfold. cbv zeta.
  destruct (HistoricalDataManager.is_in exchange ["NFO"; "BFO"]) eqn:Hex.
  - rewrite !derivative_block_other by discriminate.
    rewrite Hb1, Hb2, Hb3. simpl. rewrite Hex.
    rewrite !get_data_kwargs_lookup by discriminate.
    rewrite derivative_block_product_type, derivative_block_right,
      derivative_block_expiry_date, derivative_block_strike_price.
    rewrite Hb7, Hb8, Hb9.
    replace (match kwargs !! "right" with
             | Some r => Some (Some (api_right r))
             | None => None
             end ≫= id) with (api_right <$> kwargs !! "right")
      by (now destruct (kwargs !! "right")).
    replace (match kwargs !! "expiry_date" with
             | Some v => Some (Some v)
             | None => None
             end ≫= id) with (kwargs !! "expiry_date")
      by (now destruct (kwargs !! "expiry_date")).
    replace (match kwargs !! "strike_price" with
             | Some v => Some (Some v)
             | None => None
             end ≫= id) with (kwargs !! "strike_price")
      by (now destruct (kwargs !! "strike_price")).
    simpl. apply derivative_block_normalised.
  - rewrite Hb1, Hb2, Hb3. simpl. now rewrite Hex.
Qed.

(** ** The job endpoint *)

Lemma endpoint_kwargs_keys (request : HistoricalJobRequest) (key : string) :
  key ∈ (create_historical_job_kwargs request).*1 ->
  key ∈ ["product_type"; "expiry_date"; "strike_price"; "right"].
Proof.
  unfold create_historical_job_kwargs.
  destruct (req_product_type request) as [v1 |]; [destruct (negb (String.eqb v1 "")) |];
    (destruct (req_expiry_date request) as [v2 |]; [destruct (negb (String.eqb v2 "")) |]);
    (destruct (req_strike_price request) as [v3 |]; [destruct (negb (String.eqb v3 "")) |]);
    (destruct (req_right request) as [v4 |]; [destruct (negb (String.eqb v4 "")) |]);
    simpl; intros Hkey; set_unfold; tauto.
Qed.

Lemma endpoint_kwargs_do_not_collide (request : HistoricalJobRequest) :
  duplicated_argument (create_historical_job_kwargs request) = None.
Proof.
  unfold duplicated_argument. apply multiple_values_none.
  intros key Hkey Hin. apply endpoint_kwargs_keys in Hkey.
  unfold fetch_parameters in Hin. set_unfold.
  destruct Hkey as [-> | [-> | [-> | [-> | []]]]];
    repeat (destruct Hin as [Hin | Hin]; [discriminate |]); exact Hin.
Qed.

(** X22. The extra parameters that the job endpoint of the server builds
    from a request never carry the name of a parameter of the fetch call, so
    a job that is created through the endpoint and whose dates parse and can
    be planned does not fail: it ends COMPLETED, with the merge of what its
    chunks contributed. *)
Theorem endpoint_job_completes (request : HistoricalJobRequest) (job : HistoricalDataJob)
    (env : run_env) :
  kwargs job = create_historical_job_kwargs request ->
  duplicated_argument (kwargs job) = None /\
  (plannable job ->
   status (run_to_end job env).1 = COMPLETED /\
   result_data (run_to_end job env).1
   = Some (_process_data
             (concat (chunk_contribution env <$> seq 0 (length (planned_chunks job)))))).
Proof.
  intros Hkw.
  assert (Hdup : duplicated_argument (kwargs job) = None)
    by (rewrite Hkw; apply endpoint_kwargs_do_not_collide).
  split; [exact Hdup |]. intros Hplan.
  destruct (plannable_plans job Hplan) as (chunks & Hplans).
  rewrite (plans_planned_chunks job chunks Hplans).
  destruct (execute_job_completes job env chunks Hplans Hdup) as (pre & Hq & Heq).
  destruct (run_to_end_completed job env pre _ _ Hq Heq) as (Hs & Hr & _). auto.
Qed.

Lemma endpoint_job_completes_witness :
  let request := {| req_product_type := Some "options"; req_expiry_date := Some "2024-01-25";
                    req_strike_price := Some ""; req_right := Some "CE" |} in
  let job := sample_job "1minute" (Some (naive 0)) (Some (naive (15 * microseconds_per_day)))
               (create_historical_job_kwargs request) in
  kwargs job = [("product_type", "options"); ("expiry_date", "2024-01-25"); ("right", "CE")] /\
  status (run_to_end job third_chunk_raises).1 = COMPLETED.
Proof.
  intros request job. split; [reflexivity |].
  destruct (endpoint_job_completes request job third_chunk_raises) as (_ & Hrun);
    [reflexivity |].
  destruct Hrun as (Hs & _); [| exact Hs].
  exists (naive 0), (naive (15 * microseconds_per_day)).
  repeat split; vm_compute; intros; discriminate.
Defined.

(** ** Dates on the way from the facade to [get_data] *)

Lemma get_data_with_dates (interval : string) (days : Z)
    (from_parsed to_parsed : option datetime) (now : datetime) (name : string) :
  get_data interval days (DateText from_parsed) (DateText to_parsed) now
  <> ReturnsNone (UnboundLocalError name).
Proof.
  unfold get_data. simpl. destruct from_parsed as [start_dt |], to_parsed as [end_dt |];
    try discriminate.
  unfold dt_sub. case_bool_decide; [| discriminate].
  destruct (_estimate_candles _ _) as [e | estimated] eqn:Hest.
  - unfold _estimate_candles, int_of_float in Hest.
    destruct (String.eqb interval "1day");
      match type of Hest with
      | match ?x with _ => _ end = _ => destruct x; congruence
      end.
  - now destruct (950 <? _).
Qed.

Lemma get_data_without_a_date (interval : string) (days : Z) (from_date to_date : date_argument)
    (now : datetime) :
  from_date = NoDate \/ to_date = NoDate ->
  get_data interval days from_date to_date now = ReturnsNone (UnboundLocalError "datetime").
Proof. intros [-> | ->]; [| destruct from_date]; reflexivity. Qed.

Lemma date_argument_of_falsy (parse : string -> option datetime) (text : option string) :
  TradingSystem.truthy_text text = false -> TradingSystem.date_argument_of parse text = NoDate.
Proof.
  destruct text as [s |]; simpl; [| reflexivity].
  destruct (String.eqb s ""); [reflexivity | discriminate].
Qed.

(** X23. Through [TradingSystem.get_historical_data] the [days] form of a
    request works: when [days] is given and [from_date] is not, the facade
    fills in both dates itself, and [get_data] does not fail on its unbound
    name.  Without [days], a request that lacks one of the two dates is
    handed on as it is and [get_data] returns [None] for it. *)
Theorem facade_fills_in_dates_only_for_days (parse : string -> option datetime)
    (kwargs : gmap string string) (days_range : string * string) (now : datetime) :
  (is_Some (kwargs !! "days") ->
   TradingSystem.truthy_text (kwargs !! "from_date") = false ->
   days_range.1 <> "" -> days_range.2 <> "" ->
   forall name,
     TradingSystem.get_historical_data parse kwargs days_range now
     <> ReturnsNone (UnboundLocalError name)) /\
  (kwargs !! "days" = None ->
   TradingSystem.truthy_text (kwargs !! "from_date") = false \/
   TradingSystem.truthy_text (kwargs !! "to_date") = false ->
   TradingSystem.get_historical_data parse kwargs days_range now
   = ReturnsNone (UnboundLocalError "datetime")).
Proof.
  unfold TradingSystem.get_historical_data. rewrite get_historical_data_params_unfold. cbv zeta.
  set (base := ({[ "symbol" := kwargs !! "stock_code";
                   "exchange" := Some (default "NSE" (kwargs !! "exchange_code"));
                   "interval" := Some (default "1day" (kwargs !! "interval"));
                   "from_date" := (core_dates kwargs days_range).1;
                   "to_date" := (core_dates kwargs days_range).2 ]}
                : gmap string (option string))).
  assert (Hbase : base !! "interval" = Some (Some (default "1day" (kwargs !! "interval"))) /\
                  base !! "from_date" = Some (core_dates kwargs days_range).1 /\
                  base !! "to_date" = Some (core_dates kwargs days_range).2).
  { unfold base. map_lookup. repeat split. }
  destruct Hbase as (Hb1 & Hb2 & Hb3).
  assert (Hlook : forall key, key = "interval" \/ key = "from_date" \/ key = "to_date" ->
            (if HistoricalDataManager.is_in (default "NSE" (kwargs !! "exchange_code"))
                  ["NFO"; "BFO"]
             then derivative_block (kwargs !! "product_type") (kwargs !! "right")
                    (kwargs !! "expiry_date") (kwargs !! "strike_price") base
             else base) !! key = base !! key).
  { intros key Hkey. destruct (HistoricalDataManager.is_in _ _); [| reflexivity].
    apply derivative_block_other; destruct Hkey as [-> | [-> | ->]]; discriminate. }
  rewrite !Hlook by auto. rewrite Hb1, Hb2, Hb3. simpl. unfold core_dates. split.
  - intros Hdays Hfrom H1 H2 name. rewrite Hfrom, (bool_decide_eq_true_2 _ Hdays). simpl.
    destruct (String.eqb_spec days_range.1 ""); [contradiction |].
    destruct (String.eqb_spec days_range.2 ""); [contradiction |].
    apply get_data_with_dates.
  - intros Hdays Hdate. rewrite Hdays.
    rewrite bool_decide_eq_false_2 by (intros [? ?]; discriminate). simpl.
    apply get_data_without_a_date.
    destruct Hdate as [H | H]; [left | right]; now apply date_argument_of_falsy.
Qed.

Lemma facade_fills_in_dates_only_for_days_witness :
  TradingSystem.get_historical_data (fun _ => Some (naive 0)) {[ "stock_code" := "RELIND" ]}
    ("2024-01-01T00:00:00.000Z", "2024-01-31T00:00:00.000Z") (naive 0)
  = ReturnsNone (UnboundLocalError "datetime").
Proof.
  apply (facade_fills_in_dates_only_for_days (fun _ => Some (naive 0))
           {[ "stock_code" := "RELIND" ]}
           ("2024-01-01T00:00:00.000Z", "2024-01-31T00:00:00.000Z") (naive 0)).
  - reflexivity.
  - left. reflexivity.
Defined.

(** ** Order validation *)

Section FloatOrder.

Lemma SFeqb_refl_finite (s : bool) (m : positive) (e : Z) :
  SFeqb (S754_finite s m e) (S754_finite s m e) = true.
Proof.
  unfold SFeqb, SFcompare. rewrite Z.compare_refl, Pos.compare_cont_refl. now destruct s.
Qed.

(** A float passes the two tests of the price, [not price] and
    [price <= 0], exactly when it is above zero or a NaN. *)
Lemma float_price_passes (x : float) :
  PrimFloat.eqb x PrimFloat.zero = false /\ PrimFloat.leb x PrimFloat.zero = false
  <-> PrimFloat.ltb PrimFloat.zero x = true \/ PrimFloat.is_nan x = true.
Proof.
  unfold PrimFloat.is_nan.
  rewrite !FloatAxioms.eqb_spec, FloatAxioms.leb_spec, FloatAxioms.ltb_spec.
  change (Prim2SF PrimFloat.zero) with (S754_zero false).
  destruct (Prim2SF x) as [s | s | | s m e].
  - cbn. split; [intros [? _]; discriminate | intros [? | ?]; discriminate].
  - destruct s; cbn.
    + split; [intros [_ ?]; discriminate | intros [? | ?]; discriminate].
    + split; [now left | now split].
  - cbn. split; [now right | now split].
  - rewrite SFeqb_refl_finite. destruct s; cbn.
    + split; [intros [_ ?]; discriminate | intros [? | ?]; discriminate].
    + split; [now left | now split].
Qed.

End FloatOrder.

Lemma limit_price_passes_spec (price : OrderManager.pyvalue) :
  OrderManager.py_not price = false /\ OrderManager.le_zero price = Some false
  <-> OrderManager.limit_price_passes price.
Proof.
  destruct price as [| s | n | x]; simpl.
  - split; [intros [? _]; discriminate | contradiction].
  - split; [intros [_ ?]; discriminate | contradiction].
  - rewrite Z.eqb_neq. split.
    + intros [_ [= H]]. apply Z.leb_gt in H. exact H.
    + intros H. split; [lia |]. f_equal. apply Z.leb_gt. exact H.
  - rewrite <- float_price_passes. split; intros [H1 H2]; split; congruence.
Qed.

Lemma required_fields_spec (order_params : gmap string OrderManager.pyvalue) :
  forallb (fun field => bool_decide (is_Some (order_params !! field)))
    OrderManager.required_fields = true
  <-> forall field, field ∈ OrderManager.required_fields -> is_Some (order_params !! field).
Proof.
  rewrite forallb_forall. split.
  - intros H field Hf. apply list_elem_of_In, H in Hf. now apply bool_decide_eq_true in Hf.
  - intros H field Hf. apply bool_decide_eq_true, H, list_elem_of_In, Hf.
Qed.

Lemma is_in_spec (v : OrderManager.pyvalue) (l : list string) :
  OrderManager.is_in v l = true <-> exists s, v = OrderManager.PStr s /\ s ∈ l.
Proof.
  destruct v as [| s | n | x]; simpl; try (split; [discriminate | intros (? & ? & _); discriminate]).
  rewrite bool_decide_eq_true. split; [eauto | intros (s' & [= ->] & H); exact H].
Qed.

Lemma is_text_spec (v : OrderManager.pyvalue) (text : string) :
  OrderManager.is_text v text = true <-> v = OrderManager.PStr text.
Proof.
  destruct v as [| s | n | x]; simpl; try (split; discriminate).
  destruct (String.eqb_spec s text); split; congruence.
Qed.

Lemma item_Some (order_params : gmap string OrderManager.pyvalue) (key : string)
    (v : OrderManager.pyvalue) :
  is_Some (order_params !! key) -> OrderManager.item order_params key = v ->
  order_params !! key = Some v.
Proof. unfold OrderManager.item. intros [w ->] <-. reflexivity. Qed.

(** What [validate_order] does, by the order it is given. *)
Lemma validate_order_cases (order_params : gmap string OrderManager.pyvalue) :
  let '(order_params', r) := OrderManager.validate_order order_params in
  (r = OrderManager.ReturnsParams ->
   exists with_product,
     (forall field, field ∈ OrderManager.required_fields -> is_Some (order_params !! field)) /\
     ((order_params !! "product" = None /\
       exists product, product ∈ OrderManager.valid_products /\
         with_product = <["product" := OrderManager.PStr product]> order_params) \/
      ((exists product, order_params !! "product" = Some (OrderManager.PStr product) /\
          product ∈ OrderManager.valid_products) /\
       with_product = order_params)) /\
     (order_params !! "action" = Some (OrderManager.PStr "buy") \/
      order_params !! "action" = Some (OrderManager.PStr "sell")) /\
     ((order_params !! "order_type" = Some (OrderManager.PStr "market") /\
       order_params' = <["price" := OrderManager.PInt 0]> with_product) \/
      (order_params !! "order_type" = Some (OrderManager.PStr "limit") /\
       order_params' = with_product /\
       exists price, order_params !! "price" = Some price /\
                     OrderManager.limit_price_passes price))).
Proof.
  unfold OrderManager.validate_order.
  destruct (forallb _ OrderManager.required_fields) eqn:Hreq; simpl; [| discriminate].
  pose proof (proj1 (required_fields_spec order_params) Hreq) as Hkey.
  set (checked := match order_params !! "product" with
                  | Some product =>
                      if negb (OrderManager.is_in product OrderManager.valid_products)
                      then None else Some order_params
                  | None =>
                      if OrderManager.is_in (OrderManager.item order_params "exchange_code")
                           ["NFO"; "BFO"]
                      then Some (<["product" := OrderManager.PStr "futures"]> order_params)
                      else Some (<["product" := OrderManager.PStr "cash"]> order_params)
                  end).
  assert (Hchecked :
            checked = None \/
            exists with_product, checked = Some with_product /\
              (forall key, key <> "product" -> with_product !! key = order_params !! key) /\
              ((order_params !! "product" = None /\
                exists product, product ∈ OrderManager.valid_products /\
                  with_product = <["product" := OrderManager.PStr product]> order_params) \/
               ((exists product, order_params !! "product" = Some (OrderManager.PStr product) /\
                   product ∈ OrderManager.valid_products) /\
                with_product = order_params))).
  { unfold checked. destruct (order_params !! "product") as [product |] eqn:Hp.
    - destruct (OrderManager.is_in product OrderManager.valid_products) eqn:Hin; simpl; [| auto].
      right. exists order_params. split; [reflexivity |]. split; [reflexivity |]. right.
      apply is_in_spec in Hin as (s & -> & Hs). eauto.
    - right. destruct (OrderManager.is_in _ _); eexists; (split; [reflexivity |]);
        (split; [intros key Hk; now rewrite lookup_insert_ne |]); left;
        (split; [reflexivity |]); eexists; (split; [| reflexivity]);
        unfold OrderManager.valid_products; in_list. }
  destruct Hchecked as [-> | (wp & -> & Hsame & Hprod)]; [discriminate |].
  assert (Hitem : forall key, key <> "product" ->
                              OrderManager.item wp key = OrderManager.item order_params key).
  { intros key Hk. unfold OrderManager.item. now rewrite Hsame. }
  rewrite !Hitem by discriminate.
  destruct (OrderManager.is_in (OrderManager.item order_params "order_type") ["limit"; "market"])
    eqn:Htype; simpl; [| discriminate].
  destruct (OrderManager.is_in (OrderManager.item order_params "action") ["buy"; "sell"])
    eqn:Haction; simpl; [| discriminate].
  assert (Hact : order_params !! "action" = Some (OrderManager.PStr "buy") \/
                 order_params !! "action" = Some (OrderManager.PStr "sell")).
  { apply is_in_spec in Haction as (s & Hs & Hin).
    apply item_Some in Hs; [| apply Hkey; unfold OrderManager.required_fields; in_list].
    apply elem_of_cons in Hin as [-> | Hin]; [now left |].
    apply elem_of_cons in Hin as [-> | Hin]; [now right | now apply elem_of_nil in Hin]. }
  assert (Hot : is_Some (order_params !! "order_type"))
    by (apply Hkey; unfold OrderManager.required_fields; in_list).
  destruct (OrderManager.is_text (OrderManager.item order_params "order_type") "market")
    eqn:Hmarket.
  - intros _. exists wp. apply is_text_spec, item_Some in Hmarket; [| exact Hot]. auto 10.
  - destruct (OrderManager.is_text (OrderManager.item order_params "order_type") "limit")
      eqn:Hlimit.
    + apply is_text_spec, item_Some in Hlimit; [| exact Hot].
      rewrite Hsame by discriminate.
      destruct (OrderManager.py_not (default (OrderManager.PInt 0) (order_params !! "price")))
        eqn:Hnot; [discriminate |].
      destruct (OrderManager.le_zero (default (OrderManager.PInt 0) (order_params !! "price")))
        as [[|] |] eqn:Hle; try discriminate.
      intros _. exists wp. repeat split; auto. right. repeat split; auto.
      destruct (order_params !! "price") as [price |] eqn:Hprice; simpl in *.
      * exists price. split; [reflexivity |]. now apply limit_price_passes_spec.
      * discriminate.
    + exfalso. apply is_in_spec in Htype as (s & Hs & Hin).
      rewrite Hs in Hmarket, Hlimit. simpl in *.
      apply elem_of_cons in Hin as [-> | Hin]; [discriminate |].
      apply elem_of_cons in Hin as [-> | Hin]; [discriminate | now apply elem_of_nil in Hin].
Qed.

Lemma is_in_text (s : string) (l : list string) :
  s ∈ l -> OrderManager.is_in (OrderManager.PStr s) l = true.
Proof. intros H. apply is_in_spec. eauto. Qed.

(** An order that satisfies [validated] passes, and is left as it is. *)
Lemma validated_accepts (order_params : gmap string OrderManager.pyvalue) :
  OrderManager.validated order_params ->
  OrderManager.validate_order order_params = (order_params, OrderManager.ReturnsParams).
Proof.
  intros [Hreq (product & Hp & Hvalid) Hact Hprice]. unfold OrderManager.validate_order.
  rewrite (proj2 (required_fields_spec order_params) Hreq). simpl.
  rewrite Hp, (is_in_text product _ Hvalid). simpl. unfold OrderManager.item.
  assert (Haction : OrderManager.is_in (default OrderManager.PNone (order_params !! "action"))
                      ["buy"; "sell"] = true).
  { destruct Hact as [-> | ->]; reflexivity. }
  rewrite Haction.
  destruct Hprice as [[Hot Hpr] | (Hot & price & Hpr & Hpass)]; rewrite Hot; simpl.
  - now rewrite (insert_id _ _ _ Hpr).
  - rewrite Hpr. simpl. apply limit_price_passes_spec in Hpass as [-> ->]. reflexivity.
Qed.

(** X24. An order that [validate_order] returns has the five required
    fields, a product out of cash, margin, futures and options, the action
    buy or sell, and either the type market with the price 0, whatever price
    came in, or the type limit with a price that is a number above zero or a
    float NaN.  Nothing but the product, when it was missing, and the price
    of a market order differs from what the caller passed. *)
Theorem returned_order_is_validated (order_params order_params' : gmap string OrderManager.pyvalue) :
  OrderManager.validate_order order_params = (order_params', OrderManager.ReturnsParams) ->
  OrderManager.validated order_params' /\
  (forall key, key <> "product" -> key <> "price" ->
     order_params' !! key = order_params !! key) /\
  (is_Some (order_params !! "product") ->
   order_params' !! "product" = order_params !! "product") /\
  (order_params !! "order_type" = Some (OrderManager.PStr "limit") ->
   order_params' !! "price" = order_params !! "price").
Proof.
  intros Heq. pose proof (validate_order_cases order_params) as Hcases.
  rewrite Heq in Hcases. destruct (Hcases eq_refl) as (wp & Hreq & Hprod & Hact & Hprice).
  assert (Hwp : (forall key, key <> "product" -> wp !! key = order_params !! key) /\
                (exists product, wp !! "product" = Some (OrderManager.PStr product) /\
                                 product ∈ OrderManager.valid_products) /\
                (is_Some (order_params !! "product") -> wp = order_params)).
  { destruct Hprod as [(Hnone & product & Hvalid & ->) | [(product & Hp & Hvalid) ->]].
    - split; [intros key Hk; now rewrite lookup_insert_ne |].
      split; [exists product; now rewrite lookup_insert_eq |].
      rewrite Hnone. intros [? ?]; discriminate.
    - split; [reflexivity |]. split; [eauto | reflexivity]. }
  destruct Hwp as (Hsame & (product & Hp & Hvalid) & Hkeep).
  assert (Hfields : forall field, field ∈ OrderManager.required_fields ->
                                  field <> "product" /\ field <> "price").
  { intros field Hf. unfold OrderManager.required_fields in Hf.
    split; intros ->;
      repeat (apply elem_of_cons in Hf as [Hf | Hf]; [discriminate |]);
      now apply elem_of_nil in Hf. }
  destruct Hprice as [[Hot ->] | (Hot & -> & price & Hpr & Hpass)].
  - split; [split |].
    + intros field Hf. destruct (Hfields field Hf) as [H1 H2].
      rewrite lookup_insert_ne, Hsame by congruence. now apply Hreq.
    + exists product. now rewrite lookup_insert_ne.
    + now rewrite lookup_insert_ne, Hsame.
    + left. rewrite lookup_insert_ne, Hsame, lookup_insert_eq by discriminate. auto.
    + split; [| split].
      * intros key H1 H2. rewrite lookup_insert_ne by congruence. now apply Hsame.
      * intros Hsome. rewrite lookup_insert_ne by discriminate. now rewrite (Hkeep Hsome).
      * rewrite Hot. discriminate.
  - split; [split |].
    + intros field Hf. destruct (Hfields field Hf) as [H1 H2]. rewrite Hsame by congruence.
      now apply Hreq.
    + eauto.
    + now rewrite Hsame.
    + right. rewrite !Hsame by discriminate. eauto.
    + split; [| split].
      * intros key H1 _. now apply Hsame.
      * intros Hsome. now rewrite (Hkeep Hsome).
      * intros _. now apply Hsame.
Qed.

Lemma returned_order_is_validated_witness :
  let order : gmap string OrderManager.pyvalue :=
    {[ "stock_code" := OrderManager.PStr "NIFTY"; "exchange_code" := OrderManager.PStr "NFO";
       "action" := OrderManager.PStr "buy"; "order_type" := OrderManager.PStr "market";
       "quantity" := OrderManager.PInt 50; "price" := OrderManager.PFloat 21000.5 ]} in
  OrderManager.validated (OrderManager.validate_order order).1 /\
  (OrderManager.validate_order order).1 !! "price" = Some (OrderManager.PInt 0) /\
  (OrderManager.validate_order order).1 !! "product" = Some (OrderManager.PStr "futures").
Proof.
  intros order.
  assert (Heq : OrderManager.validate_order order
                = ((OrderManager.validate_order order).1, OrderManager.ReturnsParams))
    by (vm_compute; reflexivity).
  destruct (returned_order_is_validated order _ Heq) as (Hv & _).
  split; [exact Hv |]. split; vm_compute; reflexivity.
Defined.

(** X25. An order that has passed passes again, and comes back as it is:
    [validate_order] changes nothing in an order that it has returned. *)
Theorem validated_order_passes_again (order_params order_params' : gmap string OrderManager.pyvalue) :
  OrderManager.validate_order order_params = (order_params', OrderManager.ReturnsParams) ->
  OrderManager.validate_order order_params' = (order_params', OrderManager.ReturnsParams).
Proof.
  intros Heq. pose proof (validate_order_cases order_params) as Hcases.
  rewrite Heq in Hcases. destruct (Hcases eq_refl) as (wp & Hreq & Hprod & Hact & Hprice).
  apply validated_accepts.
  assert (Hwp : (forall key, key <> "product" -> wp !! key = order_params !! key) /\
                (exists product, wp !! "product" = Some (OrderManager.PStr product) /\
                                 product ∈ OrderManager.valid_products)).
  { destruct Hprod as [(Hnone & product & Hvalid & ->) | [(product & Hp & Hvalid) ->]].
    - split; [intros key Hk; now rewrite lookup_insert_ne |].
      exists product. now rewrite lookup_insert_eq.
    - split; [reflexivity | eauto]. }
  destruct Hwp as (Hsame & (product & Hp & Hvalid)).
  assert (Hfields : forall field, field ∈ OrderManager.required_fields ->
                                  field <> "product" /\ field <> "price").
  { intros field Hf. unfold OrderManager.required_fields in Hf.
    split; intros ->;
      repeat (apply elem_of_cons in Hf as [Hf | Hf]; [discriminate |]);
      now apply elem_of_nil in Hf. }
  destruct Hprice as [[Hot ->] | (Hot & -> & price & Hpr & Hpass)]; split.
  - intros field Hf. destruct (Hfields field Hf) as [H1 H2].
    rewrite lookup_insert_ne, Hsame by congruence. now apply Hreq.
  - exists product. now rewrite lookup_insert_ne.
  - now rewrite lookup_insert_ne, Hsame.
  - left. rewrite lookup_insert_ne, Hsame, lookup_insert_eq by discriminate. auto.
  - intros field Hf. destruct (Hfields field Hf) as [H1 H2]. rewrite Hsame by congruence.
    now apply Hreq.
  - eauto.
  - now rewrite Hsame.
  - right. rewrite !Hsame by discriminate. eauto.
Qed.

Lemma validated_order_passes_again_witness :
  let order : gmap string OrderManager.pyvalue :=
    {[ "stock_code" := OrderManager.PStr "RELIND"; "exchange_code" := OrderManager.PStr "NSE";
       "action" := OrderManager.PStr "sell"; "order_type" := OrderManager.PStr "limit";
       "quantity" := OrderManager.PInt 10; "price" := OrderManager.PInt 2500 ]} in
  OrderManager.validate_order (OrderManager.validate_order order).1
  = ((OrderManager.validate_order order).1, OrderManager.ReturnsParams).
Proof.
  intros order.
  apply (validated_order_passes_again order (OrderManager.validate_order order).1).
  vm_compute. reflexivity.
Defined.

Lemma limit_order_result (order_params : gmap string OrderManager.pyvalue) :
  (forall field, field ∈ OrderManager.required_fields -> is_Some (order_params !! field)) ->
  (order_params !! "product" = None \/
   exists product, order_params !! "product" = Some (OrderManager.PStr product) /\
                   product ∈ OrderManager.valid_products) ->
  order_params !! "order_type" = Some (OrderManager.PStr "limit") ->
  (order_params !! "action" = Some (OrderManager.PStr "buy") \/
   order_params !! "action" = Some (OrderManager.PStr "sell")) ->
  (OrderManager.validate_order order_params).2
  = let price := default (OrderManager.PInt 0) (order_params !! "price") in
    if OrderManager.py_not price then OrderManager.ReturnsNone
    else match OrderManager.le_zero price with
         | None => OrderManager.RaisesTypeError
         | Some true => OrderManager.ReturnsNone
         | Some false => OrderManager.ReturnsParams
         end.
Proof.
  intros Hreq Hprod Hot Hact. unfold OrderManager.validate_order.
  rewrite (proj2 (required_fields_spec order_params) Hreq). simpl.
  assert (Haction : OrderManager.is_in (default OrderManager.PNone (order_params !! "action"))
                      ["buy"; "sell"] = true).
  { destruct Hact as [-> | ->]; reflexivity. }
  assert (Hgo : forall wp : gmap string OrderManager.pyvalue,
            (forall key, key <> "product" -> wp !! key = order_params !! key) ->
            (if negb (OrderManager.is_in (OrderManager.item wp "order_type") ["limit"; "market"])
             then (wp, OrderManager.ReturnsNone)
             else if negb (OrderManager.is_in (OrderManager.item wp "action") ["buy"; "sell"])
             then (wp, OrderManager.ReturnsNone)
             else if OrderManager.is_text (OrderManager.item wp "order_type") "market"
             then (<["price" := OrderManager.PInt 0]> wp, OrderManager.ReturnsParams)
             else if OrderManager.is_text (OrderManager.item wp "order_type") "limit"
             then
               let price := default (OrderManager.PInt 0) (wp !! "price") in
               if OrderManager.py_not price then (wp, OrderManager.ReturnsNone)
               else
                 match OrderManager.le_zero price with
                 | None => (wp, OrderManager.RaisesTypeError)
                 | Some true => (wp, OrderManager.ReturnsNone)
                 | Some false => (wp, OrderManager.ReturnsParams)
                 end
             else (wp, OrderManager.ReturnsParams)).2
            = let price := default (OrderManager.PInt 0) (order_params !! "price") in
              if OrderManager.py_not price then OrderManager.ReturnsNone
              else match OrderManager.le_zero price with
                   | None => OrderManager.RaisesTypeError
                   | Some true => OrderManager.ReturnsNone
                   | Some false => OrderManager.ReturnsParams
                   end).
  { intros wp Hsame. unfold OrderManager.item. rewrite !Hsame by discriminate.
    rewrite Hot, Haction. simpl.
    destruct (OrderManager.py_not _); [reflexivity |].
    now destruct (OrderManager.le_zero _) as [[|] |]. }
  destruct Hprod as [-> | (product & -> & Hvalid)].
  - destruct (OrderManager.is_in _ ["NFO"; "BFO"]); apply Hgo;
      intros key Hk; now rewrite lookup_insert_ne.
  - rewrite (is_in_text product _ Hvalid). simpl. now apply Hgo.
Qed.

(** X26. The price test of a limit order that is well formed otherwise:
    the order passes exactly when its price is a number above zero or a float
    NaN; the validation raises [TypeError] exactly when the price is a
    non-empty text; in every other case (no price, [None], the empty text, a
    number that is zero or below) it returns [None]. *)
Theorem limit_order_price_test (order_params : gmap string OrderManager.pyvalue) :
  (forall field, field ∈ OrderManager.required_fields -> is_Some (order_params !! field)) ->
  (order_params !! "product" = None \/
   exists product, order_params !! "product" = Some (OrderManager.PStr product) /\
                   product ∈ OrderManager.valid_products) ->
  order_params !! "order_type" = Some (OrderManager.PStr "limit") ->
  (order_params !! "action" = Some (OrderManager.PStr "buy") \/
   order_params !! "action" = Some (OrderManager.PStr "sell")) ->
  ((OrderManager.validate_order order_params).2 = OrderManager.ReturnsParams <->
   exists price, order_params !! "price" = Some price /\ OrderManager.limit_price_passes price) /\
  ((OrderManager.validate_order order_params).2 = OrderManager.RaisesTypeError <->
   exists s, order_params !! "price" = Some (OrderManager.PStr s) /\ s <> "").
Proof.
  intros Hreq Hprod Hot Hact. rewrite (limit_order_result order_params Hreq Hprod Hot Hact).
  cbv zeta. destruct (order_params !! "price") as [price |] eqn:Hprice; simpl.
  - split.
    + assert (Hex : (exists p, Some price = Some p /\ OrderManager.limit_price_passes p)
                    <-> OrderManager.limit_price_passes price).
      { split; [intros (p & [= <-] & H); exact H | eauto]. }
      rewrite Hex, <- limit_price_passes_spec.
      destruct (OrderManager.py_not price);
        [| destruct (OrderManager.le_zero price) as [[|] |]]; split;
        try discriminate; try (intros [? ?]; discriminate); auto.
    + destruct price as [| s | n | x]; simpl.
      * split; [discriminate | intros (s & [= ] & _)].
      * destruct (String.eqb_spec s ""); split; try discriminate.
        -- intros (s' & [= <-] & Hne). contradiction.
        -- intros _. eauto.
        -- reflexivity.
      * destruct (n =? 0); [| destruct (n <=? 0)]; split; try discriminate;
          intros (s & [= ] & _).
      * destruct (PrimFloat.eqb x PrimFloat.zero); [| destruct (PrimFloat.leb x PrimFloat.zero)];
          split; try discriminate; intros (s & [= ] & _).
  - split; split; try discriminate; intros (? & [= ] & _).
Qed.

Lemma limit_order_price_test_witness :
  let order : gmap string OrderManager.pyvalue :=
    {[ "stock_code" := OrderManager.PStr "RELIND"; "exchange_code" := OrderManager.PStr "NSE";
       "action" := OrderManager.PStr "buy"; "order_type" := OrderManager.PStr "limit";
       "quantity" := OrderManager.PInt 10; "price" := OrderManager.PFloat PrimFloat.nan ]} in
  (OrderManager.validate_order order).2 = OrderManager.ReturnsParams.
Proof.
  intros order.
  destruct (limit_order_price_test order) as [Hpass _].
  - intros field Hf. unfold OrderManager.required_fields in Hf.
    repeat (apply elem_of_cons in Hf as [-> | Hf]; [vm_compute; eauto |]).
    now apply elem_of_nil in Hf.
  - left. reflexivity.
  - reflexivity.
  - left. reflexivity.
  - apply Hpass. exists (OrderManager.PFloat PrimFloat.nan). split; [reflexivity |].
    right. reflexivity.
Defined.

(** ** The progress of a run *)

Lemma process_batch_results_progress_only (i idx n : nat) (rs : list gather_result)
    (all_data : list (gmap string string)) :
  Forall progress_only (process_batch_results i idx n rs all_data).1.
Proof.
  revert idx all_data. induction rs as [| r rs IH]; intros idx all_data; simpl; [constructor |].
  destruct r as [| r]; [apply IH |].
  unfold mbind, exec_bind, emit.
  specialize (IH (S idx) (all_data ++ chunk_data_of r)).
  destruct (process_batch_results i (S idx) n rs (all_data ++ chunk_data_of r)) as [acts res].
  simpl in *. constructor; [exact I | exact IH].
Qed.

Lemma create_tasks_silent (job : HistoricalDataJob) (env : run_env) (batch : list chunk)
    (chunk_num : nat) :
  (create_tasks job env batch chunk_num).1 = [].
Proof.
  pose proof (create_tasks_spec job env batch chunk_num) as H.
  destruct (duplicated_argument (kwargs job)); [destruct batch |]; now rewrite H.
Qed.

Lemma batches_loop_progress_only (job : HistoricalDataJob) (env : run_env)
    (chunks : list chunk) (starts : list nat) (all_data : list (gmap string string))
    (chunk_num : nat) :
  Forall progress_only (batches_loop job env chunks starts all_data chunk_num).1.
Proof.
  revert all_data chunk_num. induction starts as [| i starts IH]; intros all_data chunk_num;
    simpl; [constructor |].
  pose proof (create_tasks_silent job env (take max_parallel_chunks (drop i chunks)) chunk_num)
    as Hsilent.
  destruct (create_tasks job env (take max_parallel_chunks (drop i chunks)) chunk_num)
    as [acts0 [e | [tasks chunk_num']]]; simpl in Hsilent; subst acts0;
    unfold mbind, exec_bind, emit; simpl; [constructor |].
  pose proof (process_batch_results_progress_only i 0 (length chunks)
                ((fun o => GatherValue (_fetch_single_chunk o)) <$> tasks) all_data) as Hres.
  destruct (process_batch_results i 0 (length chunks)
              ((fun o => GatherValue (_fetch_single_chunk o)) <$> tasks) all_data)
    as [acts1 [e | all_data']]; simpl in *.
  - constructor; [exact I | exact Hres].
  - specialize (IH all_data' chunk_num').
    destruct (batches_loop job env chunks starts all_data' chunk_num') as [acts2 res].
    simpl in *. constructor; [exact I |]. apply Forall_app. split; [exact Hres |].
    constructor; [exact I | exact IH].
Qed.

Lemma progress_only_keeps (acts : list action) (job : HistoricalDataJob) (db : list db_call) :
  Forall progress_only acts ->
  let job' := (foldl (fun st a => apply_action a st) (job, db) acts).1 in
  total_chunks (progress job') = total_chunks (progress job) /\
  current_chunk (progress job') = current_chunk (progress job) /\
  result_data job' = result_data job /\ status job' = status job.
Proof.
  revert job db. induction acts as [| a acts IH]; intros job db Hall; [simpl; auto |].
  apply Forall_cons in Hall as [Ha Hall]. cbn [foldl].
  destruct a; simpl in Ha; try contradiction; cbn [apply_action].
  - destruct (IH (_update_progress pct msg job) db Hall) as (H1 & H2 & H3 & H4). auto.
  - now apply IH.
  - now apply IH.
Qed.

(** The run of a job that completes, action by action. *)
Lemma execute_job_completes_explicit (job : HistoricalDataJob) (env : run_env)
    (chunks : list chunk) :
  plans job chunks ->
  duplicated_argument (kwargs job) = None ->
  let n := length chunks in
  let data := _process_data (concat (chunk_contribution env <$> seq 0 n)) in
  exists acts,
    Forall progress_only acts /\
    _execute_job job env =
      AProgress 0 MsgInitializing :: ASetTotalChunks n :: acts ++
      [AStore data (Z.of_nat n - 1); AComplete data; AProgress 100 (MsgComplete (length data))].
Proof.
  intros (start_dt & end_dt & Hfrom & Hto & Hgen) Hdup. unfold _execute_job, try_block.
  rewrite Hfrom, Hto. unfold call_generate_chunks.
  cbv [fromisoformat mbind exec_bind emit mret exec_ret]. rewrite Hgen. clear Hgen.
  pose proof (range_step_bounds (length chunks)) as [Hb1 Hb2].
  pose proof (batches_loop_progress_only job env chunks
                (range_step (length chunks) max_parallel_chunks) [] 0) as Hloop.
  destruct (batches_loop_value job env chunks Hdup
              ((length chunks + max_parallel_chunks - 1) / max_parallel_chunks)%nat 0 [] 0)
    as (acts & Heq & _).
  { intros Hpos. specialize (Hb2 Hpos). lia. }
  assert (Hlen : (if decide (((length chunks + max_parallel_chunks - 1) / max_parallel_chunks)%nat
                             = 0%nat) then 0%nat else length chunks) = length chunks).
  { destruct (decide _) as [H0 | _]; [| reflexivity]. rewrite H0 in Hb1. lia. }
  assert (Hseq : (if decide (((length chunks + max_parallel_chunks - 1) / max_parallel_chunks)%nat
                             = 0%nat) then 0%nat else (length chunks - 0)%nat) = length chunks).
  { destruct (decide _) as [H0 | _]; [rewrite H0 in Hb1 |]; lia. }
  rewrite Hlen, Hseq in Heq. fold (range_step (length chunks) max_parallel_chunks) in Heq.
  rewrite Heq in Hloop |- *. simpl in Hloop.
  exists (AProgress 5 (MsgProcessingChunks (length chunks))
          :: acts ++ [AProgress 95 MsgProcessingData; AProgress 98 MsgStoringData]).
  split.
  - constructor; [exact I |]. apply Forall_app. split; [exact Hloop |]. repeat constructor.
  - cbn [app]. rewrite ?app_nil_r, <- ?app_assoc. reflexivity.
Qed.

(** Every run ends in the [except] clause or with the completion; a run
    that completes is the run of a job that was planned and of which every
    chunk was requested. *)
Lemma execute_job_cases (job : HistoricalDataJob) (env : run_env) :
  (exists pre e,
     Forall quiet pre /\
     _execute_job job env = pre ++ [AFail e; AProgress 0 (MsgFailed e)]) \/
  (let n := length (planned_chunks job) in
   let data := _process_data (concat (chunk_contribution env <$> seq 0 n)) in
   exists acts,
     Forall progress_only acts /\
     _execute_job job env =
       AProgress 0 MsgInitializing :: ASetTotalChunks n :: acts ++
       [AStore data (Z.of_nat n - 1); AComplete data;
        AProgress 100 (MsgComplete (length data))]).
Proof.
  assert (Hearly : forall e,
            _execute_job job env
            = [AProgress 0 MsgInitializing; AFail e; AProgress 0 (MsgFailed e)] ->
            exists pre e,
              Forall quiet pre /\
              _execute_job job env = pre ++ [AFail e; AProgress 0 (MsgFailed e)]).
  { intros e He. exists [AProgress 0 MsgInitializing], e. split; [repeat constructor | exact He]. }
  destruct (from_date job) as [start_dt |] eqn:Hfrom.
  2: { left. apply (Hearly InvalidIsoformat). unfold _execute_job, try_block.
       now rewrite Hfrom. }
  destruct (to_date job) as [end_dt |] eqn:Hto.
  2: { left. apply (Hearly InvalidIsoformat). unfold _execute_job, try_block.
       now rewrite Hfrom, Hto. }
  destruct (_generate_chunks start_dt end_dt (_calculate_chunk_duration (interval job)))
    as [[exn | chunks] |] eqn:Hgen.
  - left. apply (Hearly (DateArithmetic exn)). unfold _execute_job, try_block.
    rewrite Hfrom, Hto. unfold call_generate_chunks.
    cbv [fromisoformat mbind exec_bind emit mret exec_ret]. now rewrite Hgen.
  - assert (Hplans : plans job chunks) by (exists start_dt, end_dt; auto).
    rewrite (plans_planned_chunks job chunks Hplans). clear Hearly.
    destruct (duplicated_argument (kwargs job)) as [name |] eqn:Hdup.
    + destruct chunks as [| c chunks].
      * right. exists [AProgress 5 (MsgProcessingChunks 0);
                       AProgress 95 MsgProcessingData; AProgress 98 MsgStoringData].
        split; [repeat constructor |]. unfold _execute_job, try_block.
        rewrite Hfrom, Hto. unfold call_generate_chunks.
        cbv [fromisoformat mbind exec_bind emit mret exec_ret]. rewrite Hgen. reflexivity.
      * left. exists [AProgress 0 MsgInitializing; ASetTotalChunks (length (c :: chunks));
                      AProgress 5 (MsgProcessingChunks (length (c :: chunks)))],
                     (MultipleValuesForArgument name).
        split; [repeat constructor |]. unfold _execute_job, try_block.
        rewrite Hfrom, Hto. unfold call_generate_chunks.
        cbv [fromisoformat mbind exec_bind emit mret exec_ret]. rewrite Hgen.
        now rewrite (batches_loop_collision job env (c :: chunks) name Hdup).
    + right. apply (execute_job_completes_explicit job env chunks Hplans Hdup).
  - destruct (generate_chunks_from_total _ end_dt (chunk_duration_pos (interval job))
                start_dt) as [r Hr].
    unfold _generate_chunks in Hgen. congruence.
Qed.

(** X27. The progress of a job after a run that completes, whatever the
    job: its percentage is 100, its message reports the number of candles of
    the result, its candle count is that number, and its chunk total is the
    number of chunks that were planned. *)
Theorem completed_run_final_progress (job : HistoricalDataJob) (env : run_env) :
  status (run_to_end job env).1 = COMPLETED ->
  let merged :=
    _process_data (concat (chunk_contribution env <$> seq 0 (length (planned_chunks job)))) in
  result_data (run_to_end job env).1 = Some merged /\
  progress (run_to_end job env).1
  = {| current_chunk := current_chunk (progress job);
       total_chunks := length (planned_chunks job);
       candles_fetched := length merged;
       percentage := 100;
       message := Some (MsgComplete (length merged)) |}.
Proof.
  intros Hcompleted merged.
  destruct (execute_job_cases job env) as [(pre & e & Hq & Hexec) | (acts & Hacts & Hexec)].
  { destruct (run_to_end_failed job env pre e Hq Hexec) as (Hs & _). congruence. }
  clear Hcompleted. fold merged in Hexec.
  unfold run_to_end. rewrite Hexec. cbn [foldl apply_action].
  rewrite foldl_app.
  pose proof (progress_only_keeps acts
                (set_progress
                   {| current_chunk := current_chunk (progress (_update_progress 0 MsgInitializing job));
                      total_chunks := length (planned_chunks job);
                      candles_fetched :=
                        candles_fetched (progress (_update_progress 0 MsgInitializing job));
                      percentage := percentage (progress (_update_progress 0 MsgInitializing job));
                      message := message (progress (_update_progress 0 MsgInitializing job)) |}
                   (_update_progress 0 MsgInitializing job)) [] Hacts) as Hkeep.
  cbv zeta in Hkeep.
  destruct (foldl _ _ acts) as [job1 db1]. simpl in Hkeep. destruct Hkeep as (Ht & Hc & _).
  simpl. unfold result_count. simpl. now rewrite Ht, Hc.
Qed.

(** A run with a failed chunk, and the run of a job over a reversed range
    whose extra parameters carry the name [chunk_num]. *)
Lemma completed_run_final_progress_witness :
  let job := sample_job "1minute" (Some (naive 0)) (Some (naive (15 * microseconds_per_day)))
               [] in
  let reversed := sample_job "1minute" (Some (naive microseconds_per_day)) (Some (naive 0))
                    [("chunk_num", "7")] in
  status (run_to_end job third_chunk_raises).1 = COMPLETED /\
  total_chunks (progress (run_to_end job third_chunk_raises).1) = 5%nat /\
  candles_fetched (progress (run_to_end job third_chunk_raises).1) = 4%nat /\
  status (run_to_end reversed third_chunk_raises).1 = COMPLETED /\
  percentage (progress (run_to_end reversed third_chunk_raises).1) = 100%Q.
Proof.
  intros job reversed.
  assert (Hs : status (run_to_end job third_chunk_raises).1 = COMPLETED)
    by (vm_compute; reflexivity).
  assert (Hs' : status (run_to_end reversed third_chunk_raises).1 = COMPLETED)
    by (vm_compute; reflexivity).
  destruct (completed_run_final_progress job third_chunk_raises Hs) as [_ Hp].
  destruct (completed_run_final_progress reversed third_chunk_raises Hs') as [_ Hp'].
  rewrite Hp, Hp'. repeat split; try assumption; vm_compute; reflexivity.
Defined.

(** ** [cancel_job] and the executor of a job *)

(** A task that will never run its executor belongs to a job that is
    CANCELLED. *)
Lemma never_runs_cancelled (evs : list event) (id : nat) (t : Task) :
  active_jobs (run new_manager evs) !! id = Some t -> never_runs t ->
  job_status (run new_manager evs) id = Some CANCELLED.
Proof.
  revert id t. induction evs as [| ev evs IH] using rev_ind; intros id t Ht Hnever.
  - simpl in Ht. now rewrite lookup_empty in Ht.
  - rewrite run_snoc in *. set (m := run new_manager evs) in *.
    pose proof (reachable_inv evs) as Hinv. fold m in Hinv.
    assert (Hold : forall t0, active_jobs m !! id = Some t0 -> never_runs t0 ->
                     job_status (step m ev) id = Some CANCELLED).
    { intros t0 Ht0 Hn0. apply (stuck_status id (step m ev)), stuck_inv_step.
      split; [exact Hinv | eauto | eapply IH; eauto]. }
    destruct ev as [sy ex iv fd td kw | j env | j | j].
    + exact (Hold t Ht Hnever).
    + simpl in Ht. unfold start_job in Ht.
      destruct (jobs m !! j) as [jobj |] eqn:Hjj; [| exact (Hold t Ht Hnever)].
      destruct (active_jobs m !! j) as [tj |] eqn:Htj; [exact (Hold t Ht Hnever) |].
      simpl in Ht. destruct (decide (j = id)) as [-> | Hne].
      * rewrite lookup_insert_eq in Ht. injection Ht as <-.
        destruct Hnever as [Hc | (env' & _ & Hm)]; discriminate.
      * rewrite lookup_insert_ne in Ht by done. exact (Hold t Ht Hnever).
    + simpl in Ht. unfold cancel_job in Ht.
      destruct (active_jobs m !! j) as [tj |] eqn:Htj; [| exact (Hold t Ht Hnever)].
      destruct (inv_active m Hinv j) as [jobj Hjj]; [eauto |]. rewrite Hjj in Ht.
      simpl in Ht. destruct (decide (j = id)) as [-> | Hne].
      * unfold step, cancel_job. rewrite Htj, Hjj. unfold job_status. simpl.
        now rewrite lookup_insert_eq.
      * rewrite lookup_insert_ne in Ht by done. exact (Hold t Ht Hnever).
    + pose proof (resume_inv m j) as Hcase.
      change (step m (EvResume j)) with (resume m j) in *.
      remember (resume m j) as m' eqn:Hm'. clear Hm'.
      destruct Hcase as [_ | tj env Htj Hjj Hc Hm | tj env rest Htj Hjj Hc Hm
                         | tj jobj env acts job' extra rest Htj Hjj Hm Hc Hrun].
      * exact (Hold t Ht Hnever).
      * simpl in Ht. destruct (decide (j = id)) as [-> | Hne].
        -- apply (Hold tj Htj). right. eauto.
        -- rewrite lookup_insert_ne in Ht by done. exact (Hold t Ht Hnever).
      * simpl in Ht. destruct (decide (j = id)) as [-> | Hne].
        -- now rewrite lookup_delete_eq in Ht.
        -- rewrite lookup_delete_ne in Ht by done. exact (Hold t Ht Hnever).
      * simpl in Ht. destruct (decide (j = id)) as [-> | Hne].
        -- destruct rest as [rest |].
           ++ rewrite lookup_insert_eq in Ht. injection Ht as <-.
              destruct Hnever as [Hd | (env' & Hd & _)]; discriminate.
           ++ now rewrite lookup_delete_eq in Ht.
        -- destruct rest as [rest |];
             [rewrite lookup_insert_ne in Ht by done | rewrite lookup_delete_ne in Ht by done];
             exact (Hold t Ht Hnever).
Qed.

(** C9.  What [cancel_job] answers in the states that the registry can
    reach.  It returns true exactly when [active_jobs] holds a task for the
    job.  That is so whenever the job has an active executor, and for every
    RUNNING job; on a job that is PENDING, which is one that was never
    started, it returns false and changes nothing.  But it is also so
    without an active executor: then the task of the job has finished and
    still is in [active_jobs], which is the state of a task that was
    cancelled before its first step, and the job is CANCELLED. *)
Theorem cancel_job_answers_by_registered_task (evs : list event) (id : nat) :
  let m := run new_manager evs in
  ((cancel_job m id).2 = true <-> is_Some (active_jobs m !! id)) /\
  (active_executor m id -> (cancel_job m id).2 = true) /\
  (job_status m id = Some RUNNING -> active_executor m id) /\
  (job_status m id = Some PENDING -> cancel_job m id = (m, false)) /\
  ((cancel_job m id).2 = true -> ~ active_executor m id ->
   exists t, active_jobs m !! id = Some t /\ coro t = CoDone /\
             job_status m id = Some CANCELLED).
Proof.
  intros m. pose proof (reachable_inv evs) as Hinv. fold m in Hinv.
  assert (Hiff : (cancel_job m id).2 = true <-> is_Some (active_jobs m !! id)).
  { unfold cancel_job. destruct (active_jobs m !! id) as [t |].
    - destruct (jobs m !! id); simpl; split; eauto.
    - simpl. split; [discriminate | intros [? ?]; discriminate]. }
  split; [exact Hiff |]. split; [| split; [| split]].
  - intros (t & Ht & _). apply Hiff. eauto.
  - intros Hs. unfold job_status in Hs.
    destruct (jobs m !! id) as [job |] eqn:Hj; [| discriminate]. injection Hs as Hs.
    destruct (running_inv_reachable evs id job Hj Hs) as (t & Ht & _ & Hlive).
    exists t. split; [exact Ht |].
    destruct Hlive as [(env & ->) | (env & rest & -> & _)]; discriminate.
  - intros Hs. unfold job_status in Hs.
    destruct (jobs m !! id) as [job |] eqn:Hj; [| discriminate]. injection Hs as Hs.
    unfold cancel_job. destruct (active_jobs m !! id) as [t |] eqn:Ht; [| reflexivity].
    destruct (inv_task m Hinv id t job Ht Hj) as [Hne _]. contradiction.
  - intros Htrue Hnot. apply Hiff in Htrue as [t Ht].
    exists t. split; [exact Ht |].
    assert (Hdone : coro t = CoDone).
    { destruct (coro t) eqn:Hc; [| | reflexivity];
        exfalso; apply Hnot; exists t; split; [exact Ht | | exact Ht |]; rewrite Hc; discriminate. }
    split; [exact Hdone |]. apply (never_runs_cancelled evs id t Ht). now left.
Qed.

(** A job that was only created is PENDING and cannot be cancelled; the job
    whose task was cancelled before its first step can, without an active
    executor. *)
Lemma cancel_job_answers_by_registered_task_witness :
  (job_status (run new_manager [one_day_job]) 0 = Some PENDING /\
   cancel_job (run new_manager [one_day_job]) 0 = (run new_manager [one_day_job], false)) /\
  ((cancel_job (run new_manager cancelled_before_first_step) 0).2 = true /\
   job_status (run new_manager cancelled_before_first_step) 0 = Some CANCELLED).
Proof.
  split.
  - split; [reflexivity |].
    apply (cancel_job_answers_by_registered_task [one_day_job] 0). reflexivity.
  - split; [reflexivity |].
    destruct (cancel_job_answers_by_registered_task cancelled_before_first_step 0)
      as (_ & _ & _ & _ & Hstale).
    destruct Hstale as (t & _ & _ & Hs); [reflexivity | | exact Hs].
    intros (t & Ht & Hc). vm_compute in Ht. injection Ht as <-. now apply Hc.
Defined.

(** C9, as stated, fails.  A job is started and cancelled before the event
    loop has run its task.  The task then ends without a step of the
    executor, so that the [finally] clause of [_execute_job], which alone
    removes the entry from [active_jobs], never runs: the job has no active
    executor any more, and [cancel_job] returns true. *)
Lemma cancel_job_true_without_active_executor :
  let m := run new_manager cancelled_before_first_step in
  active_jobs m !! 0%nat = Some {| coro := CoDone; must_cancel := false |} /\
  ~ active_executor m 0 /\
  (cancel_job m 0).2 = true.
Proof.
  intros m.
  assert (Ht : active_jobs m !! 0%nat = Some {| coro := CoDone; must_cancel := false |})
    by (vm_compute; reflexivity).
  split; [exact Ht |]. split; [| reflexivity].
  intros (t & Ht' & Hc). rewrite Ht in Ht'. injection Ht' as <-. now apply Hc.
Qed.
